(** * Path execution and recovery of the voxel-world pathfinder

    A shallow embedding of the parts of [ThePathfinder], of the continuous
    path producer, of the abstract movement executor and of the forward and
    jump-up movement providers that the specification makes claims about,
    with the properties the code has.

    Numbers are JavaScript doubles in the source.  Positions and costs are
    embedded as exact rationals ([Q]); block coordinates, which the source
    keeps floored, as integers ([Z]); counters as [nat].  Where the code
    turns doubles into a yes or a no that their rounding decides, in
    [isPositionNearPath], the doubles are kept as IEEE 754 binary64
    numbers. *)

From Stdlib Require Import QArith Lqa ZArith Lia.
From Stdlib Require Floats.
From stdpp Require Import gmap strings list.

Local Open Scope Q_scope.

(** ** Vectors ([vec3]) and the closest point of a segment *)

Module Geometry.

Record Vec3 : Type := mkVec3 { vx : Q; vy : Q; vz : Q }.

Definition minus (a b : Vec3) : Vec3 :=
  mkVec3 (vx a - vx b) (vy a - vy b) (vz a - vz b).

Definition plus (a b : Vec3) : Vec3 :=
  mkVec3 (vx a + vx b) (vy a + vy b) (vz a + vz b).

Definition scaled (a : Vec3) (k : Q) : Vec3 :=
  mkVec3 (vx a * k) (vy a * k) (vz a * k).

Definition dot (a b : Vec3) : Q :=
  vx a * vx b + vy a * vy b + vz a * vz b.

(** [norm] is a square root in the source; the embedding keeps its square,
    which is zero exactly when the norm is and which is what
    [segmentLength ** 2] denotes. *)
Definition normSq (a : Vec3) : Q := dot a a.

(** Squared [distanceTo]. *)
Definition distSq (a b : Vec3) : Q := normSq (minus a b).

(** Componentwise equality of rationals. *)
Definition veq (a b : Vec3) : Prop :=
  vx a == vx b /\ vy a == vy b /\ vz a == vz b.

(** A division that reports a zero divisor instead of performing it. *)
Definition checkedDiv (a b : Q) : option Q :=
  if Qeq_bool b 0 then None else Some (a / b).

(** [ThePathfinder.closestPointOnLineSegment].  [None] would mean that the
    quotient was taken with a zero divisor. *)
Definition closestPointOnLineSegment (point segmentStart segmentEnd : Vec3)
  : option Vec3 :=
  let segmentLengthSq := normSq (minus segmentEnd segmentStart) in
  if Qeq_bool segmentLengthSq 0 then Some segmentStart
  else
    match checkedDiv (dot (minus point segmentStart)
                          (minus segmentEnd segmentStart))
                     segmentLengthSq with
    | None => None
    | Some t =>
        if Qlt_le_dec t 0 then Some segmentStart
        else if Qlt_le_dec 1 t then Some segmentEnd
        else Some (plus segmentStart
                        (scaled (minus segmentEnd segmentStart) t))
    end.

(** The projection parameter the source computes when the segment is not
    degenerate. *)
Definition projection (point segmentStart segmentEnd : Vec3) : Q :=
  dot (minus point segmentStart) (minus segmentEnd segmentStart)
  / normSq (minus segmentEnd segmentStart).

(** A point of the closed segment from [a] to [b]. *)
Definition onSegment (a b r : Vec3) : Prop :=
  exists t : Q, 0 <= t /\ t <= 1 /\ veq r (plus a (scaled (minus b a) t)).

End Geometry.

(** ** Movement providers: the forward step and the jump up *)

Module Providers.
Import Geometry.

(** Integer block coordinates: what [Move.toVec], [BlockInfo.position] and
    the direction vectors hold. *)
Record BlockPos : Type := mkBlockPos { bx : Z; b_y : Z; bz : Z }.

Definition offsetZ (p : BlockPos) (dx dy dz : Z) : BlockPos :=
  mkBlockPos (bx p + dx) (b_y p + dy) (bz p + dz).

(** [Vec3.add]. *)
Definition add (p d : BlockPos) : BlockPos :=
  mkBlockPos (bx p + bx d) (b_y p + b_y d) (bz p + bz d).

(** [translate(0.5, 0.5, 0.5)] and [offset(0.5, 0.5, 0.5)] of a block
    position: the centre of the unit cube the block occupies. *)
Definition blockCenter (p : BlockPos) : Vec3 :=
  mkVec3 (inject_Z (bx p) + (1 # 2)) (inject_Z (b_y p) + (1 # 2))
         (inject_Z (bz p) + (1 # 2)).

(** The fields of [BlockInfo] the two providers read. *)
Record BlockInfo : Type := mkBlockInfo {
  physical : bool;
  replaceable : bool;
  height : Q;
  position : BlockPos
}.

(** The count of placeable blocks; [getScaffoldCount] yields [Infinity] in
    creative mode. *)
Inductive Count : Type :=
| Finite (n : nat)
| Infinity.

Definition count_is (c : Count) (k : nat) : bool :=
  match c with
  | Finite n => Nat.eqb n k
  | Infinity => false
  end.

(** [k] blocks can be taken from a count. *)
Definition count_covers (c : Count) (k : nat) : Prop :=
  match c with
  | Finite n => (k <= n)%nat
  | Infinity => True
  end.

Inductive PlaceHandler : Type :=
| PlaceFromVec (vec : BlockPos) (type : string).

Inductive BreakHandler : Type :=
| BreakFromVec (vec : BlockPos) (type : string).

Inductive MoveType : Type :=
| ForwardMove
| ForwardJumpMove.

(** The part of a search node the providers read (the [Move] class is not
    among the sources). *)
Record Move : Type := mkMove {
  toVec : BlockPos;
  remainingBlocks : Count
}.

(** A candidate as handed to [Move.fromPrevious]: transition cost, exit
    position, predecessor, provider, and the interactions it needs. *)
Record Candidate : Type := fromPrevious {
  c_cost : Q;
  c_exitPos : Vec3;
  c_prev : Move;
  c_moveType : MoveType;
  c_toPlace : list PlaceHandler;
  c_toBreak : list BreakHandler
}.

(** Modelled from the spec: [Movement.cardinalDirs], a constant of the
    movement base class that is not among the sources; the four horizontal
    unit steps of a cardinal-direction move. *)
Definition cardinalDirs : list BlockPos :=
  [ mkBlockPos (-1) 0 0; mkBlockPos 1 0 0;
    mkBlockPos 0 0 (-1); mkBlockPos 0 0 1 ].

(** What a provider inherits from the movement base class, which is not
    among the sources: the world it queries and the two break checks. *)
Record Movement : Type := mkMovement {
  world : BlockPos -> BlockInfo;
  safeToBreak : BlockInfo -> bool;
  safeOrBreak : BlockInfo -> list BreakHandler -> Q * list BreakHandler
}.

(** Modelled from the spec: [Movement.getBlockInfo], a helper of the
    movement base class that is not among the sources; the [World]
    capability queried at an offset from a position. *)
Definition getBlockInfo (m : Movement) (pos : BlockPos) (dx dy dz : Z)
  : BlockInfo :=
  world m (offsetZ pos dx dy dz).

(** [ForwardMove.getMoveForward]; the result is [neighbors] after the
    call. *)
Definition getMoveForward (m : Movement) (start : Move) (dir : BlockPos)
    (neighbors : list Candidate) : list Candidate :=
  let pos := toVec start in
  let blockB := getBlockInfo m pos (bx dir) 1 (bz dir) in
  let blockC := getBlockInfo m pos (bx dir) 0 (bz dir) in
  let blockD := getBlockInfo m pos (bx dir) (-1) (bz dir) in
  let cost := 1 in
  if negb (physical blockD) then neighbors
  else if physical blockB || physical blockC then neighbors
  else neighbors ++
       [fromPrevious cost (blockCenter (add pos dir)) start ForwardMove [] []].

(** [ForwardMove.provideMovements]. *)
Definition provideMovementsForward (m : Movement) (start : Move)
    (storage : list Candidate) : list Candidate :=
  fold_left (fun acc dir => getMoveForward m start dir acc) cardinalDirs
            storage.

(** The three guarded additions that close [getMoveJumpUp]. *)
Definition jumpUpCosts (m : Movement) (node : Move) (blockA blockH blockB
    : BlockInfo) (cost : Q) (toPlace : list PlaceHandler)
    (toBreak : list BreakHandler) (neighbors : list Candidate)
  : list Candidate :=
  let '(cA, toBreak) := safeOrBreak m blockA toBreak in
  let cost := cost + cA in
  if Qlt_le_dec 100 cost then neighbors else
  let '(cH, toBreak) := safeOrBreak m blockH toBreak in
  let cost := cost + cH in
  if Qlt_le_dec 100 cost then neighbors else
  let '(cB, toBreak) := safeOrBreak m blockB toBreak in
  let cost := cost + cB in
  if Qlt_le_dec 100 cost then neighbors else
  neighbors ++
  [fromPrevious cost (blockCenter (position blockB)) node ForwardJumpMove
                toPlace toBreak].

(** The height check of [getMoveJumpUp] and what follows it. *)
Definition jumpUpTail (m : Movement) (node : Move) (blockA blockH blockB
    : BlockInfo) (cHeight : Q) (toPlace : list PlaceHandler)
    (toBreak : list BreakHandler) (neighbors : list Candidate)
  : list Candidate :=
  let block0 := getBlockInfo m (toVec node) 0 (-1) 0 in
  if Qlt_le_dec (12 # 10) (cHeight - height block0) then neighbors
  else jumpUpCosts m node blockA blockH blockB 2 toPlace toBreak neighbors.

(** [ForwardJumpMove.getMoveJumpUp]; the result is [neighbors] after the
    call. *)
Definition getMoveJumpUp (m : Movement) (node : Move) (dir : BlockPos)
    (neighbors : list Candidate) : list Candidate :=
  let pos := toVec node in
  let blockA := getBlockInfo m pos 0 2 0 in
  let blockH := getBlockInfo m pos (bx dir) 2 (bz dir) in
  let blockB := getBlockInfo m pos (bx dir) 1 (bz dir) in
  let blockC := getBlockInfo m pos (bx dir) 0 (bz dir) in
  let cHeight := height blockC in
  if negb (physical blockC) then
    if count_is (remainingBlocks node) 0 then neighbors else
    let blockD := getBlockInfo m pos (bx dir) (-1) (bz dir) in
    let afterC (toPlace : list PlaceHandler) (toBreak : list BreakHandler) :=
      if negb (replaceable blockC) && negb (safeToBreak m blockC)
      then neighbors
      else
        let toBreak :=
          if negb (replaceable blockC)
          then toBreak ++ [BreakFromVec (position blockC) "solid"]
          else toBreak in
        let toPlace := toPlace ++ [PlaceFromVec (position blockC) "solid"] in
        jumpUpTail m node blockA blockH blockB (cHeight + 1) toPlace toBreak
                   neighbors in
    if negb (physical blockD) then
      if count_is (remainingBlocks node) 1 then neighbors else
      if negb (replaceable blockD) && negb (safeToBreak m blockD)
      then neighbors
      else
        let toBreak :=
          if negb (replaceable blockD)
          then [BreakFromVec (position blockD) "solid"]
          else [] in
        afterC [PlaceFromVec (position blockD) "solid"] toBreak
    else afterC [] []
  else jumpUpTail m node blockA blockH blockB cHeight [] [] neighbors.

(** [ForwardJumpMove.provideMovements]. *)
Definition provideMovementsJump (m : Movement) (node : Move)
    (storage : list Candidate) : list Candidate :=
  fold_left (fun acc dir => getMoveJumpUp m node dir acc) cardinalDirs
            storage.

End Providers.

(** Concrete data the properties below are exercised on. *)

Module ProviderExamples.
Import Geometry Providers.

(** A flat world: solid blocks up to level 63, air above. *)
Definition flatWorld (p : BlockPos) : BlockInfo :=
  let solid := (b_y p <=? 63)%Z in
  mkBlockInfo solid (negb solid)
              (if solid then inject_Z (b_y p) + 1 else inject_Z (b_y p)) p.

(** The flat world with the ground block at (1, 63, 0) taken away. *)
Definition holeWorld (p : BlockPos) : BlockInfo :=
  if ((bx p =? 1) && (b_y p =? 63) && (bz p =? 0))%Z
  then mkBlockInfo false true (inject_Z (b_y p)) p
  else flatWorld p.

Definition breakCost (b : BlockInfo) (toBreak : list BreakHandler)
  : Q * list BreakHandler :=
  if physical b then (1, toBreak ++ [BreakFromVec (position b) "solid"])
  else (0, toBreak).

Definition flatMovement : Movement :=
  mkMovement flatWorld (fun _ => true) breakCost.

Definition holeMovement : Movement :=
  mkMovement holeWorld (fun _ => true) breakCost.

Definition east : BlockPos := mkBlockPos 1 0 0.

Definition standing (blocks : Count) : Move :=
  mkMove (mkBlockPos 0 64 0) blocks.

End ProviderExamples.

(** ** The continuous path producer *)

Module Producers.

(** Search-engine instances live in a store; a producer holds a reference.
    [created] counts the [new AStar] calls made so far and is the next free
    address. *)
Record Store (AStar : Type) : Type := mkStore {
  instances : gmap nat AStar;
  created : nat
}.
Arguments mkStore {AStar} _ _.
Arguments instances {AStar} _.
Arguments created {AStar} _.

Section ContinuousPathProducer.

Context {Move Goal MovementOptions MovementHandler Path AStar : Type}.

(** [MovementHandler.create(bot, world, movements, settings)] followed by
    [loadGoal(goal)]; bot, world and movements are fixed. *)
Variable createHandler : MovementOptions -> Goal -> MovementHandler.

(** The search engine, which is not among the sources: its constructor and
    one slice of search, which returns a result and leaves the instance in
    a new state. *)
Variable newAStar :
  Move -> MovementHandler -> Goal -> Z -> Z -> Z -> Z -> AStar.
Variable compute : AStar -> Path * AStar.
Variable path : Path -> list Move.

(** Whether [global.gc] is defined. *)
Variable gcAvailable : bool.

Record ContinuousPathProducer : Type := mkProducer {
  start : Move;
  goal : Goal;
  settings : MovementOptions;
  astarContext : option nat;
  _currentPath : list Move;
  lastGc : nat
}.

(** The constructor. *)
Definition newProducer (s : Move) (g : Goal) (o : MovementOptions)
  : ContinuousPathProducer :=
  mkProducer s g o None [] 0.

Record AdvanceRes : Type := mkAdvanceRes {
  result : Path;
  res_astarContext : nat
}.

(** [new AStar(...)]: the instance is stored at the next free address. *)
Definition alloc (h : Store AStar) (a : AStar) : nat * Store AStar :=
  (created h, mkStore (<[created h := a]> (instances h)) (S (created h))).

(** [advance].  [None] stands for a reference to an instance that does not
    exist. *)
Definition advance (p : ContinuousPathProducer) (h : Store AStar)
  : option (AdvanceRes * ContinuousPathProducer * Store AStar) :=
  let '(ctx, h1) :=
    match astarContext p with
    | None =>
        let moveHandler := createHandler (settings p) (goal p) in
        alloc h (newAStar (start p) moveHandler (goal p) (-1) 40 (-1) 0)
    | Some ctx => (ctx, h)
    end in
  match instances h1 !! ctx with
  | None => None
  | Some a =>
      let '(res, a') := compute a in
      let gc := if gcAvailable then S (lastGc p) else lastGc p in
      Some (mkAdvanceRes res ctx,
            mkProducer (start p) (goal p) (settings p) (Some ctx)
                       (path res) gc,
            mkStore (<[ctx := a']> (instances h1)) (created h1))
  end.

(** [n] calls of [advance] in a row, with the results in order. *)
Fixpoint advances (n : nat) (p : ContinuousPathProducer) (h : Store AStar)
  : option (list AdvanceRes * ContinuousPathProducer * Store AStar) :=
  match n with
  | O => Some ([], p, h)
  | S n' =>
      match advance p h with
      | None => None
      | Some (r, p1, h1) =>
          match advances n' p1 h1 with
          | None => None
          | Some (rs, p2, h2) => Some (r :: rs, p2, h2)
          end
      end
  end.

(** One search continued over [n] slices: each [compute] starts from the
    state the previous one left. *)
Fixpoint slices (n : nat) (a : AStar) : list Path * AStar :=
  match n with
  | O => ([], a)
  | S n' =>
      let '(res, a1) := compute a in
      let '(rs, a2) := slices n' a1 in
      (res :: rs, a2)
  end.

End ContinuousPathProducer.

End Producers.

(** ** Path objects and [postProcess] *)

Module PathObjects.

Section PostProcess.

Context {Move Context : Type}.

(** A [Path] object.  Its [path] field refers to an array of moves. *)
Record Path : Type := mkPath {
  status : string;
  cost : Q;
  calcTime : Q;
  visitedNodes : nat;
  generatedNodes : nat;
  path : nat;
  context : Context
}.

(** The objects in memory: [Path] objects and arrays of moves, by
    address. *)
Record Memory : Type := mkMemory {
  paths : gmap nat Path;
  arrays : gmap nat (list Move)
}.

(** The optimizer, which is not among the sources: [loadPath] on an array
    followed by [compute].  It sees arrays of moves only, may change them,
    and answers with the array that holds the optimized moves. *)
Variable optimize : gmap nat (list Move) -> nat -> gmap nat (list Move) * nat.

(** [ThePathfinder.postProcess]: [{ ...pathInfo }] is a new object with the
    fields of [pathInfo], whose [path] is then set to the optimizer's
    answer.  [None] stands for a reference to no object. *)
Definition postProcess (mem : Memory) (pathInfo : nat)
  : option (Memory * nat) :=
  match paths mem !! pathInfo with
  | None => None
  | Some obj =>
      let '(arrays', res) := optimize (arrays mem) (path obj) in
      let ret := fresh (dom (paths mem)) in
      let copy := obj in
      let copy := mkPath (status copy) (cost copy) (calcTime copy)
                         (visitedNodes copy) (generatedNodes copy)
                         res (context copy) in
      Some (mkMemory (<[ret := copy]> (paths mem)) arrays', ret)
  end.

End PostProcess.

End PathObjects.

Module PathObjectExamples.
Import PathObjects.

(** An optimizer that keeps every other move, in a new array. *)
Fixpoint everyOther (l : list nat) : list nat :=
  match l with
  | a :: _ :: rest => a :: everyOther rest
  | short => short
  end.

Definition thinOut (arrs : gmap nat (list nat)) (ref : nat)
  : gmap nat (list nat) * nat :=
  let r := fresh (dom arrs) in
  (<[r := everyOther (default [] (arrs !! ref))]> arrs, r).

Definition foundPath : @Path unit :=
  mkPath "success" 4 (3 # 2) 9 21 7 tt.

Definition memory : @Memory nat unit :=
  mkMemory {[ 3%nat := foundPath ]} {[ 7%nat := [10; 11; 12; 13]%nat ]}.

End PathObjectExamples.

(** ** Path generation: [getPathFromTo] and [getPathFromToRaw] *)

Module PathSearch.

Section GetPath.

Context {Path : Type}.
Variable status : Path -> string.

(** What the path producer answers to its [k]-th call of [advance], and
    whether [abortCalculation] is set when the loop reads it after that
    call.  The flag is cleared when the generator starts and is raised by
    [interrupt]. *)
Variable advance : nat -> Path.
Variable abortCalculation : nat -> bool.

(** The generator [getPathFromTo] between two yields: about to call
    [advance] for the [k]-th time, or finished. *)
Inductive Generator : Type :=
| Advancing (k : nat)
| Finished.

Inductive Next : Type :=
| Yield (res : Path) (rest : Generator)
| Done.

Definition continues (s : string) : bool :=
  bool_decide (s = "partial") || bool_decide (s = "partialSuccess").

(** One turn of the [do ... while] loop of [getPathFromTo], up to its
    yield. *)
Definition next (g : Generator) : Next :=
  match g with
  | Finished => Done
  | Advancing k =>
      let result := advance k in
      if bool_decide (status result = "success") then Yield result Finished
      else if abortCalculation k then Yield result Finished
      else if continues (status result) then Yield result (Advancing (S k))
      else Yield result Finished
  end.

Definition getPathFromTo : Generator := Advancing 0.

(** The [for await] loop of [getPathFromToRaw] over a generator.  The
    outer [None] means that the loop has not returned within [fuel] turns;
    [Some None] is the answer [null]. *)
Fixpoint forAwait (fuel : nat) (g : Generator) : option (option Path) :=
  match fuel with
  | O => None
  | S fuel' =>
      match next g with
      | Done => Some None
      | Yield res rest =>
          if negb (bool_decide (status res = "success")) then
            if bool_decide (status res = "noPath")
               || bool_decide (status res = "timeout")
            then Some None
            else forAwait fuel' rest
          else Some (Some res)
      end
  end.

(** [ThePathfinder.getPathFromToRaw]. *)
Definition getPathFromToRaw (fuel : nat) : option (option Path) :=
  forAwait fuel getPathFromTo.

(** The loop goes on after the [k]-th result: it is partial and the
    calculation was not aborted. *)
Definition goesOn (k : nat) : Prop :=
  continues (status (advance k)) = true /\ abortCalculation k = false.

End GetPath.

End PathSearch.

Module PathSearchExamples.

(** A producer that only ever reports partial results, with the
    calculation aborted right after the first one. *)
Definition alwaysPartial (k : nat) : string := "partial".
Definition abortedAtOnce (k : nat) : bool := true.

(** Two partial results, then success. *)
Definition thirdTimeLucky (k : nat) : string :=
  if (k <? 2)%nat then "partial" else "success".
Definition neverAborted (k : nat) : bool := false.

End PathSearchExamples.

(** ** The movement executor: aborting a move *)

Module Executor.
Import Providers.

Inductive ResetReason : Type :=
| blockUpdate
| chunkLoad
| goalUpdated.

(** What a move execution can throw. *)
Inductive Failure : Type :=
| AbortError (message : string)
| ResetError (reason : ResetReason)
| CancelError (message : string)
| Error (message : string).

(** The flags of a [MovementExecutor] that [abort] sets. *)
Record MovementExecutor : Type := mkExecutor {
  aborted : bool;
  resetReason : option Failure
}.

(** The part of a move that aborting reads: the interactions it
    carries. *)
Record Move : Type := mkMove {
  toBreak : list BreakHandler;
  toPlace : list PlaceHandler
}.

(** The part of [bot.entity] that [safeToCancel] reads. *)
Record Entity : Type := mkEntity {
  onGround : bool;
  isInWater : bool
}.

(** [MovementExecutor.safeToCancel]. *)
Definition safeToCancel (e : Entity) : bool :=
  onGround e || isInWater e.

(** What [holdUntilAborted] does to the outside, in order. *)
Inductive Action : Type :=
| AbortBreak (b : BreakHandler)
| AbortPlace (p : PlaceHandler)
| OffPhysicsTick.

Inductive Outcome : Type :=
| Returns
| Throws (f : Failure).

(** The promise [holdUntilAborted] awaits.  [ticks] holds the entity as
    seen by the listener on each physics tick that comes before the timer
    fires.  The first tick that is safe to cancel resolves the promise;
    with no such tick the timer rejects it. *)
Definition awaitSafeToCancel (ticks : list Entity) : Outcome :=
  if existsb safeToCancel ticks then Returns
  else Throws (Error "Movement failed to abort properly.").

(** [MovementExecutor.holdUntilAborted]: the actions taken and how the call
    ends. *)
Definition holdUntilAborted (this : MovementExecutor) (move : Move)
    (ticks : list Entity) : list Action * Outcome :=
  if negb (aborted this) && negb (bool_decide (is_Some (resetReason this)))
  then ([], Returns)
  else
    let breaks := map AbortBreak (toBreak move) in
    let places := map AbortPlace (toPlace move) in
    match awaitSafeToCancel ticks with
    | Throws f => (breaks ++ places ++ [OffPhysicsTick], Throws f)
    | Returns =>
        (breaks ++ places ++ [OffPhysicsTick],
         match resetReason this with
         | Some reason => Throws reason
         | None =>
             if aborted this then Throws (AbortError "Movement aborted.")
             else Returns
         end)
    end.

End Executor.

Module ExecutorExamples.
Import Providers Executor.

Definition bridging : Move :=
  mkMove [BreakFromVec (mkBlockPos 1 65 0) "solid"]
         [PlaceFromVec (mkBlockPos 1 63 0) "solid"].

Definition airborne : Entity := mkEntity false false.
Definition landed : Entity := mkEntity true false.

Definition userAborted : MovementExecutor := mkExecutor true None.
Definition resetting : MovementExecutor :=
  mkExecutor true (Some (ResetError goalUpdated)).

End ExecutorExamples.

(** ** Path execution and recovery: [perform] and [recovery] *)

Module Execution.
Import Geometry.
Export Executor(ResetReason, blockUpdate, chunkLoad, goalUpdated,
                Failure, AbortError, ResetError, CancelError, Error).

(** A move of a path, with the fields execution reads (the [Move] class is
    not among the sources).  [mid] stands for the identity of the object,
    which is what [indexOf] compares; [moveType] is the provider the
    executor map is keyed by. *)
Record Move : Type := mkMove {
  mid : nat;
  moveType : nat;
  entryPos : Vec3;
  exitPos : Vec3;
  vec : Vec3
}.

Inductive Goal : Type :=
| GoalBlock (v : Vec3)
| GoalOf (caller : nat).

(** [goals.GoalBlock.fromVec]. *)
Definition GoalBlock_fromVec (v : Vec3) : Goal := GoalBlock v.

Record Path : Type := mkPath {
  status : string;
  path : list Move
}.

Definition EMPTY_VEC : Vec3 := mkVec3 0 0 0.

(** The part of the bot that execution reads and writes. *)
Record Bot : Type := mkBot {
  position : Vec3;
  controlStates : list string
}.

(** The fields of [ThePathfinder] that execution reads and writes, with the
    bot and with the abort flags of the executors of [this.movements], by
    provider. *)
Record Pathfinder : Type := mkPathfinder {
  bot : Bot;
  abortCalculation : bool;
  userAborted : bool;
  resetReason : option ResetReason;
  currentGotoGoal : option Goal;
  currentExecutingPath : option (list Move);
  currentMove : option Move;
  currentExecutor : option nat;
  executors : gmap nat Executor.MovementExecutor
}.

(** What [_performPerTick] answers: a boolean or a number of moves. *)
Inductive Adding : Type :=
| AFalse
| ATrue
| ANumber (n : nat).

(** [!(adding as boolean)]. *)
Definition falsy (a : Adding) : bool :=
  match a with
  | AFalse => true
  | ATrue => false
  | ANumber n => Nat.eqb n 0
  end.

(** [adding as number] under [+=]. *)
Definition asNumber (a : Adding) : nat :=
  match a with
  | AFalse => 0
  | ATrue => 1
  | ANumber n => n
  end.

(** The methods of a concrete executor as [perform] calls them, which run
    against the bot and the world: each may change the state, also through
    the event handlers that run while it is awaited, and each may throw,
    also [loadMove] and [isAlreadyCompleted], which [perform] calls outside
    its [try].  [_performInit] and [_performPerTick] are the wrappers that
    hold until aborted before they run the phase. *)
Record ExecutorPhases : Type := mkPhases {
  loadMove : Move -> Pathfinder -> Pathfinder * (Failure + unit);
  isAlreadyCompleted :
    Move -> nat -> Goal -> Pathfinder -> Pathfinder * (Failure + bool);
  align : Move -> nat -> Goal -> Pathfinder -> Pathfinder * (Failure + bool);
  _performInit :
    Move -> nat -> list Move -> Pathfinder -> Pathfinder * (Failure + unit);
  _performPerTick :
    Move -> nat -> nat -> list Move -> Pathfinder
    -> Pathfinder * (Failure + Adding)
}.

(** What execution emits on the bot, and the calls it makes on executors
    and on the path search, in order. *)
Inductive Event : Type :=
| enteredRecovery (entry : nat)
| exitedRecovery (entry : nat)
| CallPerform (moves : list Move) (goal : Goal) (entry : nat)
| CallAlign (move : Move) (tickCount : nat)
| CallPerformInit (move : Move) (currentIndex : nat)
| CallPerformPerTick (move : Move) (tickCount : nat) (currentIndex : nat)
| CallGetPathFromToRaw (startPos : Vec3) (goal : Goal).

Record Config : Type := mkConfig {
  this : Pathfinder;
  log : list Event
}.

Inductive Result (A : Type) : Type :=
| Ok (a : A)
| Throw (f : Failure)
| OutOfFuel.
Arguments Ok {A} _.
Arguments Throw {A} _.
Arguments OutOfFuel {A}.

(** Computations over the configuration that may throw. *)
Definition M (A : Type) : Type := Config -> Config * Result A.

Definition ret {A : Type} (a : A) : M A := fun c => (c, Ok a).

Definition bind {A B : Type} (m : M A) (k : A -> M B) : M B :=
  fun c =>
    match m c with
    | (c1, Ok a) => k a c1
    | (c1, Throw f) => (c1, Throw f)
    | (c1, OutOfFuel) => (c1, OutOfFuel)
    end.

Definition throw {A : Type} (f : Failure) : M A := fun c => (c, Throw f).

Definition outOfFuel {A : Type} : M A := fun c => (c, OutOfFuel).

(** [try { m } catch (err) { handler err }]. *)
Definition tryCatch {A : Type} (m : M A) (handler : Failure -> M A) : M A :=
  fun c =>
    match m c with
    | (c1, Throw f) => handler f c1
    | other => other
    end.

Definition emit (e : Event) : M unit :=
  fun c => (mkConfig (this c) (log c ++ [e]), Ok tt).

Definition modify (f : Pathfinder -> Pathfinder) : M unit :=
  fun c => (mkConfig (f (this c)) (log c), Ok tt).

Definition gets {A : Type} (f : Pathfinder -> A) : M A :=
  fun c => (c, Ok (f (this c))).

(** A call that may throw. *)
Definition call {A : Type} (f : Pathfinder -> Pathfinder * (Failure + A))
  : M A :=
  fun c =>
    match f (this c) with
    | (s, inl err) => (mkConfig s (log c), Throw err)
    | (s, inr a) => (mkConfig s (log c), Ok a)
    end.

Notation "'let*' x ':=' m 'in' k" := (bind m (fun x => k))
  (at level 10, x name, m at level 100, k at level 200).
Notation "m ';;' k" := (bind m (fun _ => k))
  (at level 100, k at level 200, right associativity).

(** What has been logged stays logged. *)
Definition grows {A : Type} (m : M A) : Prop :=
  forall c, exists suffix, log (fst (m c)) = log c ++ suffix.

(** Field updates. *)
Definition withBot (b : Bot) (s : Pathfinder) : Pathfinder :=
  mkPathfinder b (abortCalculation s) (userAborted s) (resetReason s)
    (currentGotoGoal s) (currentExecutingPath s) (currentMove s)
    (currentExecutor s) (executors s).

Definition withExecutors (e : gmap nat Executor.MovementExecutor)
    (s : Pathfinder) : Pathfinder :=
  mkPathfinder (bot s) (abortCalculation s) (userAborted s) (resetReason s)
    (currentGotoGoal s) (currentExecutingPath s) (currentMove s)
    (currentExecutor s) e.

Definition deleteResetReason (s : Pathfinder) : Pathfinder :=
  mkPathfinder (bot s) (abortCalculation s) (userAborted s) None
    (currentGotoGoal s) (currentExecutingPath s) (currentMove s)
    (currentExecutor s) (executors s).

Definition setCurrent (p : list Move) (m : Move) (e : nat) (s : Pathfinder)
  : Pathfinder :=
  mkPathfinder (bot s) (abortCalculation s) (userAborted s) (resetReason s)
    (currentGotoGoal s) (Some p) (Some m) (Some e) (executors s).

(** [bot.clearControlStates]. *)
Definition clearControlStates (s : Pathfinder) : Pathfinder :=
  withBot (mkBot (position (bot s)) []) s.

(** [MovementExecutor.reset] of the executor of one provider. *)
Definition reset (provider : nat) (s : Pathfinder) : Pathfinder :=
  withExecutors (<[provider := Executor.mkExecutor false None]> (executors s))
                s.

(** [ThePathfinder.cleanupClient]. *)
Definition cleanupClient (s : Pathfinder) : Pathfinder :=
  mkPathfinder (bot s) false false None None None None None (executors s).

(** [ThePathfinder.check]. *)
Definition check : M unit :=
  fun c =>
    if userAborted (this c) then (c, Throw (AbortError "User cancelled."))
    else match resetReason (this c) with
         | Some reason => (c, Throw (ResetError reason))
         | None => (c, Ok tt)
         end.

(** Neither an abort by the user nor a reset is flagged: [check] passes. *)
Definition quiet (s : Pathfinder) : Prop :=
  userAborted s = false /\ resetReason s = None.

(** [Array.prototype.indexOf] on moves, which compares identities; -1 when
    absent. *)
Fixpoint indexOf (l : list Move) (m : Move) : Z :=
  match l with
  | [] => (-1)%Z
  | x :: rest =>
      if Nat.eqb (mid x) (mid m) then 0%Z
      else let i := indexOf rest m in
           if (i <? 0)%Z then (-1)%Z else (i + 1)%Z
  end.

(** [Array.prototype.sort] with the comparator
    [a.entryPos.distanceTo(pos) - b.entryPos.distanceTo(pos)].  The sort is
    stable; distances are compared by their squares. *)
Fixpoint insertByDistance (pos : Vec3) (m : Move) (l : list Move)
  : list Move :=
  match l with
  | [] => [m]
  | x :: rest =>
      if Qlt_le_dec (distSq (entryPos x) pos) (distSq (entryPos m) pos)
      then x :: insertByDistance pos m rest
      else m :: x :: rest
  end.

Definition sortByDistance (pos : Vec3) (l : list Move) : list Move :=
  fold_right (insertByDistance pos) [] l.

(** The nearest move: the head of the array once sorted. *)
Definition nearest (pos : Vec3) (moves : list Move) : option Move :=
  head (sortByDistance pos moves).

(** The choice of [nextMove] in [recovery], on the array as [sort] left
    it: whether the search regressed ([bad]) and the move to head for. *)
Definition chooseNextMove (sorted : list Move) (ind : Z)
  : bool * option Move :=
  match head sorted with
  | None => (true, None)
  | Some nextMove =>
      if (indexOf sorted nextMove <? ind)%Z then (true, Some nextMove)
      else if (indexOf sorted nextMove =? ind)%Z
           then (false, nth_error sorted (Z.to_nat (ind + 1)))
           else (false, Some nextMove)
  end.

Definition tooManyFailures : Failure :=
  Error "Too many failures, exiting performing.".

(** The retry ceiling of [perform]. *)
Definition retryCeiling : nat := 10.

(** The control inputs that are engaged. *)
Definition controls (c : Config) : list string :=
  controlStates (bot (this c)).

(** A computation that does not end in the fatal error of [perform]. *)
Definition notFatal {A : Type} (m : M A) : Prop :=
  forall c, snd (m c) <> Throw tooManyFailures.

(** Run from [c], the computation ends in the fatal error of [perform]
    only with no control input engaged. *)
Definition clearsOnFatal {A : Type} (m : M A) (c : Config) : Prop :=
  snd (m c) = Throw tooManyFailures -> controls (fst (m c)) = [].

(** A recovery is entered with its retry counter at or below the
    ceiling. *)
Definition withinCeiling (e : Event) : Prop :=
  match e with
  | enteredRecovery entry => (entry <= retryCeiling)%nat
  | _ => True
  end.

(** A computation that enters no recovery above the ceiling. *)
Definition staysWithinCeiling {A : Type} (m : M A) : Prop :=
  forall c, Forall withinCeiling (log c) ->
            Forall withinCeiling (log (fst (m c))).

(** An executor none of whose methods throws the fatal error of
    [perform]. *)
Definition throwsNoTooManyFailures (executor : ExecutorPhases) : Prop :=
  (forall move t goal s,
     snd (align executor move t goal s) <> inl tooManyFailures)
  /\ (forall move i moves s,
        snd (_performInit executor move i moves s) <> inl tooManyFailures)
  /\ (forall move t i moves s,
        snd (_performPerTick executor move t i moves s)
        <> inl tooManyFailures)
  /\ (forall move s, snd (loadMove executor move s) <> inl tooManyFailures)
  /\ (forall move t goal s,
        snd (isAlreadyCompleted executor move t goal s)
        <> inl tooManyFailures).

Section Perform.

(** [this.movements], which is also what the path's context hands out:
    the executors by provider. *)
Variable movements : list (nat * ExecutorPhases).

(** [getPathFromToRaw] and [postProcess] as seen from execution; both
    are awaited and may throw. *)
Variable getPathFromToRaw :
  Vec3 -> Vec3 -> Goal -> Pathfinder
  -> Pathfinder * (Failure + option Path).
Variable postProcess : Path -> Pathfinder -> Pathfinder * (Failure + Path).

(** [bot.waitForTicks]: what the world and the event handlers do to the
    state meanwhile. *)
Variable waitForTicks : nat -> Pathfinder -> Pathfinder.

(** [movements.get]. *)
Fixpoint getExecutor (l : list (nat * ExecutorPhases)) (provider : nat)
  : option ExecutorPhases :=
  match l with
  | [] => None
  | (k, e) :: rest => if Nat.eqb k provider then Some e
                      else getExecutor rest provider
  end.

(** [ThePathfinder.cleanupBot]: the controls are cleared and every
    executor is reset. *)
Definition cleanedBot (s : Pathfinder) : Pathfinder :=
  fold_left (fun acc entry => reset (fst entry) acc) movements
            (clearControlStates s).

Definition cleanupBot : M unit := modify cleanedBot.

(** [while (!(await executor.align(move, tickCount++, goal)) &&
    tickCount < 999) { this.check(); await this.bot.waitForTicks(1) }].
    [k] bounds the turns and is never used up when it starts at 999. *)
Fixpoint alignLoop (executor : ExecutorPhases) (move : Move) (goal : Goal)
    (k tickCount : nat) : M unit :=
  match k with
  | O => ret tt
  | S k' =>
      emit (CallAlign move tickCount) ;;
      let* aligned := call (align executor move tickCount goal) in
      if negb aligned && (S tickCount <? 999)%nat then
        check ;;
        modify (waitForTicks 1) ;;
        alignLoop executor move goal k' (S tickCount)
      else ret tt
  end.

(** [while (!(adding as boolean) && tickCount < 999) { ... }]. *)
Fixpoint tickLoop (executor : ExecutorPhases) (move : Move)
    (currentIndex : nat) (moves : list Move) (k tickCount : nat)
    (adding : Adding) : M Adding :=
  match k with
  | O => ret adding
  | S k' =>
      if falsy adding && (tickCount <? 999)%nat then
        check ;;
        modify (waitForTicks 1) ;;
        emit (CallPerformPerTick move tickCount currentIndex) ;;
        let* adding :=
          call (_performPerTick executor move tickCount currentIndex moves) in
        tickLoop executor move currentIndex moves k' (S tickCount) adding
      else ret adding
  end.

(** The body of the [try] in [perform]: align, initialize, perform tick by
    tick; the answer is what is added to [currentIndex]. *)
Definition executeMove (executor : ExecutorPhases) (move : Move)
    (goal : Goal) (currentIndex : nat) (moves : list Move) : M nat :=
  alignLoop executor move goal 999 0 ;;
  emit (CallPerformInit move currentIndex) ;;
  call (_performInit executor move currentIndex moves) ;;
  check ;;
  emit (CallPerformPerTick move 0 currentIndex) ;;
  let* adding := call (_performPerTick executor move 0 currentIndex moves) in
  let* adding := tickLoop executor move currentIndex moves 999 1 adding in
  ret (asNumber adding).

(** The [while (currentIndex < path.path.length)] loop of [perform]. *)
Fixpoint performLoop (recovery : Move -> Path -> Goal -> nat -> M unit)
    (fuel : nat) (path0 : Path) (goal : Goal) (entry : nat)
    (currentIndex : nat) : M unit :=
  match fuel with
  | O => outOfFuel
  | S fuel' =>
      match nth_error (path path0) currentIndex with
      | None => ret tt
      | Some move =>
          match getExecutor movements (moveType move) with
          | None => throw (Error "No executor for movement type")
          | Some executor =>
              modify (setCurrent (path path0) move (moveType move)) ;;
              cleanupBot ;;
              call (loadMove executor move) ;;
              let* completed :=
                call (isAlreadyCompleted executor move 0 goal) in
              if completed
              then performLoop recovery fuel' path0 goal entry
                               (S currentIndex)
              else
                let* adding :=
                  tryCatch
                    (let* n := executeMove executor move goal currentIndex
                                           (path path0) in
                     ret (Some n))
                    (fun err =>
                       match err with
                       | AbortError _ =>
                           modify (reset (moveType move)) ;;
                           modify deleteResetReason ;;
                           ret None
                       | ResetError _ =>
                           modify (reset (moveType move)) ;;
                           ret None
                       | CancelError _ =>
                           recovery move path0 goal entry ;;
                           ret None
                       | Error _ => throw err
                       end) in
                match adding with
                | None => ret tt
                | Some n =>
                    performLoop recovery fuel' path0 goal entry
                                (currentIndex + n)
                end
          end
      end
  end.

(** The first three statements of [recovery]: the event, and the bot and
    the client cleaned up. *)
Definition enterRecovery (entry : nat) : M unit :=
  emit (enteredRecovery entry) ;;
  cleanupBot ;;
  modify cleanupClient.

(** The configuration [enterRecovery] leaves. *)
Definition entered (entry : nat) (c : Config) : Config :=
  mkConfig (cleanupClient (cleanedBot (this c)))
           (log c ++ [enteredRecovery entry]).

(** [ThePathfinder.recovery], with [perform] for its calls back. *)
Definition recovery (perform : Path -> Goal -> nat -> M unit)
    (move : Move) (path0 : Path) (goal : Goal) (entry : nat) : M unit :=
  enterRecovery entry ;;
  let ind := indexOf (path path0) move in
  if (ind =? -1)%Z then ret tt
  else
    let* pos := gets (fun s => position (bot s)) in
    let sorted := sortByDistance pos (path path0) in
    let '(bad, nextMove) := chooseNextMove sorted ind in
    let no := (0 <? entry)%nat || bad in
    let newGoal :=
      match nextMove with
      | Some next => if no then goal else GoalBlock_fromVec (vec next)
      | None => goal
      end in
    let* startPos := gets (fun s => position (bot s)) in
    emit (CallGetPathFromToRaw startPos newGoal) ;;
    let* path1 := call (getPathFromToRaw startPos EMPTY_VEC newGoal) in
    match path1 with
    | None => emit (exitedRecovery entry)
    | Some path1 =>
        if no then
          let* path1 := call (postProcess path1) in
          emit (exitedRecovery entry) ;;
          perform path1 goal (entry + 1)%nat
        else
          let* path1 := call (postProcess path1) in
          perform path1 newGoal (entry + 1)%nat ;;
          let spliced :=
            mkPath (status path0) (skipn (Z.to_nat (ind + 1)) sorted) in
          emit (exitedRecovery entry) ;;
          perform spliced goal 0%nat
    end.

(** [ThePathfinder.perform].  [fuel] bounds the turns of the loop and the
    depth of the calls through [recovery]. *)
Fixpoint perform (fuel : nat) (path0 : Path) (goal : Goal) (entry : nat)
  : M unit :=
  match fuel with
  | O => outOfFuel
  | S fuel' =>
      emit (CallPerform (path path0) goal entry) ;;
      if (retryCeiling <? entry)%nat then throw tooManyFailures
      else performLoop (recovery (perform fuel')) fuel' path0 goal entry 0
  end.

(** The routes of recovery in the words of the specification, to compare
    [recovery] with. *)

(** A full replan: search a path to the original goal from where the bot
    is and, when one is found, perform it with the retry counter one
    higher. *)
Definition replanToGoal (perform : Path -> Goal -> nat -> M unit)
    (goal : Goal) (entry : nat) : M unit :=
  let* startPos := gets (fun s => position (bot s)) in
  emit (CallGetPathFromToRaw startPos goal) ;;
  let* found := call (getPathFromToRaw startPos EMPTY_VEC goal) in
  match found with
  | None => emit (exitedRecovery entry)
  | Some path1 =>
      let* path1 := call (postProcess path1) in
      emit (exitedRecovery entry) ;;
      perform path1 goal (entry + 1)%nat
  end.

(** A short replan: search a path to an interim goal and, when one is
    found, perform it with the retry counter one higher, then resume with
    what is left of the original path, toward the original goal, with the
    retry counter back at 0. *)
Definition replanToInterimGoal (perform : Path -> Goal -> nat -> M unit)
    (interim goal : Goal) (entry : nat) (left : Path) : M unit :=
  let* startPos := gets (fun s => position (bot s)) in
  emit (CallGetPathFromToRaw startPos interim) ;;
  let* found := call (getPathFromToRaw startPos EMPTY_VEC interim) in
  match found with
  | None => emit (exitedRecovery entry)
  | Some path1 =>
      let* path1 := call (postProcess path1) in
      perform path1 interim (entry + 1)%nat ;;
      emit (exitedRecovery entry) ;;
      perform left goal 0%nat
  end.

End Perform.

End Execution.

Module ExecutionExamples.
Import Geometry Execution.

(** Moves along the x axis: move [i] starts at (i, 0, 0) and ends at
    (i + 1, 0, 0); all are of provider 0. *)
Definition step (i : nat) : Move :=
  mkMove i 0 (mkVec3 (inject_Z (Z.of_nat i)) 0 0)
         (mkVec3 (inject_Z (Z.of_nat i) + 1) 0 0)
         (mkVec3 (inject_Z (Z.of_nat i) + 1) 0 0).

Definition corridor (n : nat) : Path := mkPath "success" (map step (seq 0 n)).

(** An executor that never gets aligned and finishes its move on the first
    tick. *)
Definition neverAligned : ExecutorPhases :=
  mkPhases (fun _ s => (s, inr tt)) (fun _ _ _ s => (s, inr false))
           (fun _ _ _ s => (s, inr false))
           (fun _ _ _ s => (withBot (mkBot (position (bot s)) ["forward"]) s,
                            inr tt))
           (fun _ _ _ _ s => (s, inr ATrue)).

(** An executor whose alignment finds the bot too low and cancels, after
    it has pressed forward. *)
Definition tooLow : ExecutorPhases :=
  mkPhases (fun _ s => (s, inr tt)) (fun _ _ _ s => (s, inr false))
           (fun _ _ _ s =>
              (withBot (mkBot (position (bot s)) ["forward"]) s,
               inl (CancelError "MovementExecutor: bot is too low.")))
           (fun _ _ _ s => (s, inr tt))
           (fun _ _ _ _ s => (s, inr ATrue)).

(** A path search that finds the bot already at any goal. *)
Definition alreadyThere (startPos startVel : Vec3) (g : Goal)
    (s : Pathfinder) : Pathfinder * (Failure + option Path) :=
  (s, inr (Some (mkPath "success" []))).

(** A path search that always finds the same one-move path. *)
Definition oneStep (startPos startVel : Vec3) (g : Goal)
    (s : Pathfinder) : Pathfinder * (Failure + option Path) :=
  (s, inr (Some (corridor 1))).

Definition keepPath (p : Path) (s : Pathfinder)
  : Pathfinder * (Failure + Path) :=
  (s, inr p).

Definition noWait (n : nat) (s : Pathfinder) : Pathfinder := s.

(** The bot at a position, with [forward] pressed and nothing else set. *)
Definition pathfinderAt (pos : Vec3) : Pathfinder :=
  mkPathfinder (mkBot pos ["forward"]) false false None None None None None
               ∅.

Definition startAt (pos : Vec3) : Config := mkConfig (pathfinderAt pos) [].

Definition origin : Vec3 := mkVec3 0 0 0.

(** The point (i, 0, 0), where move [i] of a corridor starts. *)
Definition along (i : nat) : Vec3 := mkVec3 (inject_Z (Z.of_nat i)) 0 0.

(** Execution with one executor for provider 0, a path search and no
    optimization. *)
Abbreviation performWith executor search :=
  (perform [(0%nat, executor)] search keepPath noWait).

Abbreviation recoveryWith executor search fuel :=
  (recovery [(0%nat, executor)] search keepPath
            (performWith executor search fuel)).

Definition isEnteredRecovery (e : Event) : bool :=
  match e with
  | enteredRecovery _ => true
  | _ => false
  end.

Definition isCallAlign (e : Event) : bool :=
  match e with
  | CallAlign _ _ => true
  | _ => false
  end.

Definition isCallPhase (e : Event) : bool :=
  match e with
  | CallPerformInit _ _ | CallPerformPerTick _ _ _ => true
  | _ => false
  end.

End ExecutionExamples.

(** ** Movement providers: what one expansion yields *)

Module ProviderSteps.
Import Geometry Providers.

(** A cardinal step the forward provider takes: solid footing and a free
    body and head block. *)
Definition walkable (m : Movement) (pos dir : BlockPos) : bool :=
  physical (getBlockInfo m pos (bx dir) (-1) (bz dir))
  && negb (physical (getBlockInfo m pos (bx dir) 1 (bz dir)))
  && negb (physical (getBlockInfo m pos (bx dir) 0 (bz dir))).

(** The candidate [getMoveForward] pushes for a direction. *)
Definition forwardCandidate (start : Move) (dir : BlockPos) : Candidate :=
  fromPrevious 1 (blockCenter (add (toVec start) dir)) start ForwardMove
               [] [].

(** The support blocks a jump up in a direction has to place: the landing
    block when it is not physical, after the block below it when that one
    is not physical either. *)
Definition jumpPlacements (m : Movement) (pos dir : BlockPos)
  : list PlaceHandler :=
  let blockC := getBlockInfo m pos (bx dir) 0 (bz dir) in
  let blockD := getBlockInfo m pos (bx dir) (-1) (bz dir) in
  if physical blockC then []
  else (if physical blockD then []
        else [PlaceFromVec (position blockD) "solid"])
       ++ [PlaceFromVec (position blockC) "solid"].

(** The height the jump lands on: the landing block's, one higher when
    the block is placed first. *)
Definition landingHeight (m : Movement) (pos dir : BlockPos) : Q :=
  let blockC := getBlockInfo m pos (bx dir) 0 (bz dir) in
  if physical blockC then height blockC else height blockC + 1.

End ProviderSteps.

(** ** Vectors of doubles *)

Module Doubles.
Import PrimFloat SpecFloat FloatOps.
Local Open Scope float_scope.

(** [Vec3] with the doubles of the source as they are: every operation
    rounds as IEEE 754 binary64 does. *)
Record Vec3 : Type := mkVec3 { vx : float; vy : float; vz : float }.

Definition minus (a b : Vec3) : Vec3 :=
  mkVec3 (vx a - vx b) (vy a - vy b) (vz a - vz b).

Definition plus (a b : Vec3) : Vec3 :=
  mkVec3 (vx a + vx b) (vy a + vy b) (vz a + vz b).

Definition scaled (a : Vec3) (scalar : float) : Vec3 :=
  mkVec3 (vx a * scalar) (vy a * scalar) (vz a * scalar).

Definition dot (a b : Vec3) : float :=
  vx a * vx b + vy a * vy b + vz a * vz b.

Definition norm (a : Vec3) : float :=
  sqrt (vx a * vx a + vy a * vy a + vz a * vz a).

(** [Math.floor] of a double, as the integer it is.  There is none for a
    [NaN] or an infinity, and the floor of a negative zero prints as that
    of zero. *)
Definition floor (x : float) : option Z :=
  match Prim2SF x with
  | S754_zero _ => Some 0%Z
  | S754_finite s m e =>
      let n := if s then Z.neg m else Z.pos m in
      Some (if (0 <=? e)%Z then Z.shiftl n e else Z.shiftr n (- e))
  | S754_infinity _ | S754_nan => None
  end.

End Doubles.

(** ** Block updates near the path: [isPositionNearPath]

    The answer depends on comparing doubles with 1 and 2, which the last
    place of a rounded quotient decides when a position lies on the edge of
    the box, so this part keeps the doubles of the source. *)

Module NearPath.
Import Providers Doubles PrimFloat.
Local Open Scope float_scope.

(** The fields of a move that [isPositionNearPath] reads. *)
Record Move : Type := mkMove {
  entryPos : Vec3;
  exitPos : Vec3;
  toPlace : list PlaceHandler;
  toBreak : list BreakHandler
}.

Definition placeVec (p : PlaceHandler) : BlockPos :=
  match p with PlaceFromVec v _ => v end.

Definition breakVec (b : BreakHandler) : BlockPos :=
  match b with BreakFromVec v _ => v end.

Definition blockPos_eqb (a b : BlockPos) : bool :=
  ((bx a =? bx b) && (b_y a =? b_y b) && (bz a =? bz b))%Z.

(** [Vec3.floored], as the block position whose string [toString] gives.
    A position with a coordinate that is not finite has the string of no
    block. *)
Definition floored (v : Vec3) : option BlockPos :=
  match floor (vx v), floor (vy v), floor (vz v) with
  | Some x, Some y, Some z => Some (mkBlockPos x y z)
  | _, _, _ => None
  end.

(** The set [all]: the blocks the moves of the path place, then the blocks
    they break.  The source keeps their [toString]s, which are equal
    exactly when the positions are. *)
Definition targets (path : list Move) : list BlockPos :=
  flat_map (fun move => map placeVec (toPlace move)) path
  ++ flat_map (fun move => map breakVec (toBreak move)) path.

Definition has (all : list BlockPos) (b : option BlockPos) : bool :=
  match b with
  | Some b => existsb (blockPos_eqb b) all
  | None => false
  end.

Section Pow.

(** [Math.pow], which [**] calls and which the language leaves to the
    implementation to approximate. *)
Variable pow : float -> float -> float.

(** [ThePathfinder.closestPointOnLineSegment], in doubles. *)
Definition closestPointOnLineSegment (point segmentStart segmentEnd : Vec3)
  : Vec3 :=
  let segmentLength := norm (minus segmentEnd segmentStart) in
  if segmentLength =? 0 then segmentStart
  else
    let t := dot (minus point segmentStart) (minus segmentEnd segmentStart)
             / pow segmentLength 2 in
    if t <? 0 then segmentStart
    else if 1 <? t then segmentEnd
    else plus segmentStart (scaled (minus segmentEnd segmentStart) t).

(** The box test on a comparison point. *)
Definition inBox (comparisonPoint pos : Vec3) : bool :=
  let dx := abs (vx comparisonPoint - vx pos - 0.5) in
  let dy := abs (vy comparisonPoint - vy pos - 0.5) in
  let dz := abs (vz comparisonPoint - vz pos - 0.5) in
  (dx <=? 1) && (dy <=? 2) && (dz <=? 1).

(** The [for] loop of [isPositionNearPath]. *)
Fixpoint nearLoop (all : list BlockPos) (pos : Vec3) (path : list Move)
  : bool :=
  match path with
  | [] => false
  | move :: rest =>
      let comparisonPoint :=
        closestPointOnLineSegment pos (entryPos move) (exitPos move) in
      if inBox comparisonPoint pos && negb (has all (floored pos))
      then true
      else nearLoop all pos rest
  end.

(** [ThePathfinder.isPositionNearPath]. *)
Definition isPositionNearPath (pos : option Vec3) (path : option (list Move))
  : bool :=
  match pos, path with
  | Some pos, Some path => nearLoop (targets path) pos path
  | _, _ => false
  end.

End Pow.

End NearPath.

Module NearPathExamples.
Import Providers Doubles NearPath PrimFloat.
Local Open Scope float_scope.

(** [Math.pow] where it answers the rounded product for the exponent 2. *)
Definition squaring (x y : float) : float := x * x.

(** A move from (0.5, 64, 0.5) to (1.5, 64, 0.5) that bridges: it places
    the block at (1, 63, 0). *)
Definition bridge : Move :=
  mkMove (mkVec3 0.5 64 0.5) (mkVec3 1.5 64 0.5)
         [PlaceFromVec (mkBlockPos 1 63 0) "solid"] [].

(** A point inside the block the bridge places, and one in the block
    above it. *)
Definition inPlaced : Vec3 := mkVec3 1.25 63.25 0.25.
Definition above : Vec3 := mkVec3 1.25 64.25 0.25.

(** A diagonal move from (0.5, 64, 0.5) to (1.5, 64, 1.5), and the corner
    (2, 64, 1) of the block east of where it ends. *)
Definition diagonal : Move :=
  mkMove (mkVec3 0.5 64 0.5) (mkVec3 1.5 64 1.5) [] [].

Definition beside : Vec3 := mkVec3 2 64 1.

End NearPathExamples.

(** ** The scaffolding blocks at hand: [getScaffoldCount] *)

Module Inventory.
Import Providers.

(** An item stack of [bot.inventory.items()]. *)
Record Item : Type := mkItem {
  type : nat;
  count : nat
}.

(** [ThePathfinder.getScaffoldCount].  [scaffoldingBlockItems] is the test
    [BlockInfo.scaffoldingBlockItems.has]. *)
Definition getScaffoldCount (scaffoldingBlockItems : nat -> bool)
    (items : list Item) (gameMode : string) : Count :=
  let amt :=
    fold_left (fun acc item =>
                 if scaffoldingBlockItems (type item)
                 then (count item + acc)%nat else acc)
              items 0%nat in
  if bool_decide (gameMode = "creative")
  then (if (0 <? amt)%nat then Infinity else Finite 0)
  else Finite amt.

(** The blocks of the stacks that are scaffolding, added up. *)
Fixpoint scaffoldTotal (scaffoldingBlockItems : nat -> bool)
    (items : list Item) : nat :=
  match items with
  | [] => 0
  | item :: rest =>
      ((if scaffoldingBlockItems (type item) then count item else 0)
       + scaffoldTotal scaffoldingBlockItems rest)%nat
  end.

End Inventory.

(** ** Interrupting: [cancel], [reset], [interrupt] and the executor's
    [abort] *)

Module Interrupts.
Import Geometry Execution.

(** [MovementExecutor.abort] on the flags of an executor: nothing changes
    when it is already aborted or resetting.  The wait for the task that
    [reset] finishes is left out. *)
Definition abort (reason : option Failure)
    (this : Executor.MovementExecutor) : Executor.MovementExecutor :=
  if Executor.aborted this
     || bool_decide (is_Some (Executor.resetReason this))
  then this
  else Executor.mkExecutor true reason.

(** [MovementExecutor.reset] on the flags of an executor. *)
Definition resetExecutor (this : Executor.MovementExecutor)
  : Executor.MovementExecutor :=
  Executor.mkExecutor false None.

(** The flags of the executor of a provider; an executor that was never
    touched has those its constructor sets. *)
Definition executorOf (provider : nat) (s : Pathfinder)
  : Executor.MovementExecutor :=
  default (Executor.mkExecutor false None) (executors s !! provider).

Definition withAbortCalculation (b : bool) (s : Pathfinder) : Pathfinder :=
  mkPathfinder (bot s) b (userAborted s) (resetReason s)
    (currentGotoGoal s) (currentExecutingPath s) (currentMove s)
    (currentExecutor s) (executors s).

Definition withUserAborted (b : bool) (s : Pathfinder) : Pathfinder :=
  mkPathfinder (bot s) (abortCalculation s) b (resetReason s)
    (currentGotoGoal s) (currentExecutingPath s) (currentMove s)
    (currentExecutor s) (executors s).

Definition withResetReason (r : option ResetReason) (s : Pathfinder)
  : Pathfinder :=
  mkPathfinder (bot s) (abortCalculation s) (userAborted s) r
    (currentGotoGoal s) (currentExecutingPath s) (currentMove s)
    (currentExecutor s) (executors s).

(** [ThePathfinder.interrupt].  [hasProducer] tells whether
    [_currentProducer] is set; the answer holds the error thrown, if
    any. *)
Definition interrupt (hasProducer : bool) (cancelCalculation : bool)
    (reasonStr : option ResetReason) (s : Pathfinder)
  : Pathfinder * option Failure :=
  if negb hasProducer then (s, None)
  else
    let s := withAbortCalculation cancelCalculation s in
    match currentExecutor s with
    | None => (s, None)
    | Some provider =>
        match currentMove s with
        | None =>
            (s, Some (Error
                        "No current move, but there is a current executor."))
        | Some _ =>
            let reason := option_map ResetError reasonStr in
            let s := withResetReason reasonStr s in
            (withExecutors
               (<[provider := abort reason (executorOf provider s)]>
                  (executors s)) s,
             None)
        end
    end.

(** [ThePathfinder.cancel]. *)
Definition cancel (hasProducer : bool) (s : Pathfinder)
  : Pathfinder * option Failure :=
  interrupt hasProducer true None (withUserAborted true s).

(** [ThePathfinder.reset]. *)
Definition resetPath (hasProducer : bool) (reason : ResetReason)
    (s : Pathfinder) : Pathfinder * option Failure :=
  interrupt hasProducer false (Some reason) s.

(** What a wrapped phase does, in order: the actions of holding until
    aborted, then the phase itself. *)
Inductive Step : Type :=
| Hold (a : Executor.Action)
| RunPhase.

(** [_performInit], [_performPerTick] and [_align]: hold until aborted, then
    run the phase, whose outcome is [phase]. *)
Definition wrapped {A : Type} (this : Executor.MovementExecutor)
    (move : Executor.Move) (ticks : list Executor.Entity)
    (phase : Failure + A) : list Step * (Failure + A) :=
  match Executor.holdUntilAborted this move ticks with
  | (actions, Executor.Throws f) => (map Hold actions, inl f)
  | (actions, Executor.Returns) => (map Hold actions ++ [RunPhase], phase)
  end.

End Interrupts.

Module InterruptExamples.
Import Geometry Execution Interrupts.

(** The pathfinder while the first move of a corridor is executed by the
    executor of provider 0, with a block update pending. *)
Definition executing : Pathfinder :=
  mkPathfinder (mkBot ExecutionExamples.origin ["forward"]) false false
    (Some blockUpdate) None
    (Some (path (ExecutionExamples.corridor 3)))
    (Some (ExecutionExamples.step 0)) (Some 0%nat) ∅.

End InterruptExamples.

(** ** What [perform] lets out *)

Module Outcomes.
Import Geometry Execution.

(** A computation that raises nothing but plain errors: neither an abort,
    nor a reset, nor a cancellation gets out of it. *)
Definition raisesOnlyErrors {A : Type} (m : M A) : Prop :=
  forall c f, snd (m c) = Throw f -> exists message, f = Error message.

(** A call that raises nothing but plain errors. *)
Definition raisesOnlyErrorsCall {A : Type}
    (f : Pathfinder -> Pathfinder * (Failure + A)) : Prop :=
  forall s err, snd (f s) = inl err -> exists message, err = Error message.

(** What [perform] and [recovery] call outside the [try] of [perform]
    raises nothing but plain errors: [loadMove] and [isAlreadyCompleted] of
    every executor, the path search and the post-processing. *)
Definition plainOutsideTry (movements : list (nat * ExecutorPhases))
    (getPathFromToRaw :
       Vec3 -> Vec3 -> Goal -> Pathfinder
       -> Pathfinder * (Failure + option Path))
    (postProcess : Path -> Pathfinder -> Pathfinder * (Failure + Path))
  : Prop :=
  (forall provider executor move,
     getExecutor movements provider = Some executor ->
     raisesOnlyErrorsCall (loadMove executor move))
  /\ (forall provider executor move t goal,
        getExecutor movements provider = Some executor ->
        raisesOnlyErrorsCall (isAlreadyCompleted executor move t goal))
  /\ (forall startPos startVel goal,
        raisesOnlyErrorsCall (getPathFromToRaw startPos startVel goal))
  /\ (forall p, raisesOnlyErrorsCall (postProcess p)).

(** A move whose executor is known, loads it and finds it completed
    already, whatever the state. *)
Definition completedAlready (movements : list (nat * ExecutorPhases))
    (goal : Goal) (move : Move) : Prop :=
  exists executor,
    getExecutor movements (moveType move) = Some executor
    /\ (forall s, snd (loadMove executor move s) = inr tt)
    /\ forall s, snd (isAlreadyCompleted executor move 0 goal s) = inr true.

End Outcomes.

Module OutcomeExamples.
Import Geometry Execution.

(** An executor that finds every move completed and whose phases would
    cancel if they were run. *)
Definition alreadyDone : ExecutorPhases :=
  mkPhases (fun _ s => (s, inr tt)) (fun _ _ _ s => (s, inr true))
           (fun _ _ _ s => (s, inl (CancelError "not to be run")))
           (fun _ _ _ s => (s, inl (CancelError "not to be run")))
           (fun _ _ _ _ s => (s, inl (CancelError "not to be run"))).

(** An executor whose check for completion cancels. *)
Definition cancelsEarly : ExecutorPhases :=
  mkPhases (fun _ s => (s, inr tt))
           (fun _ _ _ s => (s, inl (CancelError "not reachable")))
           (fun _ _ _ s => (s, inr true))
           (fun _ _ _ s => (s, inr tt))
           (fun _ _ _ _ s => (s, inr ATrue)).

(** A path search that is cancelled. *)
Definition cancelledSearch (startPos startVel : Vec3) (g : Goal)
    (s : Pathfinder) : Pathfinder * (Failure + option Path) :=
  (s, inl (CancelError "search cancelled")).

End OutcomeExamples.

(** ** The forward and the jump executors, tick by tick *)

Module MoveExecutors.
Import Geometry Execution.

Definition Qlt_bool (a b : Q) : bool := negb (Qle_bool b a).

(** Squared [xzDistanceTo]. *)
Definition xzDistSq (a b : Vec3) : Q :=
  (vx a - vx b) * (vx a - vx b) + (vz a - vz b) * (vz a - vz b).

(** [bot.setControlState]. *)
Definition setControlState (control : string) (state : bool)
    (s : Pathfinder) : Pathfinder :=
  withBot
    (mkBot (position (bot s))
       (if state
        then if bool_decide (control ∈ controlStates (bot s))
             then controlStates (bot s)
             else controlStates (bot s) ++ [control]
        else List.filter (fun c => negb (bool_decide (c = control)))
                         (controlStates (bot s))))
    s.

(** What an executor reads besides the fields of the state: whether the
    entity is on the ground, the food level, and whether an interaction is
    going on that allows no external influence. *)
Record Senses : Type := mkSenses {
  onGround : Pathfinder -> bool;
  food : Pathfinder -> Z;
  blocked : Pathfinder -> bool
}.

Definition Phase : Type :=
  Move -> nat -> Pathfinder -> Pathfinder * (Failure + Adding).

Module ForwardMove.

(** [ForwardMove.performPerTick].  Turning the head is left out.  The
    distance is compared by its square. *)
Definition performPerTick (w : Senses) : Phase :=
  fun thisMove tickCount s =>
    if blocked w s then (clearControlStates s, inr AFalse)
    else if (40 <? tickCount)%nat
    then (s, inl (CancelError "ForwardMove: tickCount > 40"))
    else if negb (onGround w s)
    then (s, inl (CancelError "ForwardMove: not on ground"))
    else if Qlt_bool (distSq (position (bot s)) (exitPos thisMove)) (1 # 25)
    then (s, inr ATrue)
    else
      let s1 := setControlState "forward" true s in
      let s2 := if (food w s1 <=? 6)%Z
                then setControlState "sprint" false s1
                else setControlState "sprint" true s1 in
      (s2, inr AFalse).

End ForwardMove.

Module ForwardJumpMove.

(** [ForwardJumpMove.performPerTick].  Turning the head is left out.  The
    horizontal distance is compared by its square. *)
Definition performPerTick (w : Senses) : Phase :=
  fun thisMove tickCount s =>
    if blocked w s then (clearControlStates s, inr AFalse)
    else if (40 <? tickCount)%nat
    then (s, inl (CancelError "ForwardJumpMove: tickCount > 40"))
    else if Qlt_bool (vy (position (bot s)) - vy (exitPos thisMove))
                     (- (1))
    then (s, inl (CancelError "ForwardJumpMove: too low"))
    else if (0 <? tickCount)%nat && onGround w s
    then
      let s1 := setControlState "jump" false s in
      let s2 := setControlState "sprint" true s1 in
      if Qlt_bool (vy (position (bot s2)) - vy (exitPos thisMove)) 0
      then (s2, inl (CancelError "ForwardJumpMove: too low"))
      else if Qlt_bool (xzDistSq (position (bot s2)) (exitPos thisMove))
                       (9 # 100)
      then (s2, inr ATrue)
      else (s2, inr AFalse)
    else (s, inr AFalse).

End ForwardJumpMove.

(** The per-tick wrapper of an executor either raises, as when the
    executor is aborted or resetting, or runs the phase. *)
Definition runs (executor : ExecutorPhases) (phase : Phase) : Prop :=
  forall move t i moves s,
    (exists f, snd (_performPerTick executor move t i moves s) = inl f)
    \/ _performPerTick executor move t i moves s = phase move t s.

(** A per-tick call is made with a tick count of at most [n]. *)
Definition tickAtMost (n : nat) (e : Event) : Prop :=
  match e with
  | CallPerformPerTick _ t _ => (t <= n)%nat
  | _ => True
  end.

(** A computation that adds to the log only events that satisfy [P]. *)
Definition keeps (P : Event -> Prop) {A : Type} (m : M A) : Prop :=
  forall c, Forall P (log c) -> Forall P (log (fst (m c))).

(** Where the forward move ends: on the ground, less than 0.2 from the
    exit position. *)
Definition arrivedForward (w : Senses) (move : Move) (s : Pathfinder)
  : Prop :=
  onGround w s = true
  /\ distSq (position (bot s)) (exitPos move) < 1 # 25.

(** Where the jump ends: not below the exit position and horizontally less
    than 0.3 from it, with the jump released and sprinting. *)
Definition arrivedJump (move : Move) (s : Pathfinder) : Prop :=
  vy (exitPos move) <= vy (position (bot s))
  /\ xzDistSq (position (bot s)) (exitPos move) < 9 # 100
  /\ ~ In "jump" (controlStates (bot s))
  /\ In "sprint" (controlStates (bot s)).

End MoveExecutors.

Module MoveExecutorExamples.
Import Geometry Execution MoveExecutors.

(** The entity is on the ground, well fed, and no interaction is going
    on. *)
Definition walking : Senses :=
  mkSenses (fun _ => true) (fun _ => 20%Z) (fun _ => false).

(** An executor with the per-tick phase of the forward move, never
    aborted, that needs no alignment. *)
Definition forward : ExecutorPhases :=
  mkPhases (fun _ s => (s, inr tt)) (fun _ _ _ s => (s, inr false))
           (fun _ _ _ s => (s, inr true))
           (fun _ _ _ s => (s, inr tt))
           (fun move t _ _ s => ForwardMove.performPerTick walking move t s).

(** The same with the per-tick phase of the jump. *)
Definition jump : ExecutorPhases :=
  mkPhases (fun _ s => (s, inr tt)) (fun _ _ _ s => (s, inr false))
           (fun _ _ _ s => (s, inr true))
           (fun _ _ _ s => (s, inr tt))
           (fun move t _ _ s =>
              ForwardJumpMove.performPerTick walking move t s).

(** Every tick takes the bot a tenth of a block along the x axis. *)
Definition creep (n : nat) (s : Pathfinder) : Pathfinder :=
  withBot (mkBot (plus (position (bot s)) (mkVec3 (1 # 10) 0 0))
                 (controlStates (bot s))) s.

End MoveExecutorExamples.

(** ** Reading a producer *)

Module ProducerReads.
Import Producers.

Section ContinuousPathProducer.

Context {Move Goal MovementOptions : Type}.

(** [getCurrentPath]. *)
Definition getCurrentPath
    (p : @ContinuousPathProducer Move Goal MovementOptions) : list Move :=
  _currentPath p.

(** [getAstarContext]. *)
Definition getAstarContext
    (p : @ContinuousPathProducer Move Goal MovementOptions) : option nat :=
  astarContext p.

End ContinuousPathProducer.

End ProducerReads.

(** ** Moves that are never done *)

Module Retries.
Import Geometry Execution.

(** A computation that, started with neither an abort nor a reset flagged,
    returns a value that satisfies [P] and leaves none flagged. *)
Definition stays {A : Type} (P : A -> Prop) (m : M A) : Prop :=
  forall c, quiet (this c) ->
            exists c' a, m c = (c', Ok a) /\ quiet (this c') /\ P a.

(** An executor that never finds the move completed: none of its methods
    throws, and the per-tick phase answers false on every tick. *)
Definition neverDone (executor : ExecutorPhases) (move : Move) (goal : Goal)
  : Prop :=
  (forall s, snd (loadMove executor move s) = inr tt)
  /\ (forall s, snd (isAlreadyCompleted executor move 0 goal s) = inr false)
  /\ (forall t s, exists b, snd (align executor move t goal s) = inr b)
  /\ (forall i moves s, snd (_performInit executor move i moves s) = inr tt)
  /\ (forall t i moves s,
        snd (_performPerTick executor move t i moves s) = inr AFalse).

(** Neither the methods of the executor nor what happens during a tick
    flags an abort or a reset. *)
Definition undisturbed (waitForTicks : nat -> Pathfinder -> Pathfinder)
    (executor : ExecutorPhases) (move : Move) (goal : Goal) : Prop :=
  (forall s, quiet s -> quiet (fst (loadMove executor move s)))
  /\ (forall s,
        quiet s -> quiet (fst (isAlreadyCompleted executor move 0 goal s)))
  /\ (forall t s, quiet s -> quiet (fst (align executor move t goal s)))
  /\ (forall i moves s,
        quiet s -> quiet (fst (_performInit executor move i moves s)))
  /\ (forall t i moves s,
        quiet s -> quiet (fst (_performPerTick executor move t i moves s)))
  /\ (forall s, quiet s -> quiet (waitForTicks 1%nat s)).

End Retries.

Module RetryExamples.
Import Geometry Execution MoveExecutors.

(** An interaction that allows no external influence goes on and on. *)
Definition interacting : Senses :=
  mkSenses (fun _ => true) (fun _ => 20%Z) (fun _ => true).

(** The forward executor while that interaction goes on. *)
Definition blockedForward : ExecutorPhases :=
  mkPhases (fun _ s => (s, inr tt)) (fun _ _ _ s => (s, inr false))
           (fun _ _ _ s => (s, inr true))
           (fun _ _ _ s => (s, inr tt))
           (fun move t _ _ s => ForwardMove.performPerTick interacting move t s).

End RetryExamples.

(** ** The next interaction of a move *)

Module Interactions.
Import Providers.

(** Break and place handlers are compared by identity: each is known by its
    address. *)
Inductive Handler : Type :=
| BreakAt (address : nat)
| PlaceAt (address : nat).

#[global] Instance Handler_eq_dec : EqDecision Handler.
Proof. solve_decision. Defined.

Section InteractPossible.

(** [handler.done], the ticks that [handler.performInfo(bot, ticks)]
    answers, and the current interaction [_cI]. *)
Variable done : Handler -> bool.
Variable performInfo : Handler -> nat -> Count.
Variable _cI : option Handler.

(** One of the two [for] loops of [interactPossible]. *)
Fixpoint firstPossible (ticks : nat) (handlers : list Handler)
  : option Handler :=
  match handlers with
  | [] => None
  | handler :: rest =>
      if negb (bool_decide (Some handler = _cI)) && negb (done handler)
      then match performInfo handler ticks with
           | Finite _ => Some handler
           | Infinity => firstPossible ticks rest
           end
      else firstPossible ticks rest
  end.

(** [MovementExecutor.interactPossible] on a move whose handlers to break
    and to place are at the given addresses. *)
Definition interactPossible (toBreak toPlace : list nat) (ticks : nat)
  : option Handler :=
  match firstPossible ticks (map BreakAt toBreak) with
  | Some handler => Some handler
  | None => firstPossible ticks (map PlaceAt toPlace)
  end.

(** A handler that can be performed now: it is not the current one, it is
    not done, and performing it takes finitely many ticks. *)
Definition possible (ticks : nat) (handler : Handler) : Prop :=
  Some handler <> _cI
  /\ done handler = false
  /\ performInfo handler ticks <> Infinity.

End InteractPossible.

End Interactions.

(** ** The listeners of a dynamic goal *)

Module Listeners.

(** A listener is known by its address.  The table of the emitter holds
    the listeners with their events in the order of registration;
    [closures] is the next free address. *)
Definition Entry : Type := (string * nat)%type.

Record Emitter : Type := mkEmitter {
  listeners : list Entry;
  closures : nat
}.

(** [bot.on]. *)
Definition on (key : string) (listener : nat) (e : Emitter) : Emitter :=
  mkEmitter (listeners e ++ [(key, listener)]) (closures e).

(** What [removeListener] does to the table: the instance added last
    goes. *)
Fixpoint removeLast (x : Entry) (table : list Entry) : list Entry :=
  match table with
  | [] => []
  | y :: rest =>
      if bool_decide (x ∈ rest) then y :: removeLast x rest
      else if bool_decide (y = x) then rest
      else y :: rest
  end.

(** [bot.off]. *)
Definition off (key : string) (listener : nat) (e : Emitter) : Emitter :=
  mkEmitter (removeLast (key, listener) (listeners e)) (closures e).

(** [for (const [key, val] of entries) this.bot.off(key, val)]. *)
Definition offAll (entries : list Entry) (e : Emitter) : Emitter :=
  fold_left (fun acc entry => off (fst entry) (snd entry) acc) entries e.

(** The callbacks of [opts], each of which may be missing. *)
Inductive Callback : Type :=
| onHasUpdate
| onInvalid
| onCleanup
| forAll.

Record Opts : Type := mkOpts {
  hasOnHasUpdate : bool;
  hasOnInvalid : bool;
  hasOnCleanup : bool;
  hasForAll : bool
}.

(** [if (callback != null) callback()]. *)
Definition called (given : bool) (callback : Callback) : list Callback :=
  if given then [callback] else [].

(** The arrays [fuckEvent] and [fuckValid]. *)
Record Registration : Type := mkRegistration {
  fuckEvent : list Entry;
  fuckValid : list Entry
}.

(** One of the two [for] loops of [registerAll]: a new listener for each
    key. *)
Fixpoint register (keys : list string) (e : Emitter)
  : list Entry * Emitter :=
  match keys with
  | [] => ([], e)
  | key :: rest =>
      let listener := closures e in
      let e1 := on key listener (mkEmitter (listeners e) (S listener)) in
      let '(entries, e2) := register rest e1 in
      ((key, listener) :: entries, e2)
  end.

(** [ThePathfinder.registerAll], which answers [cleanup]: here the arrays
    that [cleanup] and the two other closures go through. *)
Definition registerAll (_eventKeys _validKeys : list string) (e : Emitter)
  : Registration * Emitter :=
  let '(events, e1) := register _eventKeys e in
  let '(valids, e2) := register _validKeys e1 in
  (mkRegistration events valids, e2).

(** The three closures: the callbacks they call, in order, and the
    emitter they leave.  The callbacks are taken not to touch the
    table. *)
Definition newOnHasUpdate (opts : Opts) (r : Registration) (e : Emitter)
  : list Callback * Emitter :=
  (called (hasOnHasUpdate opts) onHasUpdate ++ called (hasForAll opts) forAll,
   offAll (fuckValid r) (offAll (fuckEvent r) e)).

Definition newOnInvalid (opts : Opts) (r : Registration) (e : Emitter)
  : list Callback * Emitter :=
  (called (hasOnInvalid opts) onInvalid ++ called (hasForAll opts) forAll,
   offAll (fuckEvent r) (offAll (fuckValid r) e)).

Definition cleanup (opts : Opts) (r : Registration) (e : Emitter)
  : list Callback * Emitter :=
  (called (hasOnCleanup opts) onCleanup ++ called (hasForAll opts) forAll,
   offAll (fuckEvent r) (offAll (fuckValid r) e)).

(** A listener for an event key; [changed] is what [goal._hasChanged]
    answers. *)
Definition listener (opts : Opts) (r : Registration)
    (userAborted changed : bool) (e : Emitter) : list Callback * Emitter :=
  if userAborted then cleanup opts r e
  else if changed then newOnHasUpdate opts r e
  else ([], e).

(** A listener for a validity key; [isValid] is what [goal.isValid]
    answers. *)
Definition listener1 (opts : Opts) (r : Registration)
    (userAborted isValid : bool) (e : Emitter) : list Callback * Emitter :=
  if userAborted then cleanup opts r e
  else if isValid then newOnInvalid opts r e
  else ([], e).

(** The emitter after more listeners were registered by others. *)
Definition later (post : list Entry) (e : Emitter) : Emitter :=
  mkEmitter (listeners e ++ post) (closures e).

End Listeners.

Module ListenerExamples.
Import Listeners.

(** An emitter with one listener of its own. *)
Definition busy : Emitter := mkEmitter [("physicsTick", 0%nat)] 1.

Definition allGiven : Opts := mkOpts true true true true.

End ListenerExamples.

(** ** Cleaning up after a goal *)

Module Cleanup.
Import Geometry Execution.

(** What [cleanupAll] does to the outside, in order. *)
Inductive Event : Type :=
| CallGoalCleanup
| CallOnFinish (lastMove : nat)
| Chat
| ClearCache
| goalAborted
| goalFinished
| FinishExecuteTask.

Section CleanupAll.

Variable movements : list (nat * ExecutorPhases).

(** [goal.onFinish(lastMove)], which runs against the bot. *)
Variable onFinish : nat -> Pathfinder -> Pathfinder.

(** [ThePathfinder.cleanupAll].  [dynamic] tells whether the goal is a
    dynamic one, [hasCleanup] whether its [cleanup] is set; [lastMove] is
    the executor handed in, by provider. *)
Definition cleanupAll (dynamic hasCleanup : bool) (lastMove : option nat)
    (s : Pathfinder) : list Event * Pathfinder :=
  let log0 := if dynamic && hasCleanup then [CallGoalCleanup] else [] in
  let s1 := cleanedBot movements s in
  let '(log1, s2) :=
    match lastMove with
    | Some executor =>
        if negb (abortCalculation s1)
        then ([CallOnFinish executor], onFinish executor s1)
        else ([], s1)
    | None => ([], s1)
    end in
  let s3 := cleanedBot movements s2 in
  let log2 :=
    [Chat; ClearCache; if userAborted s3 then goalAborted else goalFinished] in
  let s4 :=
    Interrupts.withUserAborted false
      (Interrupts.withAbortCalculation false s3) in
  (log0 ++ log1 ++ log2 ++ [FinishExecuteTask], cleanupClient s4).

End CleanupAll.

End Cleanup.

(** ** Performing the interactions of a move *)

Module PerformInteractions.
Import Executor Interactions.

Section PerformInit.

(** Whether [place.getItem(bot)] finds an item and whether
    [breakTarget.getBlock(world)] finds a block; a handler that is
    performed is taken to succeed. *)
Variable hasItem : nat -> bool.
Variable hasBlock : nat -> bool.

(** The current interaction [_cI] of the executor, and the handlers
    performed so far, in order. *)
Record Hands : Type := mkHands {
  _cI : option Handler;
  performed : list Handler
}.

(** [performInteraction] with [performPlace] and [performBreak]. *)
Definition performInteraction (interaction : Handler) (st : Hands)
  : Hands * option Failure :=
  let st1 := mkHands (Some interaction) (performed st) in
  match interaction with
  | PlaceAt place =>
      if hasItem place
      then (mkHands None (performed st1 ++ [interaction]), None)
      else (st1, Some (CancelError "MovementExecutor: no item to place"))
  | BreakAt breakTarget =>
      if hasBlock breakTarget
      then (mkHands None (performed st1 ++ [interaction]), None)
      else (st1, Some (CancelError "MovementExecutor: no block to break"))
  end.

(** [for (const handler of handlers) await this.performInteraction(handler)]. *)
Fixpoint performEach (handlers : list Handler) (st : Hands)
  : Hands * option Failure :=
  match handlers with
  | [] => (st, None)
  | handler :: rest =>
      match performInteraction handler st with
      | (st1, None) => performEach rest st1
      | (st1, Some f) => (st1, Some f)
      end
  end.

(** The interactions of [ForwardMove.performInit] and of
    [ForwardJumpMove.performInit]: the blocks to place, then the blocks to
    break. *)
Definition performInit (toPlace toBreak : list nat) (st : Hands)
  : Hands * option Failure :=
  match performEach (map PlaceAt toPlace) st with
  | (st1, None) => performEach (map BreakAt toBreak) st1
  | (st1, Some f) => (st1, Some f)
  end.

(** A handler that finds what it needs. *)
Definition able (handler : Handler) : bool :=
  match handler with
  | PlaceAt place => hasItem place
  | BreakAt breakTarget => hasBlock breakTarget
  end.

End PerformInit.

End PerformInteractions.

(** * Properties *)

(** ** The closest point of a segment *)

Module GeometryFacts.
Import Geometry.

Lemma checkedDiv_nonzero (a b : Q) :
  ~ b == 0 -> checkedDiv a b = Some (a / b).
Proof.
  intros Hb; unfold checkedDiv.
  destruct (Qeq_bool b 0) eqn:E; [|reflexivity].
  apply Qeq_bool_iff in E; contradiction.
Qed.

Lemma onSegment_start (a b : Vec3) : onSegment a b a.
Proof.
  exists 0; repeat split; try lra;
    destruct a, b; unfold plus, scaled, minus; simpl; ring.
Qed.

Lemma onSegment_end (a b : Vec3) : onSegment a b b.
Proof.
  exists 1; repeat split; try lra;
    destruct a, b; unfold plus, scaled, minus; simpl; ring.
Qed.

(** C9.  [closestPointOnLineSegment] is total, never divides by a zero
    squared length, and returns a point of the closed segment: the start
    point for a segment of zero length or a projection parameter below 0,
    the end point for a parameter above 1, and the interpolated point
    otherwise. *)
Theorem closestPointOnLineSegment_total_on_segment :
  forall point segmentStart segmentEnd : Vec3,
  exists r : Vec3,
    closestPointOnLineSegment point segmentStart segmentEnd = Some r
    /\ onSegment segmentStart segmentEnd r
    /\ (normSq (minus segmentEnd segmentStart) == 0 -> r = segmentStart)
    /\ (~ normSq (minus segmentEnd segmentStart) == 0 ->
        let t := projection point segmentStart segmentEnd in
        (t < 0 -> r = segmentStart)
        /\ (1 < t -> r = segmentEnd)
        /\ (0 <= t <= 1 ->
            r = plus segmentStart
                     (scaled (minus segmentEnd segmentStart) t))).
Proof.
  intros p s e. unfold closestPointOnLineSegment.
  destruct (Qeq_bool (normSq (minus e s)) 0) eqn:Hz.
  - apply Qeq_bool_iff in Hz. exists s. split; [reflexivity|].
    split; [apply onSegment_start|]. split; [reflexivity|].
    intros Hn; contradiction.
  - assert (Hnz : ~ normSq (minus e s) == 0).
    { intros H. apply Qeq_bool_iff in H. congruence. }
    rewrite (checkedDiv_nonzero _ _ Hnz).
    fold (projection p s e). set (t := projection p s e).
    destruct (Qlt_le_dec t 0) as [Hlt|Hge].
    + exists s. split; [reflexivity|]. split; [apply onSegment_start|].
      split; [reflexivity|]. intros _. cbv zeta.
      split; [reflexivity|]. split; intros; lra.
    + destruct (Qlt_le_dec 1 t) as [Hgt|Hle].
      * exists e. split; [reflexivity|]. split; [apply onSegment_end|].
        split; [intros; contradiction|]. intros _. cbv zeta.
        split; [intros; lra|]. split; [reflexivity|intros; lra].
      * exists (plus s (scaled (minus e s) t)).
        split; [reflexivity|].
        split; [exists t; repeat split; try assumption; reflexivity|].
        split; [intros; contradiction|]. intros _. cbv zeta.
        split; [intros; lra|]. split; [intros; lra|reflexivity].
Qed.

(** *** The closest point is closest *)

Lemma Qsquare_nonneg (x : Q) : 0 <= x * x.
Proof.
  destruct (Qlt_le_dec x 0) as [Hneg|Hpos].
  - assert (E : x * x == (- x) * (- x)) by ring.
    rewrite E. apply Qmult_le_0_compat; lra.
  - apply Qmult_le_0_compat; assumption.
Qed.

Lemma normSq_nonneg (a : Vec3) : 0 <= normSq a.
Proof.
  unfold normSq, dot.
  pose proof (Qsquare_nonneg (vx a)). pose proof (Qsquare_nonneg (vy a)).
  pose proof (Qsquare_nonneg (vz a)). lra.
Qed.

Lemma Qsquare_zero (x : Q) : x * x == 0 -> x == 0.
Proof.
  intros H. destruct (Qeq_dec x 0) as [Hz|Hnz]; [exact Hz|].
  exfalso. apply Hnz.
  assert (E : x == x * x / x) by (field; exact Hnz).
  rewrite E, H. field. exact Hnz.
Qed.

Lemma normSq_zero (a : Vec3) :
  normSq a == 0 -> vx a == 0 /\ vy a == 0 /\ vz a == 0.
Proof.
  unfold normSq, dot. intros H.
  pose proof (Qsquare_nonneg (vx a)). pose proof (Qsquare_nonneg (vy a)).
  pose proof (Qsquare_nonneg (vz a)).
  repeat split; apply Qsquare_zero; lra.
Qed.

(** The squared distance from [p] to the point of the line through [s] and
    [e] with parameter [u]. *)
Lemma distSq_on_line (p s e q : Vec3) (u : Q) :
  veq q (plus s (scaled (minus e s) u)) ->
  distSq p q
  == normSq (minus p s)
     - 2 * u * dot (minus p s) (minus e s)
     + u * u * normSq (minus e s).
Proof.
  intros (Hx & Hy & Hz). destruct p, s, e, q.
  unfold distSq, normSq, dot, minus, plus, scaled in *. simpl in *.
  rewrite Hx, Hy, Hz. ring.
Qed.

Lemma veq_refl (a : Vec3) : veq a a.
Proof. repeat split; reflexivity. Qed.

Lemma veq_start (s e : Vec3) : veq s (plus s (scaled (minus e s) 0)).
Proof.
  destruct s, e; unfold veq, plus, scaled, minus; simpl.
  repeat split; ring.
Qed.

Lemma veq_end (s e : Vec3) : veq e (plus s (scaled (minus e s) 1)).
Proof.
  destruct s, e; unfold veq, plus, scaled, minus; simpl.
  repeat split; ring.
Qed.

(** X24.  The point that [closestPointOnLineSegment] answers is the closest
    point of the segment: no point of the closed segment is nearer to the
    given point. *)
Theorem closestPointOnLineSegment_is_closest
    (point segmentStart segmentEnd r q : Vec3) :
  closestPointOnLineSegment point segmentStart segmentEnd = Some r ->
  onSegment segmentStart segmentEnd q ->
  distSq point r <= distSq point q.
Proof.
  intros Hrun (u & Hu0 & Hu1 & Hq).
  rewrite (distSq_on_line point segmentStart segmentEnd q u Hq).
  set (W := normSq (minus point segmentStart)).
  set (A := dot (minus point segmentStart) (minus segmentEnd segmentStart)).
  set (L := normSq (minus segmentEnd segmentStart)).
  pose proof (normSq_nonneg (minus segmentEnd segmentStart)) as HL.
  fold L in HL.
  assert (Hat : forall c,
             veq r (plus segmentStart
                         (scaled (minus segmentEnd segmentStart) c)) ->
             distSq point r == W - 2 * c * A + c * c * L).
  { intros c Hc. apply distSq_on_line. exact Hc. }
  unfold closestPointOnLineSegment in Hrun. fold L in Hrun.
  destruct (Qeq_bool L 0) eqn:Hz.
  - apply Qeq_bool_iff in Hz. injection Hrun as <-.
    rewrite (Hat 0 (veq_start _ _)).
    assert (HA : A == 0).
    { subst A L. apply normSq_zero in Hz as (Hx & Hy & Hz).
      unfold dot. rewrite Hx, Hy, Hz. ring. }
    rewrite HA, Hz. lra.
  - assert (Hnz : ~ L == 0).
    { intros H. apply Qeq_bool_iff in H. congruence. }
    assert (HLpos : 0 < L) by lra.
    rewrite (checkedDiv_nonzero _ _ Hnz) in Hrun. fold A in Hrun.
    assert (HtL : A / L * L == A) by (field; exact Hnz).
    destruct (Qlt_le_dec (A / L) 0) as [Hlt|Hge].
    + injection Hrun as <-. rewrite (Hat 0 (veq_start _ _)).
      assert (HA : A < 0).
      { rewrite <- HtL. assert (E : 0 == 0 * L) by ring.
        rewrite E. apply Qmult_lt_compat_r; assumption. }
      assert (H1 : 0 <= u * (u * L)).
      { apply Qmult_le_0_compat; [exact Hu0|].
        apply Qmult_le_0_compat; [exact Hu0|exact HL]. }
      assert (H2 : 0 <= u * (- A)).
      { apply Qmult_le_0_compat; [exact Hu0|lra]. }
      lra.
    + destruct (Qlt_le_dec 1 (A / L)) as [Hgt|Hle].
      * injection Hrun as <-. rewrite (Hat 1 (veq_end _ _)).
        assert (HA : L < A).
        { rewrite <- HtL. assert (E : L == 1 * L) by ring.
          rewrite E at 1. apply Qmult_lt_compat_r; assumption. }
        assert (H1 : 0 <= (1 - u) * (A - L)).
        { apply Qmult_le_0_compat; lra. }
        assert (H2 : 0 <= (1 - u) * ((1 - u) * L)).
        { apply Qmult_le_0_compat; [lra|].
          apply Qmult_le_0_compat; [lra|exact HL]. }
        assert (H3 : 0 <= (1 - u) * (2 * (A - L)) + (1 - u) * ((1 - u) * L))
          by lra.
        assert (E : W - 2 * u * A + u * u * L
                    == W - 2 * 1 * A + 1 * 1 * L
                       + ((1 - u) * (2 * (A - L))
                          + (1 - u) * ((1 - u) * L))) by ring.
        rewrite E. lra.
      * injection Hrun as <-. rewrite (Hat (A / L) (veq_refl _)).
        pose proof (Qsquare_nonneg (u - A / L)) as Hsq.
        assert (H1 : 0 <= (u - A / L) * (u - A / L) * L).
        { apply Qmult_le_0_compat; [exact Hsq|exact HL]. }
        assert (E : W - 2 * u * A + u * u * L
                    == W - 2 * (A / L) * A + A / L * (A / L) * L
                       + (u - A / L) * (u - A / L) * L)
          by (field; exact Hnz).
        rewrite E. lra.
Qed.

(** The point (1, 2, 0) over the segment from the origin to (4, 0, 0): the
    closest point is (1, 0, 0), which is nearer than the midpoint. *)
Lemma closestPointOnLineSegment_is_closest_witness :
  closestPointOnLineSegment (mkVec3 1 2 0) (mkVec3 0 0 0) (mkVec3 4 0 0)
  = Some (plus (mkVec3 0 0 0)
               (scaled (minus (mkVec3 4 0 0) (mkVec3 0 0 0)) (4 / 16)))
  /\ onSegment (mkVec3 0 0 0) (mkVec3 4 0 0) (mkVec3 2 0 0)
  /\ distSq (mkVec3 1 2 0)
            (plus (mkVec3 0 0 0)
                  (scaled (minus (mkVec3 4 0 0) (mkVec3 0 0 0)) (4 / 16)))
     <= distSq (mkVec3 1 2 0) (mkVec3 2 0 0).
Proof.
  assert (H1 : closestPointOnLineSegment (mkVec3 1 2 0) (mkVec3 0 0 0)
                 (mkVec3 4 0 0)
               = Some (plus (mkVec3 0 0 0)
                            (scaled (minus (mkVec3 4 0 0) (mkVec3 0 0 0))
                                    (4 / 16))))
    by (vm_compute; reflexivity).
  assert (H2 : onSegment (mkVec3 0 0 0) (mkVec3 4 0 0) (mkVec3 2 0 0)).
  { exists (1 # 2). split; [lra|]. split; [lra|].
    unfold veq, plus, scaled, minus; simpl. repeat split; ring. }
  split; [exact H1|]. split; [exact H2|].
  exact (closestPointOnLineSegment_is_closest _ _ _ _ _ H1 H2).
Defined.

End GeometryFacts.

(** ** The forward step and the jump up *)

Module ProvidersFacts.
Import Geometry Providers.

Lemma cardinal_horizontal (dir : BlockPos) :
  In dir cardinalDirs -> b_y dir = 0%Z.
Proof.
  unfold cardinalDirs; simpl.
  intros [H|[H|[H|[H|[]]]]]; subst dir; reflexivity.
Qed.

Lemma getBlockInfo_destination (m : Movement) (pos dir : BlockPos) (dy : Z) :
  b_y dir = 0%Z ->
  getBlockInfo m pos (bx dir) dy (bz dir)
  = world m (offsetZ (add pos dir) 0 dy 0).
Proof.
  intros Hy. unfold getBlockInfo, offsetZ, add; simpl.
  f_equal. f_equal; lia.
Qed.

Lemma app_one_inv {A : Type} (l : list A) (x y : A) :
  l ++ [x] = l ++ [y] -> x = y.
Proof. intros H. apply app_inv_head in H. congruence. Qed.

Lemma app_one_neq {A : Type} (l : list A) (x : A) : l ++ [x] <> l.
Proof.
  intros H. apply (f_equal (@length A)) in H.
  rewrite length_app in H; simpl in H; lia.
Qed.

(** C7.  In a cardinal direction the forward step emits a candidate exactly
    when the block below the destination is physical and neither the block
    of the destination nor the one above it is; the candidate costs 1 and
    leaves at the centre of the destination block, which is a half past the
    sum of the block position of the node and the direction in each
    coordinate.  Otherwise the list of neighbours is unchanged. *)
Theorem getMoveForward_emits_iff_footing_and_headroom
    (m : Movement) (start : Move) (dir : BlockPos)
    (neighbors : list Candidate) :
  In dir cardinalDirs ->
  let dest := add (toVec start) dir in
  let footing := physical (world m (offsetZ dest 0 (-1) 0)) in
  let body := physical (world m (offsetZ dest 0 0 0)) in
  let head := physical (world m (offsetZ dest 0 1 0)) in
  ((exists c, getMoveForward m start dir neighbors = neighbors ++ [c])
   <-> footing = true /\ body = false /\ head = false)
  /\ (forall c, getMoveForward m start dir neighbors = neighbors ++ [c] ->
        c_cost c = 1
        /\ c_exitPos c
           = mkVec3 (inject_Z (bx (toVec start) + bx dir) + (1 # 2))
                    (inject_Z (b_y (toVec start) + b_y dir) + (1 # 2))
                    (inject_Z (bz (toVec start) + bz dir) + (1 # 2))
        /\ c_prev c = start /\ c_moveType c = ForwardMove
        /\ c_toPlace c = [] /\ c_toBreak c = [])
  /\ (getMoveForward m start dir neighbors = neighbors
      \/ exists c, getMoveForward m start dir neighbors = neighbors ++ [c]).
Proof.
  intros Hdir dest footing body head.
  pose proof (cardinal_horizontal dir Hdir) as Hy.
  unfold getMoveForward.
  rewrite !(getBlockInfo_destination m (toVec start) dir _ Hy).
  fold dest. fold footing. fold body. fold head.
  destruct footing eqn:Ef; simpl.
  2:{ split; [split|split].
      - intros [c Hc]. symmetry in Hc. destruct (app_one_neq _ _ Hc).
      - intros (H & _); discriminate.
      - intros c Hc. symmetry in Hc. destruct (app_one_neq _ _ Hc).
      - left; reflexivity. }
  destruct (head || body) eqn:Ehb.
  - split; [split|split].
    + intros [c Hc]. symmetry in Hc. destruct (app_one_neq _ _ Hc).
    + intros (_ & Hb & Hh). rewrite Hb, Hh in Ehb. discriminate.
    + intros c Hc. symmetry in Hc. destruct (app_one_neq _ _ Hc).
    + left; reflexivity.
  - apply orb_false_elim in Ehb as [Hh Hb].
    split; [split|split].
    + intros _. auto.
    + intros _. eexists; reflexivity.
    + intros c Hc. apply app_one_inv in Hc. subst c. simpl.
      repeat split; reflexivity.
    + right. eexists; reflexivity.
Qed.

(** The forward step from (0, 64, 0) to the east over flat ground leaves
    at (1.5, 64.5, 0.5). *)
Lemma getMoveForward_flat_witness :
  In ProviderExamples.east cardinalDirs
  /\ getMoveForward ProviderExamples.flatMovement
       (ProviderExamples.standing (Finite 0)) ProviderExamples.east []
     = [fromPrevious 1 (mkVec3 (3 # 2) (129 # 2) (1 # 2))
          (ProviderExamples.standing (Finite 0)) ForwardMove [] []].
Proof.
  assert (Hd : In ProviderExamples.east cardinalDirs)
    by (simpl; auto).
  split; [exact Hd|].
  destruct (getMoveForward_emits_iff_footing_and_headroom
              ProviderExamples.flatMovement
              (ProviderExamples.standing (Finite 0))
              ProviderExamples.east [] Hd) as (Hiff & Hc & _).
  destruct (proj2 Hiff) as [c Hout].
  - repeat split; reflexivity.
  - rewrite Hout. destruct (Hc c Hout) as (H1 & H2 & H3 & H4 & H5 & H6).
    destruct c; simpl in *; subst.
    reflexivity.
Defined.

Lemma jumpUpCosts_bounded (m : Movement) (node : Move)
    (blockA blockH blockB : BlockInfo) (cost : Q)
    (toPlace : list PlaceHandler) (toBreak : list BreakHandler)
    (neighbors : list Candidate) :
  jumpUpCosts m node blockA blockH blockB cost toPlace toBreak neighbors
  = neighbors
  \/ exists c,
       jumpUpCosts m node blockA blockH blockB cost toPlace toBreak neighbors
       = neighbors ++ [c]
       /\ c_cost c <= 100 /\ c_toPlace c = toPlace.
Proof.
  unfold jumpUpCosts.
  destruct (safeOrBreak m blockA toBreak) as [cA tb1].
  destruct (Qlt_le_dec 100 (cost + cA)); [left; reflexivity|].
  destruct (safeOrBreak m blockH tb1) as [cH tb2].
  destruct (Qlt_le_dec 100 (cost + cA + cH)); [left; reflexivity|].
  destruct (safeOrBreak m blockB tb2) as [cB tb3].
  destruct (Qlt_le_dec 100 (cost + cA + cH + cB)) as [|Hle];
    [left; reflexivity|].
  right. eexists. split; [reflexivity|]. simpl. split; [exact Hle|reflexivity].
Qed.

Lemma jumpUpTail_bounded (m : Movement) (node : Move)
    (blockA blockH blockB : BlockInfo) (cHeight : Q)
    (toPlace : list PlaceHandler) (toBreak : list BreakHandler)
    (neighbors : list Candidate) :
  jumpUpTail m node blockA blockH blockB cHeight toPlace toBreak neighbors
  = neighbors
  \/ exists c,
       jumpUpTail m node blockA blockH blockB cHeight toPlace toBreak
                  neighbors
       = neighbors ++ [c]
       /\ c_cost c <= 100 /\ c_toPlace c = toPlace.
Proof.
  unfold jumpUpTail.
  destruct (Qlt_le_dec _ _); [left; reflexivity|].
  apply jumpUpCosts_bounded.
Qed.

Lemma count_is_false_0 (c : Count) :
  count_is c 0 = false -> count_covers c 1.
Proof.
  destruct c as [n|]; simpl; [|trivial].
  intros H. apply Nat.eqb_neq in H. lia.
Qed.

Lemma count_is_false_0_1 (c : Count) :
  count_is c 0 = false -> count_is c 1 = false -> count_covers c 2.
Proof.
  destruct c as [n|]; simpl; [|trivial].
  intros H0 H1. apply Nat.eqb_neq in H0. apply Nat.eqb_neq in H1. lia.
Qed.

(** C6.  The jump up emits nothing when the landing block is not physical
    and no placeable block remains, nothing when neither the landing block
    nor the one below it is physical and at most one placeable block
    remains, and never a candidate that costs more than 100: it either
    leaves the neighbours unchanged or appends one candidate of cost at most
    100 whose placements the remaining blocks cover. *)
Theorem getMoveJumpUp_omits_infeasible
    (m : Movement) (node : Move) (dir : BlockPos)
    (neighbors : list Candidate) :
  let pos := toVec node in
  let blockC := getBlockInfo m pos (bx dir) 0 (bz dir) in
  let blockD := getBlockInfo m pos (bx dir) (-1) (bz dir) in
  let out := getMoveJumpUp m node dir neighbors in
  (physical blockC = false -> remainingBlocks node = Finite 0 ->
   out = neighbors)
  /\ (physical blockC = false -> physical blockD = false ->
      (exists n, remainingBlocks node = Finite n /\ (n <= 1)%nat) ->
      out = neighbors)
  /\ (out = neighbors
      \/ exists c, out = neighbors ++ [c]
                   /\ c_cost c <= 100
                   /\ count_covers (remainingBlocks node)
                                   (length (c_toPlace c))).
Proof.
  intros pos blockC blockD out. subst out. unfold getMoveJumpUp.
  fold pos. fold blockC. fold blockD.
  split; [|split].
  - intros HC Hrem. rewrite HC, Hrem. reflexivity.
  - intros HC HD (n & Hrem & Hn). rewrite HC, HD, Hrem. simpl.
    destruct n as [|[|n]]; simpl; try reflexivity. lia.
  - destruct (physical blockC) eqn:HC; simpl.
    + destruct (jumpUpTail_bounded m node
                  (getBlockInfo m pos 0 2 0)
                  (getBlockInfo m pos (bx dir) 2 (bz dir))
                  (getBlockInfo m pos (bx dir) 1 (bz dir))
                  (height blockC) [] [] neighbors)
        as [H|(c & H & Hc & Hp)].
      * left; exact H.
      * right. exists c. split; [exact H|]. split; [exact Hc|].
        rewrite Hp. simpl.
        destruct (remainingBlocks node); simpl; [lia|trivial].
    + destruct (count_is (remainingBlocks node) 0) eqn:H0;
        [left; reflexivity|].
      destruct (physical blockD) eqn:HD; simpl.
      * destruct (negb (replaceable blockC) && negb (safeToBreak m blockC));
          [left; reflexivity|].
        match goal with
        | |- context [jumpUpTail ?a ?b ?c ?d ?e ?f ?g ?h ?i] =>
            destruct (jumpUpTail_bounded a b c d e f g h i)
              as [H|(c0 & H & Hc & Hp)]
        end.
        -- left; exact H.
        -- right. exists c0. split; [exact H|]. split; [exact Hc|].
           rewrite Hp. simpl. apply count_is_false_0; exact H0.
      * destruct (count_is (remainingBlocks node) 1) eqn:H1;
          [left; reflexivity|].
        destruct (negb (replaceable blockD) && negb (safeToBreak m blockD));
          [left; reflexivity|].
        destruct (negb (replaceable blockC) && negb (safeToBreak m blockC));
          [left; reflexivity|].
        match goal with
        | |- context [jumpUpTail ?a ?b ?c ?d ?e ?f ?g ?h ?i] =>
            destruct (jumpUpTail_bounded a b c d e f g h i)
              as [H|(c0 & H & Hc & Hp)]
        end.
        -- left; exact H.
        -- right. exists c0. split; [exact H|]. split; [exact Hc|].
           rewrite Hp. simpl. apply count_is_false_0_1; assumption.
Qed.

(** Over the hole at (1, 63, 0) the jump up needs two placements: with one
    block left nothing is emitted. *)
Lemma getMoveJumpUp_hole_witness :
  physical (getBlockInfo ProviderExamples.holeMovement
              (toVec (ProviderExamples.standing (Finite 1))) 1 0 0) = false
  /\ physical (getBlockInfo ProviderExamples.holeMovement
                 (toVec (ProviderExamples.standing (Finite 1))) 1 (-1) 0)
     = false
  /\ getMoveJumpUp ProviderExamples.holeMovement
       (ProviderExamples.standing (Finite 1)) ProviderExamples.east [] = [].
Proof.
  split; [reflexivity|]. split; [reflexivity|].
  apply (proj1 (proj2 (getMoveJumpUp_omits_infeasible
                         ProviderExamples.holeMovement
                         (ProviderExamples.standing (Finite 1))
                         ProviderExamples.east []))).
  - reflexivity.
  - reflexivity.
  - exists 1%nat. split; [reflexivity|lia].
Defined.

(** With two blocks left both supports are placed and the jump is emitted. *)
Example getMoveJumpUp_hole_two_blocks :
  getMoveJumpUp ProviderExamples.holeMovement
    (ProviderExamples.standing (Finite 2)) ProviderExamples.east []
  = [fromPrevious (2 + 0 + 0 + 0) (blockCenter (mkBlockPos 1 65 0))
       (ProviderExamples.standing (Finite 2)) ForwardJumpMove
       [PlaceFromVec (mkBlockPos 1 63 0) "solid";
        PlaceFromVec (mkBlockPos 1 64 0) "solid"] []].
Proof. reflexivity. Qed.

End ProvidersFacts.

(** ** The continuous path producer *)

Module ProducersFacts.
Import Producers.

Section ContinuousPathProducer.

Context {Move Goal MovementOptions MovementHandler Path AStar : Type}.
Variable createHandler : MovementOptions -> Goal -> MovementHandler.
Variable newAStar :
  Move -> MovementHandler -> Goal -> Z -> Z -> Z -> Z -> AStar.
Variable compute : AStar -> Path * AStar.
Variable path : Path -> list Move.
Variable gcAvailable : bool.

Local Abbreviation advances :=
  (advances createHandler newAStar compute path gcAvailable).
Local Abbreviation advance :=
  (advance createHandler newAStar compute path gcAvailable).
Local Abbreviation slices := (slices compute).
Local Abbreviation Producer :=
  (@ContinuousPathProducer Move Goal MovementOptions).

(** Once a producer refers to a live instance, every further [advance]
    computes on that instance and creates none. *)
Lemma advances_steady (n : nat) :
  forall (p : Producer) (h : Store AStar) (ctx : nat) (a : AStar),
    astarContext p = Some ctx ->
    instances h !! ctx = Some a ->
    exists rs p' h',
      advances n p h = Some (rs, p', h')
      /\ created h' = created h
      /\ astarContext p' = astarContext p
      /\ Forall (fun r => res_astarContext r = ctx) rs
      /\ map result rs = fst (slices n a)
      /\ instances h' !! ctx = Some (snd (slices n a))
      /\ (forall i, i <> ctx -> instances h' !! i = instances h !! i).
Proof.
  induction n as [|n IH]; intros p h ctx a Hp Ha.
  - exists [], p, h. simpl. repeat split; auto.
  - simpl. unfold Producers.advance. rewrite Hp, Ha.
    destruct (compute a) as [res a1] eqn:Hc.
    set (p1 := mkProducer _ _ _ _ _ _).
    set (h1 := mkStore _ _).
    destruct (IH p1 h1 ctx a1) as (rs & p' & h' & Hrun & Hcr & Hctx & Hall
                                   & Hres & Hinst & Hother).
    { reflexivity. }
    { subst h1; simpl. apply lookup_insert_eq. }
    rewrite Hrun. exists (mkAdvanceRes res ctx :: rs), p', h'.
    destruct (slices n a1) as [rs' a2] eqn:Hs. simpl in *.
    repeat split; auto.
    + f_equal; exact Hres.
    + intros i Hi. rewrite (Hother i Hi). subst h1; simpl.
      apply lookup_insert_ne; congruence.
Qed.

(** C5.  Over any number of calls of [advance] a continuous producer
    creates exactly one search engine: the first call stores it at a fresh
    address, every call computes on the instance at that address, and the
    results are those of one search continued slice after slice. *)
Theorem advance_creates_one_engine
    (s : Move) (g : Goal) (o : MovementOptions) (h : Store AStar)
    (n : nat) :
  let a0 := newAStar s (createHandler o g) g (-1)%Z 40%Z (-1)%Z 0%Z in
  exists rs p' h',
    advances (S n) (newProducer s g o) h = Some (rs, p', h')
    /\ created h' = S (created h)
    /\ astarContext p' = Some (created h)
    /\ Forall (fun r => res_astarContext r = created h) rs
    /\ map result rs = fst (slices (S n) a0)
    /\ instances h' !! created h = Some (snd (slices (S n) a0))
    /\ (forall i, i <> created h -> instances h' !! i = instances h !! i).
Proof.
  intros a0. simpl. unfold Producers.advance. simpl.
  rewrite lookup_insert_eq. fold a0.
  destruct (compute a0) as [res a1] eqn:Hc.
  set (p1 := mkProducer _ _ _ _ _ _).
  set (h1 := mkStore _ _).
  destruct (advances_steady n p1 h1 (created h) a1)
    as (rs & p' & h' & Hrun & Hcr & Hctx & Hall & Hres & Hinst & Hother).
  { reflexivity. }
  { subst h1; simpl. apply lookup_insert_eq. }
  rewrite Hrun. exists (mkAdvanceRes res (created h) :: rs), p', h'.
  destruct (slices n a1) as [rs' a2] eqn:Hs. simpl in *.
  repeat split; auto.
  - f_equal; exact Hres.
  - intros i Hi. rewrite (Hother i Hi). subst h1; simpl.
    rewrite lookup_insert_ne by congruence.
    apply lookup_insert_ne; congruence.
Qed.

Lemma last_cons_default {A : Type} (x : A) (l : list A) (d d' : A) :
  List.last (x :: l) d = List.last (x :: l) d'.
Proof.
  revert x. induction l as [|y l IH]; intros x; [reflexivity|].
  change (List.last (y :: l) d = List.last (y :: l) d'). apply IH.
Qed.

(** What a run of calls leaves in the fields of the producer. *)
Lemma advances_fields (n : nat) :
  forall (p p' : Producer) (h h' : Store AStar) (rs : list AdvanceRes),
    advances n p h = Some (rs, p', h') ->
    length rs = n
    /\ _currentPath p'
       = List.last (map (fun r => path (result r)) rs) (_currentPath p)
    /\ lastGc p' = (lastGc p + if gcAvailable then n else 0)%nat
    /\ start p' = start p /\ goal p' = goal p /\ settings p' = settings p.
Proof.
  induction n as [|n IH]; intros p p' h h' rs Hrun.
  - simpl in Hrun. injection Hrun as <- <- <-. simpl.
    repeat split; try reflexivity. destruct gcAvailable; lia.
  - simpl in Hrun.
    destruct (advance p h) as [[[r p1] h1]|] eqn:Hadv; [|discriminate Hrun].
    destruct (advances n p1 h1) as [[[rs1 p2] h2]|] eqn:Hrest;
      [|discriminate Hrun].
    injection Hrun as <- <- <-.
    destruct (IH p1 p2 h1 h2 rs1 Hrest)
      as (Hlen & Hpath & Hgc & Hstart & Hgoal & Hsettings).
    unfold Producers.advance in Hadv.
    destruct (match astarContext p with
              | Some ctx => (ctx, h)
              | None => _
              end) as [ctx h0].
    destruct (instances h0 !! ctx) as [a|]; [|discriminate Hadv].
    destruct (compute a) as [res a'].
    injection Hadv as <- <- <-. simpl in *.
    split; [lia|]. split.
    { rewrite Hpath. destruct rs1 as [|r1 rs1]; [reflexivity|].
      change (map (fun r => path (result r)) (r1 :: rs1))
        with (path (result r1) :: map (fun r => path (result r)) rs1).
      rewrite (last_cons_default _ _ _ (_currentPath p)). reflexivity. }
    split; [rewrite Hgc; destruct gcAvailable; lia|].
    repeat split; assumption.
Qed.

(** X18.  After any number of calls of [advance] on a new producer,
    [getCurrentPath] is the path of the latest result, the counter of
    garbage collections has the number of calls when garbage collection is
    exposed and is still zero when it is not, and the start, the goal and
    the settings are those the producer was made with. *)
Theorem getCurrentPath_is_latest_result
    (s : Move) (g : Goal) (o : MovementOptions) (h : Store AStar)
    (n : nat) :
  exists rs p' h',
    advances (S n) (newProducer s g o) h = Some (rs, p', h')
    /\ length rs = S n
    /\ ProducerReads.getCurrentPath p'
       = List.last (map (fun r => path (result r)) rs) []
    /\ ProducerReads.getAstarContext p' = Some (created h)
    /\ lastGc p' = (if gcAvailable then S n else 0%nat)
    /\ start p' = s /\ goal p' = g /\ settings p' = o.
Proof.
  assert (Hrun : exists rs p' h',
             advances (S n) (newProducer s g o) h = Some (rs, p', h')
             /\ astarContext p' = Some (created h)).
  { simpl. unfold Producers.advance. simpl. rewrite lookup_insert_eq.
    destruct (compute _) as [res a1].
    set (p1 := mkProducer _ _ _ _ _ _).
    set (h1 := mkStore _ _).
    destruct (advances_steady n p1 h1 (created h) a1)
      as (rs & p' & h' & Hrun & _ & Hctx & _).
    { reflexivity. }
    { subst h1; simpl. apply lookup_insert_eq. }
    rewrite Hrun. eauto 10. }
  destruct Hrun as (rs & p' & h' & Hrun & Hctx).
  exists rs, p', h'. split; [exact Hrun|].
  destruct (advances_fields (S n) _ _ _ _ _ Hrun)
    as (Hlen & Hpath & Hgc & Hstart & Hgoal & Hsettings).
  split; [exact Hlen|]. split; [exact Hpath|]. split; [exact Hctx|].
  split; [rewrite Hgc; simpl; destruct gcAvailable; reflexivity|].
  repeat split; assumption.
Qed.

End ContinuousPathProducer.

End ProducersFacts.

(** ** [postProcess] *)

Module PathObjectsFacts.
Import PathObjects.

Section PostProcess.

Context {Move Context : Type}.
Variable optimize : gmap nat (list Move) -> nat -> gmap nat (list Move) * nat.

(** C10.  [postProcess] returns a new [Path] object whose status, cost,
    calculation time, node counters and context are those of its input and
    whose move sequence is the optimizer's answer; the input object and
    every other [Path] object keep all their fields. *)
Theorem postProcess_copies_all_but_path
    (mem : @Memory Move Context) (pathInfo : nat)
    (obj : @Path Context) :
  paths mem !! pathInfo = Some obj ->
  exists mem' ret new,
    postProcess optimize mem pathInfo = Some (mem', ret)
    /\ ret <> pathInfo
    /\ paths mem !! ret = None
    /\ paths mem' !! ret = Some new
    /\ status new = status obj
    /\ cost new = cost obj
    /\ calcTime new = calcTime obj
    /\ visitedNodes new = visitedNodes obj
    /\ generatedNodes new = generatedNodes obj
    /\ context new = context obj
    /\ path new = snd (optimize (arrays mem) (path obj))
    /\ arrays mem' = fst (optimize (arrays mem) (path obj))
    /\ paths mem' !! pathInfo = Some obj
    /\ (forall i, i <> ret -> paths mem' !! i = paths mem !! i).
Proof.
  intros Hobj. unfold postProcess. rewrite Hobj.
  destruct (optimize (arrays mem) (path obj)) as [arrays' res] eqn:Ho.
  set (ret := fresh (dom (paths mem))).
  assert (Hfresh : paths mem !! ret = None).
  { apply not_elem_of_dom. apply is_fresh. }
  assert (Hne : ret <> pathInfo) by congruence.
  eexists _, ret, _. split; [reflexivity|]. simpl.
  split; [exact Hne|]. split; [exact Hfresh|].
  split; [apply lookup_insert_eq|].
  repeat (split; [reflexivity|]).
  split.
  - rewrite lookup_insert_ne by exact Hne. exact Hobj.
  - intros i Hi. apply lookup_insert_ne. congruence.
Qed.

End PostProcess.

(** A found path at address 3, post-processed by an optimizer that thins
    its moves out. *)
Lemma postProcess_witness :
  paths PathObjectExamples.memory !! 3%nat
  = Some PathObjectExamples.foundPath
  /\ exists mem' ret new,
       postProcess PathObjectExamples.thinOut PathObjectExamples.memory 3
       = Some (mem', ret)
       /\ paths mem' !! ret = Some new
       /\ status new = "success"
       /\ paths mem' !! 3%nat = Some PathObjectExamples.foundPath.
Proof.
  assert (H : paths PathObjectExamples.memory !! 3%nat
              = Some PathObjectExamples.foundPath) by reflexivity.
  split; [exact H|].
  destruct (postProcess_copies_all_but_path PathObjectExamples.thinOut
              PathObjectExamples.memory 3 PathObjectExamples.foundPath H)
    as (mem' & ret & new & Hrun & _ & _ & Hnew & Hst & _ & _ & _ & _ & _
        & _ & _ & Hold & _).
  exists mem', ret, new. repeat split; assumption.
Defined.

End PathObjectsFacts.

(** ** [getPathFromToRaw] *)

Module PathSearchFacts.
Import PathSearch.

Section GetPath.

Context {Path : Type}.
Variable status : Path -> string.
Variable advance : nat -> Path.
Variable abortCalculation : nat -> bool.

Local Abbreviation forAwait := (forAwait status advance abortCalculation).
Local Abbreviation goesOn := (goesOn status advance abortCalculation).
Local Abbreviation getPathFromToRaw :=
  (getPathFromToRaw status advance abortCalculation).

Lemma continues_not_final (s : string) :
  continues s = true ->
  s <> "success" /\ s <> "noPath" /\ s <> "timeout".
Proof.
  unfold continues. intros H. apply orb_true_iff in H.
  destruct H as [H|H]; apply bool_decide_eq_true in H; subst s;
    repeat split; discriminate.
Qed.

Lemma forAwait_S (fuel : nat) (g : Generator) :
  forAwait (S fuel) g
  = match next status advance abortCalculation g with
    | Done => Some None
    | Yield res rest =>
        if negb (bool_decide (status res = "success")) then
          if bool_decide (status res = "noPath")
             || bool_decide (status res = "timeout")
          then Some None
          else forAwait fuel rest
        else Some (Some res)
    end.
Proof. reflexivity. Qed.

(** While the results are partial and nothing is aborted, the loop takes
    one turn per result. *)
Lemma forAwait_goesOn (n : nat) :
  forall (k fuel : nat),
    (forall j, (k <= j < k + n)%nat -> goesOn j) ->
    forAwait (n + fuel) (Advancing k) = forAwait fuel (Advancing (k + n)).
Proof.
  induction n as [|n IH]; intros k fuel Hgo.
  - simpl. f_equal. f_equal. lia.
  - destruct (Hgo k ltac:(lia)) as [Hc Ha].
    destruct (continues_not_final _ Hc) as (Hs & Hn & Ht).
    change (S n + fuel)%nat with (S (n + fuel)).
    rewrite forAwait_S. unfold next. rewrite Ha, Hc.
    rewrite !bool_decide_eq_false_2 by assumption. cbn [negb orb].
    rewrite IH by (intros j Hj; apply Hgo; lia).
    f_equal. f_equal. lia.
Qed.

(** The turn at which the loop stops. *)
Lemma forAwait_stops (k fuel : nat) :
  ~ goesOn k ->
  forAwait (2 + fuel) (Advancing k)
  = Some (if bool_decide (status (advance k) = "success")
          then Some (advance k) else None).
Proof.
  intros Hstop. change (2 + fuel)%nat with (S (S fuel)).
  rewrite forAwait_S. unfold next.
  destruct (bool_decide (status (advance k) = "success")) eqn:Hs.
  - rewrite Hs. reflexivity.
  - assert (Hend : (if abortCalculation k
                    then Yield (advance k) Finished
                    else if continues (status (advance k))
                         then Yield (advance k) (Advancing (S k))
                         else Yield (advance k) Finished)
                   = Yield (advance k) Finished).
    { destruct (abortCalculation k) eqn:Ha; [reflexivity|].
      destruct (continues (status (advance k))) eqn:Hc; [|reflexivity].
      exfalso. apply Hstop. split; assumption. }
    rewrite Hend, Hs. cbn [negb].
    destruct (_ || _); reflexivity.
Qed.

(** C4 (as amended).  Once the producer's results stop being partial, or
    the calculation is aborted, [getPathFromToRaw] returns: the path when
    the result it stopped at has status success, and null in every other
    case, which covers noPath and timeout and also a partial result with
    the calculation aborted. *)
Theorem getPathFromToRaw_answer (k fuel : nat) :
  (forall j, (j < k)%nat -> goesOn j) ->
  ~ goesOn k ->
  (k + 2 <= fuel)%nat ->
  getPathFromToRaw fuel
  = Some (if bool_decide (status (advance k) = "success")
          then Some (advance k) else None).
Proof.
  intros Hbefore Hstop Hfuel. unfold PathSearch.getPathFromToRaw.
  unfold getPathFromTo.
  replace fuel with (k + (2 + (fuel - k - 2)))%nat by lia.
  rewrite forAwait_goesOn by (intros j Hj; apply Hbefore; lia).
  simpl (0 + k)%nat. apply forAwait_stops. exact Hstop.
Qed.

(** As long as every result is partial and nothing is aborted, the loop
    does not return. *)
Lemma getPathFromToRaw_pending (fuel : nat) :
  (forall j, goesOn j) -> getPathFromToRaw fuel = None.
Proof.
  intros Hgo. unfold PathSearch.getPathFromToRaw, getPathFromTo.
  replace fuel with (fuel + 0)%nat by lia.
  rewrite forAwait_goesOn by (intros j _; apply Hgo).
  reflexivity.
Qed.

(** Whatever the loop returns, it returns at the first result at which it
    does not go on. *)
Lemma forAwait_returned (fuel : nat) :
  forall (k : nat) (r : option Path),
    forAwait fuel (Advancing k) = Some r ->
    exists j,
      (k <= j < k + fuel)%nat
      /\ (forall i, (k <= i < j)%nat -> goesOn i)
      /\ ~ goesOn j
      /\ r = if bool_decide (status (advance j) = "success")
             then Some (advance j) else None.
Proof.
  induction fuel as [|fuel IH]; intros k r Hrun; [discriminate Hrun|].
  rewrite forAwait_S in Hrun. unfold next in Hrun.
  assert (Hfinished :
            forall r0,
              (if bool_decide (status (advance k) = "noPath")
                  || bool_decide (status (advance k) = "timeout")
               then Some None
               else forAwait fuel Finished) = Some r0 ->
              r0 = None).
  { intros r0 H. destruct (_ || _); [congruence|].
    destruct fuel; [discriminate H|]. simpl in H. congruence. }
  destruct (bool_decide (status (advance k) = "success")) eqn:Hs.
  - rewrite Hs in Hrun. cbn [negb] in Hrun. injection Hrun as <-.
    exists k. split; [lia|]. split; [intros i Hi; lia|]. split.
    + intros [Hc _]. apply continues_not_final in Hc as [Hc _].
      apply bool_decide_eq_true in Hs. contradiction.
    + rewrite Hs. reflexivity.
  - destruct (abortCalculation k) eqn:Ha.
    { rewrite Hs in Hrun. cbn [negb] in Hrun.
      apply Hfinished in Hrun. subst r.
      exists k. split; [lia|]. split; [intros i Hi; lia|]. split.
      - intros [_ Hn]. congruence.
      - rewrite Hs. reflexivity. }
    destruct (continues (status (advance k))) eqn:Hc.
    + rewrite Hs in Hrun. cbn [negb] in Hrun.
      destruct (continues_not_final _ Hc) as (_ & Hn & Ht).
      rewrite !bool_decide_eq_false_2 in Hrun by assumption.
      cbn [orb] in Hrun.
      destruct (IH (S k) r Hrun) as (j & Hj & Hbefore & Hstop & Hr).
      exists j. split; [lia|]. split; [|split; assumption].
      intros i Hi. destruct (Nat.eq_dec i k) as [->|Hne].
      * split; assumption.
      * apply Hbefore. lia.
    + rewrite Hs in Hrun. cbn [negb] in Hrun.
      apply Hfinished in Hrun. subst r.
      exists k. split; [lia|]. split; [intros i Hi; lia|]. split.
      * intros [Hn _]. congruence.
      * rewrite Hs. reflexivity.
Qed.

(** X15.  Whenever [getPathFromToRaw] returns, its answer was decided by
    the first result of the producer that was not partial or that came with
    the calculation aborted; no later result is asked for.  A path that is
    returned is that result and has status success. *)
Theorem getPathFromToRaw_returns_first_final_result (fuel : nat)
    (r : option Path) :
  getPathFromToRaw fuel = Some r ->
  exists j,
    (j < fuel)%nat
    /\ (forall i, (i < j)%nat -> goesOn i)
    /\ ~ goesOn j
    /\ (r = if bool_decide (status (advance j) = "success")
            then Some (advance j) else None)
    /\ forall p, r = Some p -> p = advance j /\ status p = "success".
Proof.
  intros Hrun. unfold PathSearch.getPathFromToRaw, getPathFromTo in Hrun.
  destruct (forAwait_returned fuel 0 r Hrun)
    as (j & Hj & Hbefore & Hstop & Hr).
  exists j. split; [lia|]. split; [intros i Hi; apply Hbefore; lia|].
  split; [exact Hstop|]. split; [exact Hr|].
  intros p Hp. rewrite Hp in Hr.
  destruct (bool_decide (status (advance j) = "success")) eqn:Hs;
    [|discriminate Hr].
  injection Hr as ->. split; [reflexivity|].
  apply bool_decide_eq_true in Hs. exact Hs.
Qed.

End GetPath.

(** Two partial results and then a success: the third result is returned. *)
Lemma getPathFromToRaw_answer_witness :
  (forall j, (j < 2)%nat ->
     PathSearch.goesOn id PathSearchExamples.thirdTimeLucky
       PathSearchExamples.neverAborted j)
  /\ ~ PathSearch.goesOn id PathSearchExamples.thirdTimeLucky
         PathSearchExamples.neverAborted 2
  /\ getPathFromToRaw id PathSearchExamples.thirdTimeLucky
       PathSearchExamples.neverAborted 4
     = Some (Some "success").
Proof.
  assert (H1 : forall j, (j < 2)%nat ->
             PathSearch.goesOn id PathSearchExamples.thirdTimeLucky
               PathSearchExamples.neverAborted j).
  { intros j Hj. destruct j as [|[|j]]; [split; reflexivity ..|lia]. }
  assert (H2 : ~ PathSearch.goesOn id PathSearchExamples.thirdTimeLucky
                 PathSearchExamples.neverAborted 2).
  { intros [Hc _]. discriminate Hc. }
  split; [exact H1|]. split; [exact H2|].
  exact (getPathFromToRaw_answer id PathSearchExamples.thirdTimeLucky
           PathSearchExamples.neverAborted 2 4 H1 H2 ltac:(lia)).
Defined.

(** C4 as stated fails: with the calculation aborted after a first partial
    result, null is returned although no result has status noPath or
    timeout. *)
Lemma getPathFromToRaw_null_without_noPath_or_timeout :
  getPathFromToRaw id PathSearchExamples.alwaysPartial
    PathSearchExamples.abortedAtOnce 2 = Some None
  /\ forall k, PathSearchExamples.alwaysPartial k <> "noPath"
               /\ PathSearchExamples.alwaysPartial k <> "timeout".
Proof.
  split; [reflexivity|]. intros k. split; discriminate.
Qed.

(** Two partial results and then a success: the answer is the third
    result. *)
Lemma getPathFromToRaw_returns_witness :
  getPathFromToRaw id PathSearchExamples.thirdTimeLucky
    PathSearchExamples.neverAborted 3 = Some (Some "success")
  /\ exists j,
       (j < 3)%nat
       /\ (forall i, (i < j)%nat ->
             PathSearch.goesOn id PathSearchExamples.thirdTimeLucky
               PathSearchExamples.neverAborted i)
       /\ ~ PathSearch.goesOn id PathSearchExamples.thirdTimeLucky
             PathSearchExamples.neverAborted j
       /\ (Some "success"
           = if bool_decide
                  (id (PathSearchExamples.thirdTimeLucky j) = "success")
             then Some (PathSearchExamples.thirdTimeLucky j) else None)
       /\ forall p, Some "success" = Some p ->
            p = PathSearchExamples.thirdTimeLucky j /\ id p = "success".
Proof.
  assert (H : getPathFromToRaw id PathSearchExamples.thirdTimeLucky
                PathSearchExamples.neverAborted 3 = Some (Some "success"))
    by reflexivity.
  split; [exact H|].
  exact (getPathFromToRaw_returns_first_final_result id
           PathSearchExamples.thirdTimeLucky PathSearchExamples.neverAborted
           3 (Some "success") H).
Defined.

End PathSearchFacts.

(** ** Aborting a move *)

Module ExecutorFacts.
Import Providers Executor.

Lemma awaitSafeToCancel_safe (ticks : list Entity) :
  (exists e, In e ticks /\ safeToCancel e = true) ->
  awaitSafeToCancel ticks = Returns.
Proof.
  intros H. unfold awaitSafeToCancel.
  rewrite (proj2 (existsb_exists safeToCancel ticks) H). reflexivity.
Qed.

Lemma awaitSafeToCancel_timeout (ticks : list Entity) :
  (forall e, In e ticks -> safeToCancel e = false) ->
  awaitSafeToCancel ticks
  = Throws (Error "Movement failed to abort properly.").
Proof.
  intros H. unfold awaitSafeToCancel.
  destruct (existsb safeToCancel ticks) eqn:E; [|reflexivity].
  apply existsb_exists in E as (e & Hin & Hsafe).
  rewrite (H e Hin) in Hsafe. discriminate.
Qed.

(** An executor that is neither aborted nor resetting cancels nothing and
    goes on at once. *)
Lemma holdUntilAborted_idle (move : Move) (ticks : list Entity) :
  holdUntilAborted (mkExecutor false None) move ticks = ([], Returns).
Proof. reflexivity. Qed.

(** C8 (as amended).  When a move is aborted or reset, [holdUntilAborted]
    cancels the move's break interactions, then its place interactions, and
    then waits.  If the agent gets on the ground or into water before the
    timeout, the call raises the reset failure when a reset reason is set
    and the aborted failure otherwise; if the timeout comes first, it
    raises a plain error instead of either. *)
Theorem holdUntilAborted_cancels_waits_raises
    (this : MovementExecutor) (move : Move) (ticks : list Entity) :
  aborted this = true \/ is_Some (resetReason this) ->
  exists out,
    holdUntilAborted this move ticks
    = (map AbortBreak (toBreak move) ++ map AbortPlace (toPlace move)
       ++ [OffPhysicsTick], out)
    /\ ((exists e, In e ticks /\ safeToCancel e = true) ->
        out = match resetReason this with
              | Some reason => Throws reason
              | None => Throws (AbortError "Movement aborted.")
              end)
    /\ ((forall e, In e ticks -> safeToCancel e = false) ->
        out = Throws (Error "Movement failed to abort properly.")).
Proof.
  intros Hflag. unfold holdUntilAborted.
  assert (Hguard : negb (aborted this)
                   && negb (bool_decide (is_Some (resetReason this)))
                   = false).
  { destruct Hflag as [Ha|Hr].
    - rewrite Ha. reflexivity.
    - rewrite (bool_decide_eq_true_2 _ Hr). apply andb_false_r. }
  rewrite Hguard.
  destruct (awaitSafeToCancel ticks) as [|f] eqn:Hw.
  - eexists. split; [reflexivity|]. split.
    + intros _. destruct (resetReason this) as [r|] eqn:Hr; [reflexivity|].
      destruct Hflag as [Ha|[r Hr']]; [rewrite Ha; reflexivity|discriminate].
    + intros Hnone. rewrite (awaitSafeToCancel_timeout _ Hnone) in Hw.
      discriminate.
  - eexists. split; [reflexivity|]. split.
    + intros Hsafe. rewrite (awaitSafeToCancel_safe _ Hsafe) in Hw.
      discriminate.
    + intros Hnone. rewrite (awaitSafeToCancel_timeout _ Hnone) in Hw.
      congruence.
Qed.

(** A reset executor whose agent lands on the second tick. *)
Lemma holdUntilAborted_witness :
  (aborted ExecutorExamples.resetting = true
   \/ is_Some (resetReason ExecutorExamples.resetting))
  /\ holdUntilAborted ExecutorExamples.resetting ExecutorExamples.bridging
       [ExecutorExamples.airborne; ExecutorExamples.landed]
     = ([AbortBreak (BreakFromVec (mkBlockPos 1 65 0) "solid");
         AbortPlace (PlaceFromVec (mkBlockPos 1 63 0) "solid");
         OffPhysicsTick],
        Throws (ResetError goalUpdated)).
Proof.
  assert (H : aborted ExecutorExamples.resetting = true
              \/ is_Some (resetReason ExecutorExamples.resetting))
    by (left; reflexivity).
  split; [exact H|].
  destruct (holdUntilAborted_cancels_waits_raises ExecutorExamples.resetting
              ExecutorExamples.bridging
              [ExecutorExamples.airborne; ExecutorExamples.landed] H)
    as (out & Hrun & Hsafe & _).
  rewrite Hrun. f_equal. apply Hsafe.
  exists ExecutorExamples.landed. split; [simpl; auto|reflexivity].
Defined.

(** C8 as stated fails: an executor aborted by the user whose agent stays
    in the air until the timeout raises neither the aborted nor the reset
    failure. *)
Lemma holdUntilAborted_timeout_raises_plain_error :
  aborted ExecutorExamples.userAborted = true
  /\ snd (holdUntilAborted ExecutorExamples.userAborted
            ExecutorExamples.bridging
            [ExecutorExamples.airborne; ExecutorExamples.airborne])
     = Throws (Error "Movement failed to abort properly.")
  /\ snd (holdUntilAborted ExecutorExamples.userAborted
            ExecutorExamples.bridging
            [ExecutorExamples.airborne; ExecutorExamples.airborne])
     <> Throws (AbortError "Movement aborted.").
Proof.
  split; [reflexivity|]. split; [reflexivity|]. discriminate.
Qed.

End ExecutorFacts.

(** ** Recovery *)

Module ExecutionFacts.
Import Geometry Execution.

(** *** The array: [indexOf] and [sort] *)

Lemma indexOf_lower (l : list Move) (m : Move) : (-1 <= indexOf l m)%Z.
Proof.
  induction l as [|x rest IH]; simpl; [lia|].
  destruct (Nat.eqb (mid x) (mid m)); [lia|].
  destruct (Z.ltb_spec (indexOf rest m) 0); lia.
Qed.

Lemma indexOf_head (m : Move) (l : list Move) : indexOf (m :: l) m = 0%Z.
Proof. simpl. rewrite Nat.eqb_refl. reflexivity. Qed.

Lemma indexOf_In (l : list Move) (m : Move) :
  In m l -> (0 <= indexOf l m)%Z.
Proof.
  induction l as [|x rest IH]; simpl; [tauto|].
  intros [Hx|Hin].
  - subst x. rewrite Nat.eqb_refl. lia.
  - destruct (Nat.eqb (mid x) (mid m)); [lia|].
    specialize (IH Hin).
    destruct (Z.ltb_spec (indexOf rest m) 0); lia.
Qed.

Lemma insertByDistance_not_nil (pos : Vec3) (m : Move) (l : list Move) :
  insertByDistance pos m l <> [].
Proof.
  destruct l as [|x rest]; simpl; [discriminate|].
  destruct (Qlt_le_dec _ _); discriminate.
Qed.

Lemma sortByDistance_nil (pos : Vec3) (l : list Move) :
  sortByDistance pos l = [] -> l = [].
Proof.
  destruct l as [|a l]; [reflexivity|]. simpl. intros H.
  destruct (insertByDistance_not_nil _ _ _ H).
Qed.

Lemma insertByDistance_In (pos : Vec3) (m x : Move) (l : list Move) :
  In x (insertByDistance pos m l) -> x = m \/ In x l.
Proof.
  induction l as [|y rest IH]; simpl.
  - intros [<-|[]]; auto.
  - destruct (Qlt_le_dec _ _); simpl.
    + intros [<-|H]; [auto|]. destruct (IH H); auto.
    + intros [<-|[<-|H]]; auto.
Qed.

Lemma sortByDistance_In (pos : Vec3) (x : Move) (l : list Move) :
  In x (sortByDistance pos l) -> In x l.
Proof.
  induction l as [|a l IH]; simpl; [tauto|].
  intros H. apply insertByDistance_In in H as [->|H]; auto.
Qed.

Lemma chooseNextMove_In (sorted : list Move) (ind : Z) (target : Move) :
  snd (chooseNextMove sorted ind) = Some target -> In target sorted.
Proof.
  unfold chooseNextMove. destruct sorted as [|n rest]; [discriminate|].
  cbn [head]. destruct (_ <? _)%Z; cbn [snd].
  - intros H; injection H as <-. left; reflexivity.
  - destruct (_ =? _)%Z; cbn [snd].
    + apply nth_error_In.
    + intros H; injection H as <-. left; reflexivity.
Qed.

(** The head of the sorted array is a move of the array whose entry
    position is nearest to [pos]. *)
Lemma nearest_is_nearest (pos : Vec3) (l : list Move) (n : Move) :
  nearest pos l = Some n ->
  In n l
  /\ forall m, In m l ->
       distSq (entryPos n) pos <= distSq (entryPos m) pos.
Proof.
  unfold nearest. revert n.
  induction l as [|a l IH]; intros n; simpl; [discriminate|].
  destruct (sortByDistance pos l) as [|x r] eqn:Hs.
  - apply sortByDistance_nil in Hs. subst l. simpl.
    intros H; injection H as <-. split; [auto|].
    intros m [<-|[]]. apply Qle_refl.
  - destruct (IH x eq_refl) as [Hin Hmin]. simpl.
    destruct (Qlt_le_dec (distSq (entryPos x) pos) (distSq (entryPos a) pos))
      as [Hlt|Hle]; simpl; intros H; injection H as <-.
    + split; [auto|]. intros m [<-|Hm].
      * apply Qlt_le_weak; exact Hlt.
      * apply Hmin; exact Hm.
    + split; [auto|]. intros m [<-|Hm].
      * apply Qle_refl.
      * eapply Qle_trans; [exact Hle|]. apply Hmin; exact Hm.
Qed.

(** After the sort the nearest move sits at index 0, so the search counts
    as regressed as soon as the failed move sat at a later index. *)
Lemma chooseNextMove_regressed (sorted : list Move) (ind : Z) :
  (0 < ind)%Z -> fst (chooseNextMove sorted ind) = true.
Proof.
  intros Hind. unfold chooseNextMove.
  destruct sorted as [|n rest]; simpl; [reflexivity|].
  rewrite Nat.eqb_refl.
  destruct (Z.ltb_spec 0 ind); [reflexivity|lia].
Qed.

Lemma nearest_earlier_regressed (pos : Vec3) (moves : list Move) (ind : Z) :
  (exists n, nearest pos moves = Some n /\ (indexOf moves n < ind)%Z) ->
  fst (chooseNextMove (sortByDistance pos moves) ind) = true.
Proof.
  intros (n & Hn & Hlt). apply chooseNextMove_regressed.
  destruct (nearest_is_nearest _ _ _ Hn) as [Hin _].
  pose proof (indexOf_In _ _ Hin). lia.
Qed.

(** *** Running computations *)

Lemma bind_run {A B : Type} (m : M A) (k : A -> M B) (c c1 : Config)
    (a : A) :
  m c = (c1, Ok a) -> bind m k c = k a c1.
Proof. intros H. unfold bind. rewrite H. reflexivity. Qed.

Lemma bind_throw {A B : Type} (m : M A) (k : A -> M B) (c c1 : Config)
    (f : Failure) :
  m c = (c1, Throw f) -> bind m k c = (c1, Throw f).
Proof. intros H. unfold bind. rewrite H. reflexivity. Qed.

Lemma bind_outOfFuel {A B : Type} (m : M A) (k : A -> M B) (c c1 : Config) :
  m c = (c1, OutOfFuel) -> bind m k c = (c1, OutOfFuel).
Proof. intros H. unfold bind. rewrite H. reflexivity. Qed.

Lemma tryCatch_ok {A : Type} (m : M A) (handler : Failure -> M A)
    (c c1 : Config) (a : A) :
  m c = (c1, Ok a) -> tryCatch m handler c = (c1, Ok a).
Proof. intros H. unfold tryCatch. rewrite H. reflexivity. Qed.

Lemma tryCatch_throw {A : Type} (m : M A) (handler : Failure -> M A)
    (c c1 : Config) (f : Failure) :
  m c = (c1, Throw f) -> tryCatch m handler c = handler f c1.
Proof. intros H. unfold tryCatch. rewrite H. reflexivity. Qed.

Lemma tryCatch_outOfFuel {A : Type} (m : M A) (handler : Failure -> M A)
    (c c1 : Config) :
  m c = (c1, OutOfFuel) -> tryCatch m handler c = (c1, OutOfFuel).
Proof. intros H. unfold tryCatch. rewrite H. reflexivity. Qed.

Lemma bind_emit {B : Type} (e : Event) (k : unit -> M B) (c : Config) :
  bind (emit e) k c = k tt (mkConfig (this c) (log c ++ [e])).
Proof. reflexivity. Qed.

Lemma bind_gets {A B : Type} (f : Pathfinder -> A) (k : A -> M B)
    (c : Config) :
  bind (gets f) k c = k (f (this c)) c.
Proof. reflexivity. Qed.

Lemma bind_modify {B : Type} (f : Pathfinder -> Pathfinder)
    (k : unit -> M B) (c : Config) :
  bind (modify f) k c = k tt (mkConfig (f (this c)) (log c)).
Proof. reflexivity. Qed.

Lemma bind_call_ok {A B : Type}
    (f : Pathfinder -> Pathfinder * (Failure + A)) (k : A -> M B)
    (c : Config) (s : Pathfinder) (a : A) :
  f (this c) = (s, inr a) ->
  bind (call f) k c = k a (mkConfig s (log c)).
Proof. intros H. unfold bind, call. rewrite H. reflexivity. Qed.

Lemma bind_call_throw {A B : Type}
    (f : Pathfinder -> Pathfinder * (Failure + A)) (k : A -> M B)
    (c : Config) (s : Pathfinder) (err : Failure) :
  f (this c) = (s, inl err) ->
  bind (call f) k c = (mkConfig s (log c), Throw err).
Proof. intros H. unfold bind, call. rewrite H. reflexivity. Qed.

Lemma check_quiet (c : Config) : quiet (this c) -> check c = (c, Ok tt).
Proof. intros [Hu Hr]. unfold check. rewrite Hu, Hr. reflexivity. Qed.

Lemma grows_ret {A : Type} (a : A) : grows (ret a).
Proof. intros c. exists []. simpl. rewrite app_nil_r. reflexivity. Qed.

Lemma grows_emit (e : Event) : grows (emit e).
Proof. intros c. exists [e]. reflexivity. Qed.

Lemma grows_modify (f : Pathfinder -> Pathfinder) : grows (modify f).
Proof. intros c. exists []. simpl. rewrite app_nil_r. reflexivity. Qed.

Lemma grows_check : grows check.
Proof.
  intros c. exists []. rewrite app_nil_r. unfold check.
  destruct (userAborted (this c)); [reflexivity|].
  destruct (resetReason (this c)); reflexivity.
Qed.

Lemma grows_call {A : Type}
    (f : Pathfinder -> Pathfinder * (Failure + A)) : grows (call f).
Proof.
  intros c. exists []. rewrite app_nil_r. unfold call.
  destruct (f (this c)) as [s [err|a]]; reflexivity.
Qed.

Lemma grows_bind {A B : Type} (m : M A) (k : A -> M B) :
  grows m -> (forall a, grows (k a)) -> grows (bind m k).
Proof.
  intros Hm Hk c. unfold bind.
  destruct (Hm c) as [s1 H1]. destruct (m c) as [c1 [a| |]]; simpl in *.
  - destruct (Hk a c1) as [s2 H2]. exists (s1 ++ s2).
    rewrite H2, H1, app_assoc. reflexivity.
  - exists s1; exact H1.
  - exists s1; exact H1.
Qed.

Lemma notFatal_ret {A : Type} (a : A) : notFatal (ret a).
Proof. intros c. discriminate. Qed.

Lemma notFatal_emit (e : Event) : notFatal (emit e).
Proof. intros c. discriminate. Qed.

Lemma notFatal_modify (f : Pathfinder -> Pathfinder) : notFatal (modify f).
Proof. intros c. discriminate. Qed.

Lemma notFatal_check : notFatal check.
Proof.
  intros c. unfold check. destruct (userAborted (this c)); [discriminate|].
  destruct (resetReason (this c)); discriminate.
Qed.

Lemma notFatal_call {A : Type}
    (f : Pathfinder -> Pathfinder * (Failure + A)) :
  (forall s, snd (f s) <> inl tooManyFailures) -> notFatal (call f).
Proof.
  intros Hf c. unfold call. specialize (Hf (this c)).
  destruct (f (this c)) as [s [err|a]]; simpl in *; congruence.
Qed.

Lemma notFatal_bind {A B : Type} (m : M A) (k : A -> M B) :
  notFatal m -> (forall a, notFatal (k a)) -> notFatal (bind m k).
Proof.
  intros Hm Hk c. unfold bind. specialize (Hm c).
  destruct (m c) as [c1 [a|f|]]; simpl in *.
  - apply Hk.
  - intros H. apply Hm. injection H as ->. reflexivity.
  - discriminate.
Qed.

Lemma clearsOnFatal_intro {A : Type} (m : M A) (c : Config) :
  (forall c', m c = (c', Throw tooManyFailures) -> controls c' = []) ->
  clearsOnFatal m c.
Proof.
  intros H. unfold clearsOnFatal. destruct (m c) as [c' r]. simpl.
  intros ->. apply H. reflexivity.
Qed.

Lemma clearsOnFatal_elim {A : Type} (m : M A) (c c' : Config) :
  clearsOnFatal m c -> m c = (c', Throw tooManyFailures) ->
  controls c' = [].
Proof.
  unfold clearsOnFatal. intros H Hm. rewrite Hm in H. apply H. reflexivity.
Qed.

Lemma within_ret {A : Type} (a : A) : staysWithinCeiling (ret a).
Proof. intros c H. exact H. Qed.

Lemma within_throw {A : Type} (f : Failure) :
  staysWithinCeiling (@throw A f).
Proof. intros c H. exact H. Qed.

Lemma within_outOfFuel {A : Type} : staysWithinCeiling (@outOfFuel A).
Proof. intros c H. exact H. Qed.

Lemma within_emit (e : Event) :
  withinCeiling e -> staysWithinCeiling (emit e).
Proof.
  intros He c H. simpl. apply Forall_app. split; [exact H|].
  constructor; [exact He|constructor].
Qed.

Lemma within_modify (f : Pathfinder -> Pathfinder) :
  staysWithinCeiling (modify f).
Proof. intros c H. exact H. Qed.

Lemma within_gets {A : Type} (f : Pathfinder -> A) :
  staysWithinCeiling (gets f).
Proof. intros c H. exact H. Qed.

Lemma within_check : staysWithinCeiling check.
Proof.
  intros c H. unfold check. destruct (userAborted (this c)); [exact H|].
  destruct (resetReason (this c)); exact H.
Qed.

Lemma within_call {A : Type}
    (f : Pathfinder -> Pathfinder * (Failure + A)) :
  staysWithinCeiling (call f).
Proof.
  intros c H. unfold call. destruct (f (this c)) as [s [err|a]]; exact H.
Qed.

Lemma within_bind {A B : Type} (m : M A) (k : A -> M B) :
  staysWithinCeiling m -> (forall a, staysWithinCeiling (k a)) ->
  staysWithinCeiling (bind m k).
Proof.
  intros Hm Hk c H. unfold bind. specialize (Hm c H).
  destruct (m c) as [c1 [a| |]]; simpl in *.
  - apply Hk. exact Hm.
  - exact Hm.
  - exact Hm.
Qed.

Lemma within_tryCatch {A : Type} (m : M A) (handler : Failure -> M A) :
  staysWithinCeiling m -> (forall f, staysWithinCeiling (handler f)) ->
  staysWithinCeiling (tryCatch m handler).
Proof.
  intros Hm Hh c H. unfold tryCatch. specialize (Hm c H).
  destruct (m c) as [c1 [a|f|]]; simpl in *.
  - exact Hm.
  - apply Hh. exact Hm.
  - exact Hm.
Qed.

Create HintDb monad discriminated.

#[local] Hint Resolve within_ret within_throw within_outOfFuel within_modify
  within_gets within_check within_call : monad.
#[local] Hint Extern 1 (staysWithinCeiling (emit _)) =>
  apply within_emit; exact I : monad.

#[local] Hint Resolve grows_ret grows_emit grows_modify grows_check
  grows_call : monad.
#[local] Hint Resolve notFatal_ret notFatal_emit notFatal_modify
  notFatal_check notFatal_call : monad.

(** Goes through a chain of binds, leaving what the hints do not close. *)
Ltac chain lemma :=
  repeat (apply lemma; [auto with monad | intros ?]); auto with monad.

(** *** The steps of [recovery] *)

Section Perform.

Variable movements : list (nat * ExecutorPhases).
Variable getPathFromToRaw :
  Vec3 -> Vec3 -> Goal -> Pathfinder
  -> Pathfinder * (Failure + option Path).
Variable postProcess : Path -> Pathfinder -> Pathfinder * (Failure + Path).
Variable waitForTicks : nat -> Pathfinder -> Pathfinder.

Local Abbreviation cleanedBot := (cleanedBot movements).
Local Abbreviation cleanupBot := (cleanupBot movements).
Local Abbreviation entered := (entered movements).
Local Abbreviation enterRecovery := (enterRecovery movements).
Local Abbreviation recovery :=
  (recovery movements getPathFromToRaw postProcess).
Local Abbreviation replanToGoal :=
  (replanToGoal getPathFromToRaw postProcess).
Local Abbreviation replanToInterimGoal :=
  (replanToInterimGoal getPathFromToRaw postProcess).
Local Abbreviation perform :=
  (perform movements getPathFromToRaw postProcess waitForTicks).
Local Abbreviation performLoop :=
  (performLoop movements waitForTicks).
Local Abbreviation executeMove := (executeMove waitForTicks).
Local Abbreviation alignLoop := (alignLoop waitForTicks).
Local Abbreviation tickLoop := (tickLoop waitForTicks).

Lemma resets_keep_bot (l : list (nat * ExecutorPhases)) (s : Pathfinder) :
  bot (fold_left (fun acc entry => reset (fst entry) acc) l s) = bot s.
Proof.
  revert s. induction l as [|e l IH]; intros s; simpl; [reflexivity|].
  rewrite IH. reflexivity.
Qed.

Lemma cleanedBot_controls (s : Pathfinder) :
  controlStates (bot (cleanedBot s)) = [].
Proof. unfold Execution.cleanedBot. rewrite resets_keep_bot. reflexivity. Qed.

Lemma cleanedBot_position (s : Pathfinder) :
  position (bot (cleanedBot s)) = position (bot s).
Proof. unfold Execution.cleanedBot. rewrite resets_keep_bot. reflexivity. Qed.

Lemma cleanupBot_run (c : Config) :
  cleanupBot c = (mkConfig (cleanedBot (this c)) (log c), Ok tt).
Proof. reflexivity. Qed.

Lemma enterRecovery_run (entry : nat) (c : Config) :
  enterRecovery entry c = (entered entry c, Ok tt).
Proof. reflexivity. Qed.

Lemma entered_position (entry : nat) (c : Config) :
  position (bot (this (entered entry c))) = position (bot (this c)).
Proof. simpl. apply cleanedBot_position. Qed.

Lemma entered_controls (entry : nat) (c : Config) :
  controlStates (bot (this (entered entry c))) = [].
Proof. simpl. apply cleanedBot_controls. Qed.

Lemma recovery_not_in_path (perform0 : Path -> Goal -> nat -> M unit)
    (move : Move) (path0 : Path) (goal : Goal) (entry : nat) (c : Config) :
  indexOf (path path0) move = (-1)%Z ->
  recovery perform0 move path0 goal entry c = enterRecovery entry c.
Proof.
  intros Hind. unfold Execution.recovery.
  rewrite (bind_run _ _ _ _ _ (enterRecovery_run entry c)).
  rewrite Hind. rewrite enterRecovery_run. reflexivity.
Qed.

Lemma recovery_full_replan (perform0 : Path -> Goal -> nat -> M unit)
    (move : Move) (path0 : Path) (goal : Goal) (entry : nat) (c : Config) :
  (0 <= indexOf (path path0) move)%Z ->
  (0 <? entry)%nat
  || fst (chooseNextMove
            (sortByDistance (position (bot (this c))) (path path0))
            (indexOf (path path0) move)) = true ->
  recovery perform0 move path0 goal entry c
  = (enterRecovery entry ;; replanToGoal perform0 goal entry) c.
Proof.
  intros Hind Hno. unfold Execution.recovery.
  rewrite !(bind_run _ _ _ _ _ (enterRecovery_run entry c)).
  destruct (Z.eqb_spec (indexOf (path path0) move) (-1)) as [E|_]; [lia|].
  unfold Execution.replanToGoal.
  unfold bind at 1. unfold gets at 1.
  cbv beta iota. rewrite entered_position.
  destruct (chooseNextMove _ _) as [bad next]. simpl fst in Hno.
  rewrite Hno.
  replace (match next with Some _ => goal | None => goal end) with goal
    by (destruct next; reflexivity).
  reflexivity.
Qed.

Lemma recovery_interim_replan (perform0 : Path -> Goal -> nat -> M unit)
    (move : Move) (path0 : Path) (goal : Goal) (entry : nat) (c : Config)
    (next : option Move) :
  (0 <= indexOf (path path0) move)%Z ->
  entry = 0%nat ->
  chooseNextMove (sortByDistance (position (bot (this c))) (path path0))
                 (indexOf (path path0) move) = (false, next) ->
  recovery perform0 move path0 goal entry c
  = (enterRecovery entry ;;
     replanToInterimGoal perform0
       (match next with
        | Some target => GoalBlock_fromVec (vec target)
        | None => goal
        end)
       goal entry
       (mkPath (status path0)
          (skipn (Z.to_nat (indexOf (path path0) move + 1))
                 (sortByDistance (position (bot (this c))) (path path0)))))
      c.
Proof.
  intros Hind Hentry Hnext. unfold Execution.recovery.
  rewrite !(bind_run _ _ _ _ _ (enterRecovery_run entry c)).
  destruct (Z.eqb_spec (indexOf (path path0) move) (-1)) as [E|_]; [lia|].
  unfold Execution.replanToInterimGoal.
  unfold bind at 1. unfold gets at 1.
  cbv beta iota. rewrite entered_position.
  rewrite Hnext. subst entry. cbn [Nat.ltb Nat.leb orb].
  reflexivity.
Qed.

(** *** Running a move *)

Lemma alignLoop_S (executor : ExecutorPhases) (move : Move) (goal : Goal)
    (k tickCount : nat) :
  alignLoop executor move goal (S k) tickCount
  = (emit (CallAlign move tickCount) ;;
     let* aligned := call (align executor move tickCount goal) in
     if negb aligned && (S tickCount <? 999)%nat then
       check ;;
       modify (waitForTicks 1) ;;
       alignLoop executor move goal k (S tickCount)
     else ret tt).
Proof. reflexivity. Qed.

(** With an alignment that stays false and nothing flagged, the align loop
    polls until the tick ceiling and then ends without throwing. *)
Lemma alignLoop_never_aligned (executor : ExecutorPhases) (move : Move)
    (goal : Goal) :
  (forall t s, snd (align executor move t goal s) = inr false) ->
  (forall t s, quiet s -> quiet (fst (align executor move t goal s))) ->
  (forall s, quiet s -> quiet (waitForTicks 1 s)) ->
  forall (k t : nat) (c : Config),
    (t + S k = 999)%nat ->
    quiet (this c) ->
    exists s1,
      alignLoop executor move goal (S k) t c
      = (mkConfig s1 (log c ++ map (CallAlign move) (seq t (S k))), Ok tt)
      /\ quiet s1.
Proof.
  intros Hfalse Halign Hwait.
  induction k as [|k IH]; intros t c Hsum Hq; rewrite alignLoop_S.
  - unfold bind, emit, call. cbn [this log].
    pose proof (Hfalse t (this c)) as Hr.
    pose proof (Halign t (this c) Hq) as Hq1.
    destruct (align executor move t goal (this c)) as [s r].
    cbn [fst snd] in Hr, Hq1. subst r.
    replace (S t <? 999)%nat with false
      by (symmetry; apply Nat.ltb_ge; lia).
    cbn [negb andb]. exists s. split; [reflexivity|exact Hq1].
  - unfold bind at 1 2. unfold emit at 1. unfold call at 1. cbn [this log].
    pose proof (Hfalse t (this c)) as Hr.
    pose proof (Halign t (this c) Hq) as Hq1.
    destruct (align executor move t goal (this c)) as [s r].
    cbn [fst snd] in Hr, Hq1. subst r.
    replace (S t <? 999)%nat with true
      by (symmetry; apply Nat.ltb_lt; lia).
    cbn [negb andb].
    rewrite (bind_run _ _ _ _ _
               (check_quiet (mkConfig s (log c ++ [CallAlign move t])) Hq1)).
    unfold bind at 1. unfold modify at 1. cbn [this log].
    destruct (IH (S t) (mkConfig (waitForTicks 1 s)
                                 (log c ++ [CallAlign move t])))
      as (s1 & Hrun & Hq2); [lia|apply Hwait; exact Hq1|].
    rewrite Hrun. cbn [log]. exists s1. split; [|exact Hq2].
    rewrite <- app_assoc. reflexivity.
Qed.

Lemma grows_tickLoop (executor : ExecutorPhases) (move : Move)
    (currentIndex : nat) (moves : list Move) (k : nat) :
  forall (tickCount : nat) (adding : Adding),
    grows (tickLoop executor move currentIndex moves k tickCount adding).
Proof.
  induction k as [|k IH]; intros tickCount adding; simpl.
  - apply grows_ret.
  - destruct (falsy adding && (tickCount <? 999)%nat); [|apply grows_ret].
    chain @grows_bind.
Qed.

(** C3 (as amended).  When the alignment of a move stays false on every
    poll and neither an abort nor a reset is flagged meanwhile, the align
    loop polls 999 times and ends without throwing: the move is not treated
    as failed, and its initialization is entered next, followed by the
    per-tick phase. *)
Theorem executeMove_enters_init_after_align_ceiling
    (executor : ExecutorPhases) (move : Move) (goal : Goal)
    (currentIndex : nat) (moves : list Move) (c : Config) :
  (forall t s, snd (align executor move t goal s) = inr false) ->
  (forall t s, quiet s -> quiet (fst (align executor move t goal s))) ->
  (forall s, quiet s -> quiet (waitForTicks 1 s)) ->
  quiet (this c) ->
  exists c1,
    alignLoop executor move goal 999 0 c = (c1, Ok tt)
    /\ log c1 = log c ++ map (CallAlign move) (seq 0 999)
    /\ executeMove executor move goal currentIndex moves c
       = (emit (CallPerformInit move currentIndex) ;;
          call (_performInit executor move currentIndex moves) ;;
          check ;;
          emit (CallPerformPerTick move 0 currentIndex) ;;
          let* adding :=
            call (_performPerTick executor move 0 currentIndex moves) in
          let* adding :=
            tickLoop executor move currentIndex moves 999 1 adding in
          ret (asNumber adding)) c1
    /\ In (CallPerformInit move currentIndex)
          (log (fst (executeMove executor move goal currentIndex moves c))).
Proof.
  intros Hfalse Halign Hwait Hq.
  destruct (alignLoop_never_aligned executor move goal Hfalse Halign Hwait
              998 0 c ltac:(lia) Hq) as (s1 & Hrun & Hq1).
  eexists. split; [exact Hrun|]. split; [reflexivity|].
  assert (Hexec : executeMove executor move goal currentIndex moves c
                  = (emit (CallPerformInit move currentIndex) ;;
                     call (_performInit executor move currentIndex moves) ;;
                     check ;;
                     emit (CallPerformPerTick move 0 currentIndex) ;;
                     let* adding :=
                       call (_performPerTick executor move 0 currentIndex
                                             moves) in
                     let* adding :=
                       tickLoop executor move currentIndex moves 999 1
                                adding in
                     ret (asNumber adding))
                      (mkConfig s1
                         (log c ++ map (CallAlign move) (seq 0 999)))).
  { unfold Execution.executeMove.
    rewrite (bind_run _ _ _ _ _ Hrun). reflexivity. }
  split; [exact Hexec|].
  rewrite Hexec.
  rewrite (bind_run _ _ _ _ _ eq_refl : (emit _ ;; _) _ = _).
  match goal with
  | |- In _ (log (fst (?m ?c0))) =>
      assert (Hg : grows m);
      [|destruct (Hg c0) as [suffix Hs]; rewrite Hs]
  end.
  - pose proof (grows_tickLoop executor move currentIndex moves 999 1).
    chain @grows_bind.
  - cbn [log]. apply in_or_app. left. apply in_or_app. right.
    left; reflexivity.
Qed.

(** *** The fatal error *)

Lemma notFatal_alignLoop (executor : ExecutorPhases) (move : Move)
    (goal : Goal) :
  throwsNoTooManyFailures executor ->
  forall k t, notFatal (alignLoop executor move goal k t).
Proof.
  intros (Ha & _ & _). induction k as [|k IH]; intros t; simpl.
  - apply notFatal_ret.
  - chain @notFatal_bind.
    match goal with
    | |- notFatal (if ?b then _ else _) => destruct b
    end; chain @notFatal_bind.
Qed.

Lemma notFatal_tickLoop (executor : ExecutorPhases) (move : Move)
    (currentIndex : nat) (moves : list Move) :
  throwsNoTooManyFailures executor ->
  forall k t adding,
    notFatal (tickLoop executor move currentIndex moves k t adding).
Proof.
  intros (_ & _ & Ht & _). induction k as [|k IH]; intros t adding; simpl.
  - apply notFatal_ret.
  - destruct (falsy adding && (t <? 999)%nat); chain @notFatal_bind.
Qed.

Lemma notFatal_executeMove (executor : ExecutorPhases) (move : Move)
    (goal : Goal) (currentIndex : nat) (moves : list Move) :
  throwsNoTooManyFailures executor ->
  notFatal (executeMove executor move goal currentIndex moves).
Proof.
  intros Hex. pose proof Hex as (Ha & Hi & Ht & _).
  pose proof (notFatal_alignLoop executor move goal Hex).
  pose proof (notFatal_tickLoop executor move currentIndex moves Hex).
  unfold Execution.executeMove. chain @notFatal_bind.
Qed.

Lemma bind_cleanupBot {B : Type} (k : unit -> M B) (c : Config) :
  bind cleanupBot k c = k tt (mkConfig (cleanedBot (this c)) (log c)).
Proof. reflexivity. Qed.

Section Fatal.

(** Neither the path search nor the post-processing touches the control
    inputs, and no executor throws the fatal error of [perform]. *)
Hypothesis search_keeps_controls :
  forall startPos startVel goal s,
    controlStates (bot (fst (getPathFromToRaw startPos startVel goal s)))
    = controlStates (bot s).
Hypothesis postProcess_keeps_controls :
  forall p s,
    controlStates (bot (fst (postProcess p s))) = controlStates (bot s).
Hypothesis executors_throw_no_fatal :
  forall provider executor,
    getExecutor movements provider = Some executor ->
    throwsNoTooManyFailures executor.

Lemma recovery_clearsOnFatal (perform0 : Path -> Goal -> nat -> M unit) :
  (forall path0 goal entry c,
     (entry <= retryCeiling)%nat \/ controls c = [] ->
     clearsOnFatal (perform0 path0 goal entry) c) ->
  forall move path0 goal entry c,
    clearsOnFatal (recovery perform0 move path0 goal entry) c.
Proof.
  intros IH move path0 goal entry c. unfold clearsOnFatal.
  unfold Execution.recovery.
  rewrite (bind_run _ _ _ _ _ (enterRecovery_run entry c)).
  pose proof (entered_controls entry c) as Hc1.
  set (c1 := entered entry c) in *.
  destruct (indexOf (path path0) move =? -1)%Z; [discriminate|].
  rewrite bind_gets.
  destruct (chooseNextMove _ _) as [bad next].
  set (no := (0 <? entry)%nat || bad).
  set (newGoal := match next with
                  | Some target =>
                      if no then goal else GoalBlock_fromVec (vec target)
                  | None => goal
                  end).
  rewrite bind_gets, bind_emit.
  pose proof (search_keeps_controls (position (bot (this c1))) EMPTY_VEC
                newGoal (this c1)) as Hsearch.
  destruct (getPathFromToRaw (position (bot (this c1))) EMPTY_VEC newGoal
              (this c1)) as [s2 [err|found]] eqn:Hfound;
    cbn [fst] in Hsearch.
  { erewrite bind_call_throw by exact Hfound. intros _.
    unfold controls. cbn [fst this]. rewrite Hsearch. exact Hc1. }
  erewrite bind_call_ok by exact Hfound.
  destruct found as [path1|]; [|discriminate].
  pose proof (postProcess_keeps_controls path1 s2) as Hpost.
  destruct (postProcess path1 s2) as [s3 [err|path2]] eqn:Hpp;
    cbn [fst] in Hpost.
  { destruct no; (erewrite bind_call_throw by exact Hpp); intros _;
      unfold controls; cbn [fst this]; rewrite Hpost, Hsearch; exact Hc1. }
  destruct no.
  - erewrite bind_call_ok by exact Hpp. rewrite bind_emit. cbn [this log].
    apply IH. right. unfold controls. cbn [this].
    rewrite Hpost, Hsearch. exact Hc1.
  - erewrite bind_call_ok by exact Hpp. cbn [this log].
    match goal with
    | |- context [bind (perform0 path2 newGoal ?e) _ ?c0] =>
        pose proof (IH path2 newGoal e c0) as IH1;
        unfold clearsOnFatal in IH1;
        destruct (perform0 path2 newGoal e c0) as [c4 [[]|f|]] eqn:Hrun
    end.
    + rewrite (bind_run _ _ _ _ _ Hrun), bind_emit.
      match goal with
      | |- snd (perform0 ?p ?g ?e ?c0) = _ -> _ =>
          apply (IH p g e c0)
      end.
      left. unfold retryCeiling. lia.
    + rewrite (bind_throw _ _ _ _ _ Hrun).
      cbn [fst snd] in *. intros H.
      apply IH1; [|injection H as ->; reflexivity].
      right. unfold controls. cbn [this].
      rewrite Hpost, Hsearch. exact Hc1.
    + rewrite (bind_outOfFuel _ _ _ _ Hrun). discriminate.
Qed.

Lemma performLoop_S (recovery0 : Move -> Path -> Goal -> nat -> M unit)
    (fuel : nat) (path0 : Path) (goal : Goal) (entry currentIndex : nat) :
  performLoop recovery0 (S fuel) path0 goal entry currentIndex
  = match nth_error (path path0) currentIndex with
    | None => ret tt
    | Some move =>
        match getExecutor movements (moveType move) with
        | None => throw (Error "No executor for movement type")
        | Some executor =>
            modify (setCurrent (path path0) move (moveType move)) ;;
            cleanupBot ;;
            call (loadMove executor move) ;;
            let* completed :=
              call (isAlreadyCompleted executor move 0 goal) in
            if completed
            then performLoop recovery0 fuel path0 goal entry (S currentIndex)
            else
              let* adding :=
                tryCatch
                  (let* n := executeMove executor move goal currentIndex
                                         (path path0) in
                   ret (Some n))
                  (fun err =>
                     match err with
                     | AbortError _ =>
                         modify (reset (moveType move)) ;;
                         modify deleteResetReason ;;
                         ret None
                     | ResetError _ =>
                         modify (reset (moveType move)) ;;
                         ret None
                     | CancelError _ =>
                         recovery0 move path0 goal entry ;;
                         ret None
                     | Error _ => throw err
                     end) in
              match adding with
              | None => ret tt
              | Some n =>
                  performLoop recovery0 fuel path0 goal entry
                              (currentIndex + n)
              end
        end
    end.
Proof. reflexivity. Qed.

Lemma performLoop_clearsOnFatal
    (recovery0 : Move -> Path -> Goal -> nat -> M unit) :
  (forall move path0 goal entry c,
     clearsOnFatal (recovery0 move path0 goal entry) c) ->
  forall fuel path0 goal entry currentIndex c,
    clearsOnFatal (performLoop recovery0 fuel path0 goal entry currentIndex)
                  c.
Proof.
  intros Hrec. induction fuel as [|fuel IH];
    intros path0 goal entry currentIndex c;
    apply clearsOnFatal_intro; intros c' Hm.
  - discriminate Hm.
  - rewrite performLoop_S in Hm.
    destruct (nth_error (path path0) currentIndex) as [move|];
      [|discriminate Hm].
    destruct (getExecutor movements (moveType move)) as [executor|] eqn:Hex;
      [|discriminate Hm].
    rewrite bind_modify, bind_cleanupBot in Hm. cbn [this log] in Hm.
    pose proof (executors_throw_no_fatal _ _ Hex)
      as (_ & _ & _ & Hload & Hdone).
    match type of Hm with
    | bind (call (loadMove executor move)) _ ?c0 = _ =>
        pose proof (Hload move (this c0)) as Hl;
        destruct (loadMove executor move (this c0)) as [s1 [err|[]]] eqn:El
    end.
    { erewrite bind_call_throw in Hm by exact El.
      injection Hm as _ ->. exfalso. apply Hl. reflexivity. }
    erewrite bind_call_ok in Hm by exact El. clear Hl.
    match type of Hm with
    | bind (call (isAlreadyCompleted executor move 0 goal)) _ ?c0 = _ =>
        pose proof (Hdone move 0%nat goal (this c0)) as Hd;
        destruct (isAlreadyCompleted executor move 0 goal (this c0))
          as [s2 [err|completed]] eqn:Ed
    end.
    { erewrite bind_call_throw in Hm by exact Ed.
      injection Hm as _ ->. exfalso. apply Hd. reflexivity. }
    erewrite bind_call_ok in Hm by exact Ed. clear Hd.
    destruct completed;
      [exact (clearsOnFatal_elim _ _ _ (IH _ _ _ _ _) Hm)|].
    match type of Hm with
    | bind (tryCatch (bind ?em ?k0) ?h) ?k ?c0 = _ =>
        pose proof (notFatal_executeMove executor move goal currentIndex
                      (path path0) (executors_throw_no_fatal _ _ Hex) c0)
          as Hnot;
        destruct (em c0) as [c4 [n|f|]] eqn:Hrun;
        [ rewrite (bind_run (tryCatch (bind em k0) h) k c0 c4 (Some n)
                     (tryCatch_ok _ _ _ _ _ (bind_run em k0 c0 c4 n Hrun)))
            in Hm
        | pose proof (tryCatch_throw (bind em k0) h c0 c4 f
                        (bind_throw em k0 c0 c4 f Hrun)) as Htry
        | rewrite (bind_outOfFuel (tryCatch (bind em k0) h) k c0 c4
                     (tryCatch_outOfFuel _ _ _ _
                        (bind_outOfFuel em k0 c0 c4 Hrun))) in Hm ]
    end.
    + exact (clearsOnFatal_elim _ _ _ (IH _ _ _ _ _) Hm).
    + cbv beta iota in Htry. unfold bind at 1 in Hm. rewrite Htry in Hm.
      destruct f as [msg|reason|msg|msg].
      * discriminate Hm.
      * discriminate Hm.
      * pose proof (Hrec move path0 goal entry c4) as Hclear.
        unfold bind at 1 in Hm.
        destruct (recovery0 move path0 goal entry c4) as [c5 [[]|f5|]]
          eqn:Hr.
        -- discriminate Hm.
        -- injection Hm as -> ->.
           exact (clearsOnFatal_elim _ _ _ Hclear Hr).
        -- discriminate Hm.
      * exfalso. apply Hnot. injection Hm as _ ->. reflexivity.
    + discriminate Hm.
Qed.

(** A fatal exit of [perform] leaves no control input engaged, provided
    the call started below the ceiling or with nothing engaged. *)
Lemma perform_clearsOnFatal (fuel : nat) :
  forall path0 goal entry c,
    (entry <= retryCeiling)%nat \/ controls c = [] ->
    clearsOnFatal (perform fuel path0 goal entry) c.
Proof.
  induction fuel as [|fuel IH]; intros path0 goal entry c Hpre;
    unfold clearsOnFatal.
  - discriminate.
  - cbn [Execution.perform]. rewrite bind_emit.
    destruct (Nat.ltb_spec retryCeiling entry) as [Hover|Hunder].
    + intros _. cbn [fst]. destruct Hpre as [Hle|Hclear]; [lia|].
      exact Hclear.
    + apply (performLoop_clearsOnFatal _
               (recovery_clearsOnFatal _ IH)).
Qed.

End Fatal.

(** *** The retry counter *)

Lemma within_alignLoop (executor : ExecutorPhases) (move : Move)
    (goal : Goal) (k : nat) :
  forall t, staysWithinCeiling (alignLoop executor move goal k t).
Proof.
  induction k as [|k IH]; intros t; simpl; [apply within_ret|].
  chain @within_bind.
  match goal with
  | |- staysWithinCeiling (if ?b then _ else _) => destruct b
  end; chain @within_bind.
Qed.

Lemma within_tickLoop (executor : ExecutorPhases) (move : Move)
    (currentIndex : nat) (moves : list Move) (k : nat) :
  forall t adding,
    staysWithinCeiling
      (tickLoop executor move currentIndex moves k t adding).
Proof.
  induction k as [|k IH]; intros t adding; simpl; [apply within_ret|].
  destruct (falsy adding && (t <? 999)%nat); chain @within_bind.
Qed.

Lemma within_executeMove (executor : ExecutorPhases) (move : Move)
    (goal : Goal) (currentIndex : nat) (moves : list Move) :
  staysWithinCeiling (executeMove executor move goal currentIndex moves).
Proof.
  pose proof (within_alignLoop executor move goal 999).
  pose proof (within_tickLoop executor move currentIndex moves 999).
  unfold Execution.executeMove. chain @within_bind.
Qed.

Lemma within_cleanupBot : staysWithinCeiling cleanupBot.
Proof. apply within_modify. Qed.

Lemma within_recovery (perform0 : Path -> Goal -> nat -> M unit) :
  (forall path0 goal entry, staysWithinCeiling (perform0 path0 goal entry)) ->
  forall move path0 goal entry,
    (entry <= retryCeiling)%nat ->
    staysWithinCeiling (recovery perform0 move path0 goal entry).
Proof.
  intros Hperf move path0 goal entry Hentry.
  pose proof within_cleanupBot.
  unfold Execution.recovery, Execution.enterRecovery.
  apply within_bind.
  { apply within_bind; [apply within_emit; exact Hentry|]. intros _.
    chain @within_bind. }
  intros _.
  destruct (indexOf (path path0) move =? -1)%Z; [apply within_ret|].
  apply within_bind; [apply within_gets|]. intros pos.
  destruct (chooseNextMove _ _) as [bad next].
  chain @within_bind.
  match goal with
  | |- staysWithinCeiling (match ?found with _ => _ end) =>
      destruct found as [path1|]
  end; [|auto with monad].
  destruct (_ || _); chain @within_bind.
Qed.

Lemma within_performLoop
    (recovery0 : Move -> Path -> Goal -> nat -> M unit) (entry : nat) :
  (forall move path0 goal,
     staysWithinCeiling (recovery0 move path0 goal entry)) ->
  forall fuel path0 goal currentIndex,
    staysWithinCeiling
      (performLoop recovery0 fuel path0 goal entry currentIndex).
Proof.
  intros Hrec. pose proof within_cleanupBot.
  induction fuel as [|fuel IH]; intros path0 goal currentIndex;
    [apply within_outOfFuel|].
  cbn [Execution.performLoop].
  destruct (nth_error (path path0) currentIndex) as [move|];
    [|apply within_ret].
  destruct (getExecutor movements (moveType move)) as [executor|];
    [|apply within_throw].
  pose proof (within_executeMove executor move goal currentIndex
                (path path0)).
  chain @within_bind.
  match goal with
  | |- staysWithinCeiling (if ?b then _ else _) => destruct b
  end; [apply IH|].
  apply within_bind.
  - apply within_tryCatch; [chain @within_bind|].
    intros [msg|reason|msg|msg]; chain @within_bind.
  - intros [n|]; [apply IH|apply within_ret].
Qed.

(** No recovery is entered with the retry counter above the ceiling. *)
Lemma within_perform (fuel : nat) :
  forall path0 goal entry,
    staysWithinCeiling (perform fuel path0 goal entry).
Proof.
  induction fuel as [|fuel IH]; intros path0 goal entry;
    [apply within_outOfFuel|].
  cbn [Execution.perform].
  apply within_bind; [auto with monad|]. intros _.
  destruct (Nat.ltb_spec retryCeiling entry) as [Hover|Hunder];
    [apply within_throw|].
  apply within_performLoop. intros move path1 goal1.
  apply within_recovery; [exact IH|exact Hunder].
Qed.

Lemma perform_over_ceiling (fuel : nat) (path0 : Path) (goal : Goal)
    (entry : nat) (c : Config) :
  (retryCeiling < entry)%nat ->
  perform (S fuel) path0 goal entry c
  = (mkConfig (this c) (log c ++ [CallPerform (path path0) goal entry]),
     Throw tooManyFailures).
Proof.
  intros Hover. cbn [Execution.perform]. rewrite bind_emit.
  apply Nat.ltb_lt in Hover. rewrite Hover. reflexivity.
Qed.


(** *** What gets out of [perform] *)

Lemma only_ret {A : Type} (a : A) : Outcomes.raisesOnlyErrors (ret a).
Proof. intros c f H. discriminate H. Qed.

Lemma only_emit (e : Event) : Outcomes.raisesOnlyErrors (emit e).
Proof. intros c f H. discriminate H. Qed.

Lemma only_modify (f : Pathfinder -> Pathfinder) :
  Outcomes.raisesOnlyErrors (modify f).
Proof. intros c f0 H. discriminate H. Qed.

Lemma only_gets {A : Type} (f : Pathfinder -> A) :
  Outcomes.raisesOnlyErrors (gets f).
Proof. intros c f0 H. discriminate H. Qed.

Lemma only_outOfFuel {A : Type} : Outcomes.raisesOnlyErrors (@outOfFuel A).
Proof. intros c f H. discriminate H. Qed.

Lemma only_throw {A : Type} (message : string) :
  Outcomes.raisesOnlyErrors (@throw A (Error message)).
Proof. intros c f H. injection H as <-. eauto. Qed.

Lemma only_bind {A B : Type} (m : M A) (k : A -> M B) :
  Outcomes.raisesOnlyErrors m ->
  (forall a, Outcomes.raisesOnlyErrors (k a)) ->
  Outcomes.raisesOnlyErrors (bind m k).
Proof.
  intros Hm Hk c f. specialize (Hm c). unfold bind.
  destruct (m c) as [c1 [a|f1|]]; simpl in *.
  - apply Hk.
  - intros H. injection H as <-. apply Hm. reflexivity.
  - intros H. discriminate H.
Qed.

(** A handler that raises only plain errors makes the whole [try] do so,
    whatever its body raises. *)
Lemma only_tryCatch {A : Type} (m : M A) (handler : Failure -> M A) :
  (forall f, Outcomes.raisesOnlyErrors (handler f)) ->
  Outcomes.raisesOnlyErrors (tryCatch m handler).
Proof.
  intros Hh c f. unfold tryCatch.
  destruct (m c) as [c1 [a|f1|]]; simpl.
  - intros H. discriminate H.
  - apply Hh.
  - intros H. discriminate H.
Qed.

#[local] Hint Resolve only_ret only_emit only_modify only_gets
  only_outOfFuel only_throw : monad.

Lemma only_call {A : Type} (f : Pathfinder -> Pathfinder * (Failure + A)) :
  Outcomes.raisesOnlyErrorsCall f -> Outcomes.raisesOnlyErrors (call f).
Proof.
  intros Hf c err. unfold call. specialize (Hf (this c)).
  destruct (f (this c)) as [s [e|a]]; simpl in *.
  - intros H. injection H as <-. apply Hf. reflexivity.
  - intros H. discriminate H.
Qed.

Lemma only_cleanupBot : Outcomes.raisesOnlyErrors cleanupBot.
Proof. apply only_modify. Qed.

Section PlainOutsideTry.

Hypothesis plain_outside_try :
  Outcomes.plainOutsideTry movements getPathFromToRaw postProcess.

Lemma only_recovery (perform0 : Path -> Goal -> nat -> M unit) :
  (forall path0 goal entry,
     Outcomes.raisesOnlyErrors (perform0 path0 goal entry)) ->
  forall move path0 goal entry,
    Outcomes.raisesOnlyErrors (recovery perform0 move path0 goal entry).
Proof.
  intros Hperf move path0 goal entry.
  destruct plain_outside_try as (_ & _ & Hsearch & Hpost).
  assert (Hs : forall startPos startVel g,
             Outcomes.raisesOnlyErrors
               (call (getPathFromToRaw startPos startVel g)))
    by (intros; apply only_call, Hsearch).
  assert (Hp : forall p, Outcomes.raisesOnlyErrors (call (postProcess p)))
    by (intros; apply only_call, Hpost).
  pose proof only_cleanupBot.
  unfold Execution.recovery, Execution.enterRecovery.
  apply only_bind; [chain @only_bind|]. intros _.
  destruct (indexOf (path path0) move =? -1)%Z; [apply only_ret|].
  apply only_bind; [apply only_gets|]. intros pos.
  destruct (chooseNextMove _ _) as [bad next].
  chain @only_bind.
  match goal with
  | |- Outcomes.raisesOnlyErrors (match ?found with _ => _ end) =>
      destruct found as [path1|]
  end; [|auto with monad].
  destruct (_ || _); chain @only_bind.
Qed.

Lemma only_performLoop
    (recovery0 : Move -> Path -> Goal -> nat -> M unit) :
  (forall move path0 goal entry,
     Outcomes.raisesOnlyErrors (recovery0 move path0 goal entry)) ->
  forall fuel path0 goal entry currentIndex,
    Outcomes.raisesOnlyErrors
      (performLoop recovery0 fuel path0 goal entry currentIndex).
Proof.
  intros Hrec. pose proof only_cleanupBot.
  destruct plain_outside_try as (Hload & Hdone & _).
  induction fuel as [|fuel IH]; intros path0 goal entry currentIndex;
    [apply only_outOfFuel|].
  cbn [Execution.performLoop].
  destruct (nth_error (path path0) currentIndex) as [move|];
    [|apply only_ret].
  destruct (getExecutor movements (moveType move)) as [executor|] eqn:Hex;
    [|apply only_throw].
  pose proof (only_call _ (Hload _ _ move Hex)).
  pose proof (only_call _ (Hdone _ _ move 0%nat goal Hex)).
  chain @only_bind.
  match goal with
  | |- Outcomes.raisesOnlyErrors (if ?b then _ else _) => destruct b
  end; [apply IH|].
  apply only_bind.
  - apply only_tryCatch.
    intros [msg|reason|msg|msg]; chain @only_bind.
  - intros [n|]; [apply IH|apply only_ret].
Qed.

Lemma only_perform (fuel : nat) :
  forall path0 goal entry,
    Outcomes.raisesOnlyErrors (perform fuel path0 goal entry).
Proof.
  induction fuel as [|fuel IH]; intros path0 goal entry;
    [apply only_outOfFuel|].
  cbn [Execution.perform].
  apply only_bind; [auto with monad|]. intros _.
  destruct (retryCeiling <? entry)%nat; [apply only_throw|].
  apply only_performLoop. intros move path1 goal1 entry1.
  apply only_recovery. exact IH.
Qed.

End PlainOutsideTry.

(** X12.  What the aligning, the initialization and the ticks of a move
    raise never gets out of [perform] as an abort, a reset or a
    cancellation: the [try] turns each of them into a normal return or a
    recovery.  What [perform] calls outside the [try] is not covered by it:
    [loadMove], [isAlreadyCompleted], the path search and the
    post-processing.  So when those raise nothing but plain errors,
    [perform] raises nothing but plain errors, whatever the phases of the
    executors raise. *)
Theorem perform_raises_only_plain_errors (fuel : nat) (path0 : Path)
    (goal : Goal) (entry : nat) (c : Config) :
  Outcomes.plainOutsideTry movements getPathFromToRaw postProcess ->
  (forall message,
     snd (perform fuel path0 goal entry c) <> Throw (AbortError message))
  /\ (forall reason,
        snd (perform fuel path0 goal entry c) <> Throw (ResetError reason))
  /\ (forall message,
        snd (perform fuel path0 goal entry c)
        <> Throw (CancelError message)).
Proof.
  intros Hplain.
  pose proof (only_perform Hplain fuel path0 goal entry c) as H.
  repeat split; intros x Hx; destruct (H _ Hx) as [message Hm];
    discriminate Hm.
Qed.

(** *** Moves that are completed already *)

Lemma performLoop_completed
    (recovery0 : Move -> Path -> Goal -> nat -> M unit) (path0 : Path)
    (goal : Goal) (entry : nat) :
  Forall (Outcomes.completedAlready movements goal) (path path0) ->
  forall k currentIndex c,
    (currentIndex + k = length (path path0))%nat ->
    snd (performLoop recovery0 (S k) path0 goal entry currentIndex c) = Ok tt
    /\ log (fst (performLoop recovery0 (S k) path0 goal entry currentIndex c))
       = log c.
Proof.
  intros Hall. induction k as [|k IH]; intros currentIndex c Hlen.
  - rewrite performLoop_S.
    replace (nth_error (path path0) currentIndex) with (@None Move);
      [split; reflexivity|].
    symmetry. apply nth_error_None. lia.
  - rewrite performLoop_S.
    destruct (nth_error (path path0) currentIndex) as [move|] eqn:Hnth.
    2:{ apply nth_error_None in Hnth. lia. }
    pose proof (proj1 (List.Forall_forall _ _) Hall move
                  (nth_error_In _ _ Hnth))
      as (executor & Hexec & Hload & Hdone).
    rewrite Hexec.
    rewrite bind_modify, bind_cleanupBot.
    match goal with
    | |- context [bind (call (loadMove executor move)) _ ?c0] =>
        set (c1 := c0)
    end.
    pose proof (Hload (this c1)) as Hl.
    destruct (loadMove executor move (this c1)) as [s1 r1] eqn:E1.
    simpl in Hl. subst r1.
    rewrite !(bind_call_ok _ _ _ _ _ E1).
    pose proof (Hdone s1) as Hd.
    destruct (isAlreadyCompleted executor move 0 goal s1) as [s2 r2] eqn:E2.
    simpl in Hd. subst r2.
    rewrite !(bind_call_ok _ _ (mkConfig s1 (log c1)) _ _ E2).
    destruct (IH (S currentIndex) (mkConfig s2 (log c1))) as [Hres Hlog];
      [lia|].
    split; [exact Hres|exact Hlog].
Qed.

(** X13.  A path all of whose moves are loaded and found completed already
    by their executors is performed without aligning, initializing or running any
    move and without entering recovery: [perform] returns having done
    nothing that is observed but being called. *)
Theorem perform_skips_completed_moves (path0 : Path) (goal : Goal)
    (entry : nat) (c : Config) :
  (entry <= retryCeiling)%nat ->
  Forall (Outcomes.completedAlready movements goal) (path path0) ->
  snd (perform (S (S (length (path path0)))) path0 goal entry c) = Ok tt
  /\ log (fst (perform (S (S (length (path path0)))) path0 goal entry c))
     = log c ++ [CallPerform (path path0) goal entry].
Proof.
  intros Hentry Hall.
  cbn [Execution.perform]. rewrite bind_emit.
  replace (retryCeiling <? entry)%nat with false
    by (symmetry; apply Nat.ltb_ge; exact Hentry).
  apply (performLoop_completed _ path0 goal entry Hall
           (length (path path0)) 0%nat).
  reflexivity.
Qed.

(** *** Interrupts that are pending when recovery starts *)

Lemma resets_executors (l : list (nat * ExecutorPhases)) (s : Pathfinder) :
  fold_left (fun acc entry => reset (fst entry) acc) l s
  = withExecutors
      (fold_left
         (fun m entry => <[fst entry := Executor.mkExecutor false None]> m)
         l (executors s))
      s.
Proof.
  revert s. induction l as [|e l IH]; intros s; simpl.
  - destruct s. reflexivity.
  - rewrite IH. reflexivity.
Qed.

Lemma entered_flags (entry : nat) (s : Pathfinder) (l : list Event)
    (a u : bool) (r : option ResetReason) :
  entered entry
    (mkConfig
       (Interrupts.withUserAborted u
          (Interrupts.withResetReason r
             (Interrupts.withAbortCalculation a s))) l)
  = entered entry (mkConfig s l).
Proof.
  unfold Execution.entered, Execution.cleanedBot. cbn [this log].
  rewrite !resets_executors. reflexivity.
Qed.

(** X14.  A cancellation by the user or a reset that is pending when
    recovery starts is lost: recovery goes on exactly as if none had been
    asked for, since it clears the flags before it looks at anything. *)
Theorem recovery_forgets_pending_interrupts
    (perform0 : Path -> Goal -> nat -> M unit) (move : Move) (path0 : Path)
    (goal : Goal) (entry : nat) (s : Pathfinder) (l : list Event)
    (a u : bool) (r : option ResetReason) :
  recovery perform0 move path0 goal entry
    (mkConfig
       (Interrupts.withUserAborted u
          (Interrupts.withResetReason r
             (Interrupts.withAbortCalculation a s))) l)
  = recovery perform0 move path0 goal entry (mkConfig s l).
Proof.
  unfold Execution.recovery.
  rewrite !(bind_run _ _ _ _ _ (enterRecovery_run entry _)).
  rewrite entered_flags. reflexivity.
Qed.

(** *** A move that is never done *)

Lemma cleanedBot_quiet (s : Pathfinder) : quiet s -> quiet (cleanedBot s).
Proof.
  unfold quiet, Execution.cleanedBot. rewrite resets_executors.
  simpl. tauto.
Qed.

Lemma stays_ret {A : Type} (P : A -> Prop) (a : A) :
  P a -> Retries.stays P (ret a).
Proof.
  intros Ha c Hq. exists c, a.
  split; [reflexivity|split; assumption].
Qed.

Lemma stays_emit (e : Event) : Retries.stays (fun _ => True) (emit e).
Proof.
  intros c Hq. eexists _, tt.
  split; [reflexivity|split; [exact Hq|exact I]].
Qed.

Lemma stays_modify (f : Pathfinder -> Pathfinder) :
  (forall s, quiet s -> quiet (f s)) ->
  Retries.stays (fun _ => True) (modify f).
Proof.
  intros Hf c Hq. eexists _, tt. split; [reflexivity|].
  split; [apply Hf; exact Hq|exact I].
Qed.

Lemma stays_check : Retries.stays (fun _ => True) check.
Proof.
  intros c Hq. exists c, tt. split; [apply check_quiet; exact Hq|].
  split; [exact Hq|exact I].
Qed.

Lemma stays_call {A : Type} (P : A -> Prop)
    (f : Pathfinder -> Pathfinder * (Failure + A)) :
  (forall s, quiet s -> quiet (fst (f s))) ->
  (forall s, exists a, snd (f s) = inr a /\ P a) ->
  Retries.stays P (call f).
Proof.
  intros Hq Ha c Hc. unfold call.
  specialize (Hq (this c) Hc). destruct (Ha (this c)) as (a & Hr & HP).
  destruct (f (this c)) as [s r]. simpl in *. subst r.
  eexists _, a. split; [reflexivity|]. split; assumption.
Qed.

Lemma stays_bind {A B : Type} (P : A -> Prop) (Q : B -> Prop) (m : M A)
    (k : A -> M B) :
  Retries.stays P m -> (forall a, P a -> Retries.stays Q (k a)) ->
  Retries.stays Q (bind m k).
Proof.
  intros Hm Hk c Hc. destruct (Hm c Hc) as (c1 & a & Hrun & Hq1 & Ha).
  rewrite (bind_run _ _ _ _ _ Hrun). apply (Hk a Ha). exact Hq1.
Qed.

Section NeverDone.

Variable executor : ExecutorPhases.
Variable move : Move.
Variable goal : Goal.

Hypothesis never_done : Retries.neverDone executor move goal.
Hypothesis nothing_flagged :
  Retries.undisturbed waitForTicks executor move goal.

Lemma stays_alignLoop (k : nat) :
  forall t, Retries.stays (fun _ => True) (alignLoop executor move goal k t).
Proof.
  destruct never_done as (_ & _ & Halign & _).
  destruct nothing_flagged as (_ & _ & Hqalign & _ & _ & Hwait).
  induction k as [|k IH]; intros t; simpl.
  - apply stays_ret. exact I.
  - apply (stays_bind (fun _ => True)); [apply stays_emit|]. intros _ _.
    apply (stays_bind (fun _ => True)).
    { apply stays_call; [apply Hqalign|].
      intros s. destruct (Halign t s) as [b Hb]. eauto. }
    intros aligned _.
    destruct (negb aligned && (S t <? 999)%nat);
      [|apply stays_ret; exact I].
    apply (stays_bind (fun _ => True)); [apply stays_check|]. intros _ _.
    apply (stays_bind (fun _ => True)); [apply stays_modify, Hwait|].
    intros _ _. apply IH.
Qed.

Lemma stays_tickLoop (i : nat) (moves : list Move) (k : nat) :
  forall t,
    Retries.stays (fun a => a = AFalse)
                  (tickLoop executor move i moves k t AFalse).
Proof.
  destruct never_done as (_ & _ & _ & _ & Htick).
  destruct nothing_flagged as (_ & _ & _ & _ & Hqtick & Hwait).
  induction k as [|k IH]; intros t; simpl.
  - apply stays_ret. reflexivity.
  - destruct (t <? 999)%nat; [|apply stays_ret; reflexivity].
    apply (stays_bind (fun _ => True)); [apply stays_check|]. intros _ _.
    apply (stays_bind (fun _ => True)); [apply stays_modify, Hwait|].
    intros _ _.
    apply (stays_bind (fun _ => True)); [apply stays_emit|]. intros _ _.
    apply (stays_bind (fun a => a = AFalse)).
    { apply stays_call; [apply Hqtick|]. intros s. eauto. }
    intros a ->. apply IH.
Qed.

Lemma stays_executeMove (i : nat) (moves : list Move) :
  Retries.stays (fun n => n = 0%nat) (executeMove executor move goal i moves).
Proof.
  destruct never_done as (_ & _ & _ & Hinit & Htick).
  destruct nothing_flagged as (_ & _ & _ & Hqinit & Hqtick & _).
  unfold Execution.executeMove.
  apply (stays_bind (fun _ => True)); [apply stays_alignLoop|]. intros _ _.
  apply (stays_bind (fun _ => True)); [apply stays_emit|]. intros _ _.
  apply (stays_bind (fun _ => True)).
  { apply stays_call; [apply Hqinit|]. intros s. exists tt. eauto. }
  intros _ _.
  apply (stays_bind (fun _ => True)); [apply stays_check|]. intros _ _.
  apply (stays_bind (fun _ => True)); [apply stays_emit|]. intros _ _.
  apply (stays_bind (fun a => a = AFalse)).
  { apply stays_call; [apply Hqtick|]. intros s. eauto. }
  intros a ->.
  apply (stays_bind (fun a => a = AFalse)); [apply stays_tickLoop|].
  intros a ->. apply stays_ret. reflexivity.
Qed.

Lemma performLoop_never_done
    (recovery0 : Move -> Path -> Goal -> nat -> M unit) (path0 : Path)
    (entry index : nat) :
  nth_error (path path0) index = Some move ->
  getExecutor movements (moveType move) = Some executor ->
  forall fuel c,
    quiet (this c) ->
    snd (performLoop recovery0 fuel path0 goal entry index c) = OutOfFuel.
Proof.
  intros Hnth Hexec.
  destruct never_done as (Hloaded & Hcompleted & _).
  destruct nothing_flagged as (Hload & Hcheck & _).
  induction fuel as [|fuel IH]; intros c Hq; [reflexivity|].
  rewrite performLoop_S, Hnth, Hexec.
  rewrite bind_modify, bind_cleanupBot.
  match goal with
  | |- context [bind (call (loadMove executor move)) _ ?c0] =>
      set (c0' := c0)
  end.
  assert (Hq0 : quiet (this c0'))
    by (subst c0'; cbn [this]; apply cleanedBot_quiet; exact Hq).
  pose proof (Hloaded (this c0')) as Hl.
  pose proof (Hload (this c0') Hq0) as Hql.
  destruct (loadMove executor move (this c0')) as [s1 r1] eqn:E1.
  simpl in Hl, Hql. subst r1.
  rewrite (bind_call_ok _ _ _ _ _ E1).
  pose proof (Hcompleted s1) as Hd.
  pose proof (Hcheck s1 Hql) as Hqd.
  destruct (isAlreadyCompleted executor move 0 goal s1) as [s2 r2] eqn:E2.
  simpl in Hd, Hqd. subst r2.
  rewrite (bind_call_ok _ _ (mkConfig s1 (log c0')) _ _ E2).
  set (c1 := mkConfig s2 (log c0')).
  assert (Hq1 : quiet (this c1)) by exact Hqd.
  destruct (stays_executeMove index (path path0) c1 Hq1)
    as (c2 & n & Hrun & Hq2 & ->).
  rewrite (bind_run _ _ c1 c2 (Some 0%nat)).
  - rewrite Nat.add_0_r. apply IH. exact Hq2.
  - apply tryCatch_ok. rewrite (bind_run _ _ _ _ _ Hrun). reflexivity.
Qed.

End NeverDone.

(** X19.  A move whose per-tick phase answers false on every tick is not
    given up when the tick ceiling of 999 is reached: the path index is
    advanced by zero and the same move is run again from its alignment.
    With no abort and no reset flagged and no method of the executor
    throwing, [perform] therefore never returns, however long it runs. *)
Theorem perform_retries_unfinished_move_forever
    (executor : ExecutorPhases) (move : Move) (path0 : Path) (goal : Goal)
    (entry fuel : nat) (c : Config) :
  nth_error (path path0) 0 = Some move ->
  getExecutor movements (moveType move) = Some executor ->
  (entry <= retryCeiling)%nat ->
  Retries.neverDone executor move goal ->
  Retries.undisturbed waitForTicks executor move goal ->
  quiet (this c) ->
  snd (perform fuel path0 goal entry c) = OutOfFuel.
Proof.
  intros Hnth Hexec Hentry Hnever Hund Hq.
  destruct fuel as [|fuel]; [reflexivity|].
  cbn [Execution.perform]. rewrite bind_emit.
  replace (retryCeiling <? entry)%nat with false
    by (symmetry; apply Nat.ltb_ge; exact Hentry).
  apply (performLoop_never_done executor move goal Hnever Hund _ path0 entry
           0%nat Hnth Hexec).
  exact Hq.
Qed.

(** *** Which failed moves get the short replan *)

Lemma chooseNextMove_first (sorted : list Move) :
  sorted <> [] ->
  chooseNextMove sorted 0 = (false, nth_error sorted 1).
Proof.
  intros Hne. destruct sorted as [|n rest]; [contradiction|].
  unfold chooseNextMove. cbn [head]. rewrite indexOf_head. reflexivity.
Qed.

(** X25.  Since the path is sorted in place before the nearest move is
    looked up in it, the nearest move is always found at index 0.  Recovery
    therefore replans to the original goal whenever the failed move was not
    the first move of the path, wherever the agent is, and heads for an
    interim goal only when the failed move was the first one and the retry
    counter is zero; the interim goal is then the second entry of the sorted
    path, and the sorted path without its first entry is resumed. *)
Theorem recovery_interim_only_for_first_move
    (perform0 : Path -> Goal -> nat -> M unit) (move : Move) (path0 : Path)
    (goal : Goal) (entry : nat) (c : Config) :
  (0 <= indexOf (path path0) move)%Z ->
  recovery perform0 move path0 goal entry c
  = if (0 <? entry)%nat || (0 <? indexOf (path path0) move)%Z
    then (enterRecovery entry ;; replanToGoal perform0 goal entry) c
    else (enterRecovery entry ;;
          replanToInterimGoal perform0
            (match nth_error
                     (sortByDistance (position (bot (this c))) (path path0))
                     1 with
             | Some target => GoalBlock_fromVec (vec target)
             | None => goal
             end)
            goal entry
            (mkPath (status path0)
               (skipn 1 (sortByDistance (position (bot (this c)))
                                        (path path0)))))
           c.
Proof.
  intros Hind.
  destruct (Z.ltb_spec 0 (indexOf (path path0) move)) as [Hlater|Hfirst].
  { rewrite orb_true_r. apply recovery_full_replan; [exact Hind|].
    rewrite chooseNextMove_regressed by exact Hlater. apply orb_true_r. }
  rewrite orb_false_r.
  destruct (Nat.ltb_spec 0 entry) as [Hretry|Hzero].
  { apply recovery_full_replan; [exact Hind|].
    apply Nat.ltb_lt in Hretry. rewrite Hretry. reflexivity. }
  assert (Hz : indexOf (path path0) move = 0%Z) by lia.
  assert (Hne : sortByDistance (position (bot (this c))) (path path0) <> []).
  { intros H. apply sortByDistance_nil in H. rewrite H in Hz.
    discriminate Hz. }
  rewrite (recovery_interim_replan perform0 move path0 goal entry c
             (nth_error
                (sortByDistance (position (bot (this c))) (path path0)) 1)).
  - rewrite Hz. reflexivity.
  - exact Hind.
  - lia.
  - rewrite Hz. apply chooseNextMove_first. exact Hne.
Qed.

End Perform.



(** An executor that never gets aligned, on the only move of a path. *)
Lemma executeMove_never_aligned_witness :
  (forall t s,
     snd (align ExecutionExamples.neverAligned (ExecutionExamples.step 0) t
                (GoalOf 0) s) = inr false)
  /\ quiet (this (ExecutionExamples.startAt ExecutionExamples.origin))
  /\ In (CallPerformInit (ExecutionExamples.step 0) 0)
        (log (fst (executeMove ExecutionExamples.noWait
                     ExecutionExamples.neverAligned
                     (ExecutionExamples.step 0) (GoalOf 0) 0
                     [ExecutionExamples.step 0]
                     (ExecutionExamples.startAt ExecutionExamples.origin)))).
Proof.
  assert (H1 : forall t s,
             snd (align ExecutionExamples.neverAligned
                        (ExecutionExamples.step 0) t (GoalOf 0) s)
             = inr false) by reflexivity.
  assert (H2 : quiet (this (ExecutionExamples.startAt
                              ExecutionExamples.origin)))
    by (split; reflexivity).
  split; [exact H1|]. split; [exact H2|].
  destruct (executeMove_enters_init_after_align_ceiling
              ExecutionExamples.noWait ExecutionExamples.neverAligned
              (ExecutionExamples.step 0) (GoalOf 0) 0
              [ExecutionExamples.step 0]
              (ExecutionExamples.startAt ExecutionExamples.origin)
              H1 (fun t s Hq => Hq) (fun s Hq => Hq) H2)
    as (c1 & _ & _ & _ & Hin).
  exact Hin.
Defined.

(** C3 as stated fails: [perform] on a one-move path whose executor never
    gets aligned polls the alignment 999 times, then initializes the move and
    performs its first tick, on which the move completes; the path ends
    normally and no recovery is entered. *)
Lemma perform_never_aligned_runs_the_move :
  let run := ExecutionExamples.performWith ExecutionExamples.neverAligned
               ExecutionExamples.alreadyThere 5
               (ExecutionExamples.corridor 1) (GoalOf 0) 0
               (ExecutionExamples.startAt ExecutionExamples.origin) in
  snd run = Ok tt
  /\ filter (fun e => ExecutionExamples.isCallAlign e = true) (log (fst run))
     = map (CallAlign (ExecutionExamples.step 0)) (seq 0 999)
  /\ filter (fun e => ExecutionExamples.isCallPhase e = true) (log (fst run))
     = [CallPerformInit (ExecutionExamples.step 0) 0;
        CallPerformPerTick (ExecutionExamples.step 0) 0 0]
  /\ filter (fun e => ExecutionExamples.isEnteredRecovery e = true)
            (log (fst run)) = [].
Proof. vm_compute. repeat split; reflexivity. Qed.

(** C1.  The scenario of the specification, run: the move at index 4 of a
    path of ten fails with the retry counter at zero and the agent at the
    entry of the move at index 5, which is the nearest move and lies later
    in the path.  The array of moves is sorted in place before the index of
    the nearest move is looked up in it, so that index is 0, is judged to
    lie before 4, and the search counts as regressed: the one path search
    of recovery is for the original goal, not for the nearby move, and the
    only call of [perform] is for the path found, so nothing of the
    original path is resumed. *)
Theorem recovery_at_index_4_of_10_replans_to_goal :
  nearest (ExecutionExamples.along 5) (path (ExecutionExamples.corridor 10))
  = Some (ExecutionExamples.step 5)
  /\ indexOf (path (ExecutionExamples.corridor 10)) (ExecutionExamples.step 4)
     = 4%Z
  /\ indexOf (path (ExecutionExamples.corridor 10)) (ExecutionExamples.step 5)
     = 5%Z
  /\ indexOf (sortByDistance (ExecutionExamples.along 5)
                 (path (ExecutionExamples.corridor 10)))
       (ExecutionExamples.step 5)
     = 0%Z
  /\ chooseNextMove (sortByDistance (ExecutionExamples.along 5)
                        (path (ExecutionExamples.corridor 10))) 4
     = (true, Some (ExecutionExamples.step 5))
  /\ ExecutionExamples.recoveryWith ExecutionExamples.tooLow
       ExecutionExamples.alreadyThere 5
       (ExecutionExamples.step 4) (ExecutionExamples.corridor 10)
       (GoalOf 0) 0
       (ExecutionExamples.startAt (ExecutionExamples.along 5))
     = (mkConfig
          (mkPathfinder (mkBot (ExecutionExamples.along 5) [])
             false false None None None None None
             {[ 0%nat := Executor.mkExecutor false None ]})
          [enteredRecovery 0;
           CallGetPathFromToRaw (ExecutionExamples.along 5) (GoalOf 0);
           exitedRecovery 0;
           CallPerform [] (GoalOf 0) 1],
        Ok tt).
Proof. vm_compute. repeat split; reflexivity. Qed.

(** Every move cancels while it is aligned and every replan finds a path:
    what comes out of [perform] in the end is the plain error of the retry
    ceiling, and no cancellation. *)
Lemma perform_raises_only_plain_errors_witness :
  Outcomes.plainOutsideTry [(0%nat, ExecutionExamples.tooLow)]
    ExecutionExamples.oneStep ExecutionExamples.keepPath
  /\ (forall message,
        snd (ExecutionExamples.performWith ExecutionExamples.tooLow
               ExecutionExamples.oneStep 40 (ExecutionExamples.corridor 3)
               (GoalOf 0) 0
               (ExecutionExamples.startAt ExecutionExamples.origin))
        <> Throw (AbortError message))
  /\ (forall reason,
        snd (ExecutionExamples.performWith ExecutionExamples.tooLow
               ExecutionExamples.oneStep 40 (ExecutionExamples.corridor 3)
               (GoalOf 0) 0
               (ExecutionExamples.startAt ExecutionExamples.origin))
        <> Throw (ResetError reason))
  /\ (forall message,
        snd (ExecutionExamples.performWith ExecutionExamples.tooLow
               ExecutionExamples.oneStep 40 (ExecutionExamples.corridor 3)
               (GoalOf 0) 0
               (ExecutionExamples.startAt ExecutionExamples.origin))
        <> Throw (CancelError message)).
Proof.
  assert (H : Outcomes.plainOutsideTry [(0%nat, ExecutionExamples.tooLow)]
                ExecutionExamples.oneStep ExecutionExamples.keepPath).
  { split; [|split; [|split]].
    - intros provider executor move.
      destruct provider as [|provider]; simpl; intros E; [|discriminate E].
      injection E as <-. intros s err Herr. discriminate Herr.
    - intros provider executor move t goal.
      destruct provider as [|provider]; simpl; intros E; [|discriminate E].
      injection E as <-. intros s err Herr. discriminate Herr.
    - intros startPos startVel goal s err Herr. discriminate Herr.
    - intros p s err Herr. discriminate Herr. }
  split; [exact H|].
  exact (perform_raises_only_plain_errors
           [(0%nat, ExecutionExamples.tooLow)] ExecutionExamples.oneStep
           ExecutionExamples.keepPath ExecutionExamples.noWait 40%nat
           (ExecutionExamples.corridor 3) (GoalOf 0) 0%nat
           (ExecutionExamples.startAt ExecutionExamples.origin) H).
Defined.

(** The check for completion is made outside the [try] of [perform]: a
    cancellation it raises gets out of [perform] as it is, and no recovery
    is entered. *)
Example perform_lets_a_cancelled_check_out :
  snd (ExecutionExamples.performWith OutcomeExamples.cancelsEarly
         ExecutionExamples.oneStep 40 (ExecutionExamples.corridor 3)
         (GoalOf 0) 0 (ExecutionExamples.startAt ExecutionExamples.origin))
  = Throw (CancelError "not reachable")
  /\ log (fst (ExecutionExamples.performWith OutcomeExamples.cancelsEarly
                 ExecutionExamples.oneStep 40 (ExecutionExamples.corridor 3)
                 (GoalOf 0) 0
                 (ExecutionExamples.startAt ExecutionExamples.origin)))
     = [CallPerform (path (ExecutionExamples.corridor 3)) (GoalOf 0) 0].
Proof. vm_compute. split; reflexivity. Qed.

(** The path search of recovery runs in the [catch] of [perform], which no
    [try] covers: a cancellation it raises gets out of [perform] as it is,
    after the one recovery that was entered. *)
Example perform_lets_a_cancelled_search_out :
  snd (ExecutionExamples.performWith ExecutionExamples.tooLow
         OutcomeExamples.cancelledSearch 40 (ExecutionExamples.corridor 3)
         (GoalOf 0) 0 (ExecutionExamples.startAt ExecutionExamples.origin))
  = Throw (CancelError "search cancelled")
  /\ List.filter ExecutionExamples.isEnteredRecovery
       (log (fst (ExecutionExamples.performWith ExecutionExamples.tooLow
                    OutcomeExamples.cancelledSearch 40
                    (ExecutionExamples.corridor 3) (GoalOf 0) 0
                    (ExecutionExamples.startAt ExecutionExamples.origin))))
     = [enteredRecovery 0].
Proof. vm_compute. split; reflexivity. Qed.

(** Three moves that their executor finds completed: nothing but the call
    of [perform] is observed. *)
Lemma perform_skips_completed_moves_witness :
  (0 <= retryCeiling)%nat
  /\ Forall (Outcomes.completedAlready
               [(0%nat, OutcomeExamples.alreadyDone)] (GoalOf 0))
            (path (ExecutionExamples.corridor 3))
  /\ log (fst (ExecutionExamples.performWith OutcomeExamples.alreadyDone
                 ExecutionExamples.oneStep 5 (ExecutionExamples.corridor 3)
                 (GoalOf 0) 0
                 (ExecutionExamples.startAt ExecutionExamples.origin)))
     = [CallPerform (path (ExecutionExamples.corridor 3)) (GoalOf 0) 0].
Proof.
  assert (Hle : (0 <= retryCeiling)%nat) by (unfold retryCeiling; lia).
  assert (Hall : Forall (Outcomes.completedAlready
                           [(0%nat, OutcomeExamples.alreadyDone)] (GoalOf 0))
                        (path (ExecutionExamples.corridor 3))).
  { repeat (apply List.Forall_cons;
              [exists OutcomeExamples.alreadyDone;
               split; [reflexivity|split; intros s; reflexivity]|]).
    apply List.Forall_nil. }
  split; [exact Hle|]. split; [exact Hall|].
  exact (proj2 (perform_skips_completed_moves
                  [(0%nat, OutcomeExamples.alreadyDone)]
                  ExecutionExamples.oneStep ExecutionExamples.keepPath
                  ExecutionExamples.noWait (ExecutionExamples.corridor 3)
                  (GoalOf 0) 0%nat
                  (ExecutionExamples.startAt ExecutionExamples.origin)
                  Hle Hall)).
Defined.

(** A forward move held up by an interaction that does not end: however
    long [perform] runs, it does not return. *)
Lemma perform_retries_witness :
  nth_error (path (ExecutionExamples.corridor 1)) 0
  = Some (ExecutionExamples.step 0)
  /\ getExecutor [(0%nat, RetryExamples.blockedForward)]
       (moveType (ExecutionExamples.step 0))
     = Some RetryExamples.blockedForward
  /\ (0 <= retryCeiling)%nat
  /\ Retries.neverDone RetryExamples.blockedForward
       (ExecutionExamples.step 0) (GoalOf 0)
  /\ Retries.undisturbed ExecutionExamples.noWait
       RetryExamples.blockedForward (ExecutionExamples.step 0) (GoalOf 0)
  /\ quiet (this (ExecutionExamples.startAt ExecutionExamples.origin))
  /\ snd (ExecutionExamples.performWith RetryExamples.blockedForward
            ExecutionExamples.oneStep 100 (ExecutionExamples.corridor 1)
            (GoalOf 0) 0
            (ExecutionExamples.startAt ExecutionExamples.origin))
     = OutOfFuel.
Proof.
  assert (H1 : nth_error (path (ExecutionExamples.corridor 1)) 0
               = Some (ExecutionExamples.step 0)) by reflexivity.
  assert (H2 : getExecutor [(0%nat, RetryExamples.blockedForward)]
                 (moveType (ExecutionExamples.step 0))
               = Some RetryExamples.blockedForward) by reflexivity.
  assert (H3 : (0 <= retryCeiling)%nat) by (unfold retryCeiling; lia).
  assert (H4 : Retries.neverDone RetryExamples.blockedForward
                 (ExecutionExamples.step 0) (GoalOf 0)).
  { split; [reflexivity|]. split; [reflexivity|].
    split; [intros t s; exists true; reflexivity|].
    split; reflexivity. }
  assert (H5 : Retries.undisturbed ExecutionExamples.noWait
                 RetryExamples.blockedForward (ExecutionExamples.step 0)
                 (GoalOf 0)).
  { split; [intros s H; exact H|]. split; [intros s H; exact H|].
    split; [intros t s H; exact H|].
    split; [intros i moves s H; exact H|].
    split; [intros t i moves s H; exact H|]. intros s H; exact H. }
  assert (H6 : quiet (this (ExecutionExamples.startAt
                              ExecutionExamples.origin)))
    by (split; reflexivity).
  split; [exact H1|]. split; [exact H2|]. split; [exact H3|].
  split; [exact H4|]. split; [exact H5|]. split; [exact H6|].
  exact (perform_retries_unfinished_move_forever
           [(0%nat, RetryExamples.blockedForward)] ExecutionExamples.oneStep
           ExecutionExamples.keepPath ExecutionExamples.noWait
           RetryExamples.blockedForward (ExecutionExamples.step 0)
           (ExecutionExamples.corridor 1) (GoalOf 0) 0%nat 100%nat
           (ExecutionExamples.startAt ExecutionExamples.origin)
           H1 H2 H3 H4 H5 H6).
Defined.

(** The second move of a corridor fails with the agent at the start of the
    third: the replan goes to the original goal, although the agent is
    ahead of the failed move. *)
Lemma recovery_interim_only_for_first_move_witness :
  (0 <= indexOf (path (ExecutionExamples.corridor 3))
                (ExecutionExamples.step 1))%Z
  /\ recovery [(0%nat, ExecutionExamples.tooLow)] ExecutionExamples.oneStep
       ExecutionExamples.keepPath (fun _ _ _ => ret tt)
       (ExecutionExamples.step 1) (ExecutionExamples.corridor 3) (GoalOf 0)
       0 (ExecutionExamples.startAt (ExecutionExamples.along 2))
     = (enterRecovery [(0%nat, ExecutionExamples.tooLow)] 0 ;;
        replanToGoal ExecutionExamples.oneStep ExecutionExamples.keepPath
          (fun _ _ _ => ret tt) (GoalOf 0) 0)
         (ExecutionExamples.startAt (ExecutionExamples.along 2)).
Proof.
  assert (H : (0 <= indexOf (path (ExecutionExamples.corridor 3))
                            (ExecutionExamples.step 1))%Z)
    by (vm_compute; discriminate).
  split; [exact H|].
  exact (recovery_interim_only_for_first_move
           [(0%nat, ExecutionExamples.tooLow)] ExecutionExamples.oneStep
           ExecutionExamples.keepPath (fun _ _ _ => ret tt)
           (ExecutionExamples.step 1) (ExecutionExamples.corridor 3)
           (GoalOf 0) 0%nat
           (ExecutionExamples.startAt (ExecutionExamples.along 2)) H).
Defined.

End ExecutionFacts.

(** ** What one expansion of the providers yields *)

Module ProviderStepsFacts.
Import Geometry Providers ProviderSteps.

Lemma getMoveForward_walkable (m : Movement) (start : Move) (dir : BlockPos)
    (neighbors : list Candidate) :
  getMoveForward m start dir neighbors
  = neighbors ++ (if walkable m (toVec start) dir
                  then [forwardCandidate start dir] else []).
Proof.
  unfold getMoveForward, walkable.
  destruct (physical (getBlockInfo m (toVec start) (bx dir) (-1) (bz dir)));
    simpl; [|rewrite app_nil_r; reflexivity].
  destruct (physical (getBlockInfo m (toVec start) (bx dir) 1 (bz dir)));
    simpl; [rewrite app_nil_r; reflexivity|].
  destruct (physical (getBlockInfo m (toVec start) (bx dir) 0 (bz dir)));
    simpl; [rewrite app_nil_r; reflexivity|reflexivity].
Qed.

Lemma forward_fold (m : Movement) (start : Move) (dirs : list BlockPos) :
  forall storage,
    fold_left (fun acc dir => getMoveForward m start dir acc) dirs storage
    = storage ++ map (forwardCandidate start)
                     (List.filter (walkable m (toVec start)) dirs).
Proof.
  induction dirs as [|dir dirs IH]; intros storage; simpl.
  - rewrite app_nil_r. reflexivity.
  - rewrite IH, getMoveForward_walkable.
    destruct (walkable m (toVec start) dir); simpl.
    + rewrite <- app_assoc. reflexivity.
    + rewrite app_nil_r. reflexivity.
Qed.

(** X1.  One expansion of the forward provider keeps what is stored and
    appends one candidate for each cardinal direction that is walkable, in
    the order of the directions: at most four, each of cost 1, leaving at
    the centre of the neighbouring block and needing no interaction. *)
Theorem provideMovementsForward_walkable_directions
    (m : Movement) (start : Move) (storage : list Candidate) :
  provideMovementsForward m start storage
  = storage ++ map (forwardCandidate start)
                   (List.filter (walkable m (toVec start)) cardinalDirs)
  /\ (length (provideMovementsForward m start storage)
      <= length storage + 4)%nat.
Proof.
  unfold provideMovementsForward. rewrite forward_fold. split; [reflexivity|].
  rewrite length_app, length_map.
  pose proof (List.filter_length_le (walkable m (toVec start)) cardinalDirs)
    as Hle.
  simpl length in Hle at 2. lia.
Qed.

Lemma jumpUpCosts_shape (m : Movement) (node : Move)
    (blockA blockH blockB : BlockInfo) (cost : Q)
    (toPlace : list PlaceHandler) (toBreak : list BreakHandler)
    (neighbors : list Candidate) :
  jumpUpCosts m node blockA blockH blockB cost toPlace toBreak neighbors
  = neighbors
  \/ exists c,
       jumpUpCosts m node blockA blockH blockB cost toPlace toBreak neighbors
       = neighbors ++ [c]
       /\ c_cost c <= 100 /\ c_toPlace c = toPlace /\ c_prev c = node
       /\ c_moveType c = ForwardJumpMove
       /\ c_exitPos c = blockCenter (position blockB).
Proof.
  unfold jumpUpCosts.
  destruct (safeOrBreak m blockA toBreak) as [cA tb1].
  destruct (Qlt_le_dec 100 (cost + cA)); [left; reflexivity|].
  destruct (safeOrBreak m blockH tb1) as [cH tb2].
  destruct (Qlt_le_dec 100 (cost + cA + cH)); [left; reflexivity|].
  destruct (safeOrBreak m blockB tb2) as [cB tb3].
  destruct (Qlt_le_dec 100 (cost + cA + cH + cB)) as [|Hle];
    [left; reflexivity|].
  right. eexists. split; [reflexivity|]. simpl.
  repeat split; try reflexivity. exact Hle.
Qed.

Lemma jumpUpTail_shape (m : Movement) (node : Move)
    (blockA blockH blockB : BlockInfo) (cHeight : Q)
    (toPlace : list PlaceHandler) (toBreak : list BreakHandler)
    (neighbors : list Candidate) :
  jumpUpTail m node blockA blockH blockB cHeight toPlace toBreak neighbors
  = neighbors
  \/ exists c,
       jumpUpTail m node blockA blockH blockB cHeight toPlace toBreak
                  neighbors
       = neighbors ++ [c]
       /\ cHeight - height (getBlockInfo m (toVec node) 0 (-1) 0) <= 12 # 10
       /\ c_cost c <= 100 /\ c_toPlace c = toPlace /\ c_prev c = node
       /\ c_moveType c = ForwardJumpMove
       /\ c_exitPos c = blockCenter (position blockB).
Proof.
  unfold jumpUpTail.
  destruct (Qlt_le_dec _ _) as [|Hle]; [left; reflexivity|].
  destruct (jumpUpCosts_shape m node blockA blockH blockB 2 toPlace toBreak
              neighbors) as [H|(c & H & Hrest)].
  - left; exact H.
  - right. exists c. split; [exact H|]. split; [exact Hle|exact Hrest].
Qed.

(** What a jump up that is emitted looks like. *)
Lemma getMoveJumpUp_shape (m : Movement) (node : Move) (dir : BlockPos)
    (neighbors : list Candidate) :
  let pos := toVec node in
  let blockB := getBlockInfo m pos (bx dir) 1 (bz dir) in
  let blockC := getBlockInfo m pos (bx dir) 0 (bz dir) in
  let blockD := getBlockInfo m pos (bx dir) (-1) (bz dir) in
  getMoveJumpUp m node dir neighbors = neighbors
  \/ exists c,
       getMoveJumpUp m node dir neighbors = neighbors ++ [c]
       /\ landingHeight m pos dir
          - height (getBlockInfo m pos 0 (-1) 0) <= 12 # 10
       /\ c_cost c <= 100
       /\ c_toPlace c = jumpPlacements m pos dir
       /\ c_prev c = node
       /\ c_moveType c = ForwardJumpMove
       /\ c_exitPos c = blockCenter (position blockB)
       /\ count_covers (remainingBlocks node) (length (c_toPlace c))
       /\ (physical blockC = false -> replaceable blockC = false ->
           safeToBreak m blockC = true)
       /\ (physical blockC = false -> physical blockD = false ->
           replaceable blockD = false -> safeToBreak m blockD = true).
Proof.
  intros pos blockB blockC blockD.
  unfold getMoveJumpUp, landingHeight, jumpPlacements.
  fold pos. fold blockB. fold blockC. fold blockD.
  destruct (physical blockC) eqn:HC; simpl.
  - match goal with
    | |- context [jumpUpTail ?a ?b ?c ?d ?e ?f ?g ?h ?i] =>
        destruct (jumpUpTail_shape a b c d e f g h i)
          as [H|(c0 & H & Hh & Hc & Hp & Hrest)]
    end; [left; exact H|].
    right. exists c0. split; [exact H|]. split; [exact Hh|].
    split; [exact Hc|]. split; [exact Hp|].
    destruct Hrest as (H1 & H2 & H3). repeat split; try assumption.
    + rewrite Hp. simpl. destruct (remainingBlocks node); simpl; [lia|trivial].
    + intros; discriminate.
    + intros; discriminate.
  - destruct (count_is (remainingBlocks node) 0) eqn:H0;
      [left; reflexivity|].
    destruct (physical blockD) eqn:HD; simpl.
    + destruct (replaceable blockC) eqn:RC; simpl.
      * match goal with
        | |- context [jumpUpTail ?a ?b ?c ?d ?e ?f ?g ?h ?i] =>
            destruct (jumpUpTail_shape a b c d e f g h i)
              as [H|(c0 & H & Hh & Hc & Hp & Hrest)]
        end; [left; exact H|].
        right. exists c0. split; [exact H|]. split; [exact Hh|].
        split; [exact Hc|]. split; [exact Hp|].
        destruct Hrest as (H1 & H2 & H3). repeat split; try assumption.
        -- rewrite Hp. simpl.
           destruct (remainingBlocks node) as [n|]; simpl in *; [|trivial].
           apply Nat.eqb_neq in H0. lia.
        -- intros; discriminate.
        -- intros; discriminate.
      * destruct (safeToBreak m blockC) eqn:SC; simpl;
          [|left; reflexivity].
        match goal with
        | |- context [jumpUpTail ?a ?b ?c ?d ?e ?f ?g ?h ?i] =>
            destruct (jumpUpTail_shape a b c d e f g h i)
              as [H|(c0 & H & Hh & Hc & Hp & Hrest)]
        end; [left; exact H|].
        right. exists c0. split; [exact H|]. split; [exact Hh|].
        split; [exact Hc|]. split; [exact Hp|].
        destruct Hrest as (H1 & H2 & H3). repeat split; try assumption.
        -- rewrite Hp. simpl.
           destruct (remainingBlocks node) as [n|]; simpl in *; [|trivial].
           apply Nat.eqb_neq in H0. lia.
        -- intros; discriminate.
    + destruct (count_is (remainingBlocks node) 1) eqn:H1;
        [left; reflexivity|].
      assert (Hcov : count_covers (remainingBlocks node) 2).
      { destruct (remainingBlocks node) as [n|]; simpl in *; [|trivial].
        apply Nat.eqb_neq in H0. apply Nat.eqb_neq in H1. lia. }
      destruct (replaceable blockD) eqn:RD; simpl.
      * destruct (replaceable blockC) eqn:RC; simpl.
        -- match goal with
           | |- context [jumpUpTail ?a ?b ?c ?d ?e ?f ?g ?h ?i] =>
               destruct (jumpUpTail_shape a b c d e f g h i)
                 as [H|(c0 & H & Hh & Hc & Hp & Hrest)]
           end; [left; exact H|].
           right. exists c0. split; [exact H|]. split; [exact Hh|].
           split; [exact Hc|]. split; [exact Hp|].
           destruct Hrest as (H2 & H3 & H4). repeat split; try assumption.
           ++ rewrite Hp. exact Hcov.
           ++ intros; discriminate.
           ++ intros; discriminate.
        -- destruct (safeToBreak m blockC) eqn:SC; simpl;
             [|left; reflexivity].
           match goal with
           | |- context [jumpUpTail ?a ?b ?c ?d ?e ?f ?g ?h ?i] =>
               destruct (jumpUpTail_shape a b c d e f g h i)
                 as [H|(c0 & H & Hh & Hc & Hp & Hrest)]
           end; [left; exact H|].
           right. exists c0. split; [exact H|]. split; [exact Hh|].
           split; [exact Hc|]. split; [exact Hp|].
           destruct Hrest as (H2 & H3 & H4). repeat split; try assumption.
           ++ rewrite Hp. exact Hcov.
           ++ intros; discriminate.
      * destruct (safeToBreak m blockD) eqn:SD; simpl;
          [|left; reflexivity].
        destruct (replaceable blockC) eqn:RC; simpl.
        -- match goal with
           | |- context [jumpUpTail ?a ?b ?c ?d ?e ?f ?g ?h ?i] =>
               destruct (jumpUpTail_shape a b c d e f g h i)
                 as [H|(c0 & H & Hh & Hc & Hp & Hrest)]
           end; [left; exact H|].
           right. exists c0. split; [exact H|]. split; [exact Hh|].
           split; [exact Hc|]. split; [exact Hp|].
           destruct Hrest as (H2 & H3 & H4). repeat split; try assumption.
           ++ rewrite Hp. exact Hcov.
           ++ intros; discriminate.
        -- destruct (safeToBreak m blockC) eqn:SC; simpl;
             [|left; reflexivity].
           match goal with
           | |- context [jumpUpTail ?a ?b ?c ?d ?e ?f ?g ?h ?i] =>
               destruct (jumpUpTail_shape a b c d e f g h i)
                 as [H|(c0 & H & Hh & Hc & Hp & Hrest)]
           end; [left; exact H|].
           right. exists c0. split; [exact H|]. split; [exact Hh|].
           split; [exact Hc|]. split; [exact Hp|].
           destruct Hrest as (H2 & H3 & H4). repeat split; try assumption.
           rewrite Hp. exact Hcov.
Qed.

(** X2.  A jump up that is emitted places exactly the support blocks that
    are missing, the lower one first; it lands at most 1.2 above the block
    the node stands on; it leaves at the centre of the block above the
    landing block, a half past the position of that block in each
    coordinate; and a landing or support block that is in the way and not
    replaceable is only broken when it is safe to break. *)
Theorem getMoveJumpUp_emitted_candidate
    (m : Movement) (node : Move) (dir : BlockPos)
    (neighbors : list Candidate) (c : Candidate) :
  getMoveJumpUp m node dir neighbors = neighbors ++ [c] ->
  let pos := toVec node in
  let blockB := getBlockInfo m pos (bx dir) 1 (bz dir) in
  let blockC := getBlockInfo m pos (bx dir) 0 (bz dir) in
  let blockD := getBlockInfo m pos (bx dir) (-1) (bz dir) in
  c_toPlace c = jumpPlacements m pos dir
  /\ landingHeight m pos dir - height (getBlockInfo m pos 0 (-1) 0)
     <= 12 # 10
  /\ c_exitPos c
     = mkVec3 (inject_Z (bx (position blockB)) + (1 # 2))
              (inject_Z (b_y (position blockB)) + (1 # 2))
              (inject_Z (bz (position blockB)) + (1 # 2))
  /\ c_prev c = node
  /\ c_moveType c = ForwardJumpMove
  /\ (physical blockC = false -> replaceable blockC = false ->
      safeToBreak m blockC = true)
  /\ (physical blockC = false -> physical blockD = false ->
      replaceable blockD = false -> safeToBreak m blockD = true).
Proof.
  intros Hout pos blockB blockC blockD.
  destruct (getMoveJumpUp_shape m node dir neighbors)
    as [H|(c0 & H & Hh & Hc & Hp & Hprev & Hty & Hexit & Hcov & HsC & HsD)].
  - rewrite H in Hout. symmetry in Hout.
    destruct (ProvidersFacts.app_one_neq _ _ Hout).
  - rewrite H in Hout. apply ProvidersFacts.app_one_inv in Hout. subst c0.
    repeat split; assumption.
Qed.

Lemma jump_fold (m : Movement) (node : Move) (dirs : list BlockPos) :
  forall storage,
    exists new,
      fold_left (fun acc dir => getMoveJumpUp m node dir acc) dirs storage
      = storage ++ new
      /\ (length new <= length dirs)%nat
      /\ Forall (fun c => c_cost c <= 100
                          /\ c_prev c = node
                          /\ count_covers (remainingBlocks node)
                                          (length (c_toPlace c))) new.
Proof.
  induction dirs as [|dir dirs IH]; intros storage; simpl.
  - exists []. rewrite app_nil_r.
    split; [reflexivity|]. split; [simpl; lia|constructor].
  - destruct (getMoveJumpUp_shape m node dir storage)
      as [H|(c & H & _ & Hc & _ & Hprev & _ & _ & Hcov & _)]; rewrite H.
    + destruct (IH storage) as (new & Hnew & Hlen & Hall).
      exists new. split; [exact Hnew|]. split; [lia|exact Hall].
    + destruct (IH (storage ++ [c])) as (new & Hnew & Hlen & Hall).
      exists (c :: new). rewrite Hnew, <- app_assoc. simpl.
      split; [reflexivity|]. split; [lia|].
      constructor; [|exact Hall].
      split; [exact Hc|]. split; [exact Hprev|exact Hcov].
Qed.

(** X3.  One expansion of the jump-up provider keeps what is stored and
    appends at most four candidates, each of cost at most 100 and with no
    more placements than the node has blocks left; a node with no block
    left only gets jumps that place nothing. *)
Theorem provideMovementsJump_bounded
    (m : Movement) (node : Move) (storage : list Candidate) :
  exists new,
    provideMovementsJump m node storage = storage ++ new
    /\ (length new <= 4)%nat
    /\ Forall (fun c => c_cost c <= 100
                        /\ c_prev c = node
                        /\ count_covers (remainingBlocks node)
                                        (length (c_toPlace c))) new
    /\ (remainingBlocks node = Finite 0 ->
        Forall (fun c => c_toPlace c = []) new).
Proof.
  destruct (jump_fold m node cardinalDirs storage)
    as (new & Hnew & Hlen & Hall).
  exists new. split; [exact Hnew|]. split; [exact Hlen|].
  split; [exact Hall|].
  intros Hzero. eapply Forall_impl; [exact Hall|].
  intros c (_ & _ & Hcov). rewrite Hzero in Hcov. simpl in Hcov.
  destruct (c_toPlace c); [reflexivity|simpl in Hcov; lia].
Qed.

(** Over the hole at (1, 63, 0), with two blocks left, the jump to the east
    from (0, 64, 0) places the support below the landing block and then the
    landing block, and leaves at (1.5, 65.5, 0.5). *)
Lemma getMoveJumpUp_emitted_witness :
  getMoveJumpUp ProviderExamples.holeMovement
    (ProviderExamples.standing (Finite 2)) ProviderExamples.east []
  = [] ++ [fromPrevious (2 + 0 + 0 + 0) (mkVec3 (3 # 2) (131 # 2) (1 # 2))
             (ProviderExamples.standing (Finite 2)) ForwardJumpMove
             [PlaceFromVec (mkBlockPos 1 63 0) "solid";
              PlaceFromVec (mkBlockPos 1 64 0) "solid"] []]
  /\ jumpPlacements ProviderExamples.holeMovement
       (toVec (ProviderExamples.standing (Finite 2))) ProviderExamples.east
     = [PlaceFromVec (mkBlockPos 1 63 0) "solid";
        PlaceFromVec (mkBlockPos 1 64 0) "solid"]
  /\ position
       (getBlockInfo ProviderExamples.holeMovement
          (toVec (ProviderExamples.standing (Finite 2))) 1 1 0)
     = mkBlockPos 1 65 0.
Proof.
  assert (H : getMoveJumpUp ProviderExamples.holeMovement
                (ProviderExamples.standing (Finite 2)) ProviderExamples.east
                []
              = [] ++ [fromPrevious (2 + 0 + 0 + 0)
                         (mkVec3 (3 # 2) (131 # 2) (1 # 2))
                         (ProviderExamples.standing (Finite 2))
                         ForwardJumpMove
                         [PlaceFromVec (mkBlockPos 1 63 0) "solid";
                          PlaceFromVec (mkBlockPos 1 64 0) "solid"] []])
    by reflexivity.
  split; [exact H|].
  destruct (getMoveJumpUp_emitted_candidate _ _ _ _ _ H) as (Hp & _).
  split; [symmetry; exact Hp|reflexivity].
Defined.

End ProviderStepsFacts.

(** ** Block updates near the path *)

Module NearPathFacts.
Import Providers Doubles NearPath PrimFloat.
Local Open Scope float_scope.

Lemma blockPos_eqb_refl (b : BlockPos) : blockPos_eqb b b = true.
Proof. unfold blockPos_eqb. rewrite !Z.eqb_refl. reflexivity. Qed.

Lemma blockPos_eqb_eq (a b : BlockPos) : blockPos_eqb a b = true -> a = b.
Proof.
  unfold blockPos_eqb. intros H.
  apply andb_true_iff in H as [H Hz]. apply andb_true_iff in H as [Hx Hy].
  apply Z.eqb_eq in Hx, Hy, Hz. destruct a, b; simpl in *; congruence.
Qed.

Lemma has_In (all : list BlockPos) (b : BlockPos) :
  has all (Some b) = true <-> In b all.
Proof.
  unfold has. rewrite existsb_exists. split.
  - intros (x & Hin & Heq). apply blockPos_eqb_eq in Heq. subst x. exact Hin.
  - intros Hin. exists b. split; [exact Hin|apply blockPos_eqb_refl].
Qed.

Lemma has_false (all : list BlockPos) (b : option BlockPos) :
  has all b = false <-> forall b', b = Some b' -> ~ In b' all.
Proof.
  destruct b as [b|].
  - split.
    + intros Hhas b' E Hin. injection E as <-.
      apply has_In in Hin. congruence.
    + intros Hnot. destruct (has all (Some b)) eqn:E; [|reflexivity].
      apply has_In in E. destruct (Hnot b eq_refl E).
  - split; [intros _ b' E; discriminate E|reflexivity].
Qed.

Lemma nearLoop_true (pow : float -> float -> float) (all : list BlockPos)
    (pos : Vec3) (path : list Move) :
  nearLoop pow all pos path = true
  <-> has all (floored pos) = false
      /\ exists move,
           In move path
           /\ inBox (closestPointOnLineSegment pow pos (entryPos move)
                       (exitPos move)) pos = true.
Proof.
  induction path as [|move rest IH]; simpl.
  - split; [discriminate|]. intros (_ & m & [] & _).
  - destruct (inBox _ pos) eqn:Hbox; simpl.
    + destruct (has all (floored pos)) eqn:Hhas; simpl.
      * rewrite IH. split; intros (H & _); discriminate.
      * split; [|reflexivity]. intros _. split; [reflexivity|].
        exists move. auto.
    + rewrite IH. split.
      * intros (Hhas & m & Hin & Hb). split; [exact Hhas|]. exists m. auto.
      * intros (Hhas & m & [<-|Hin] & Hb).
        -- congruence.
        -- split; [exact Hhas|]. exists m. auto.
Qed.


(** X5.  A change to a block that the path itself places or breaks is
    never near the path, wherever the path runs. *)
Theorem isPositionNearPath_own_interaction (pow : float -> float -> float)
    (pos : Vec3) (b : BlockPos) (path : list Move) (move : Move) :
  In move path ->
  floored pos = Some b ->
  In b (map placeVec (toPlace move)) \/ In b (map breakVec (toBreak move)) ->
  isPositionNearPath pow (Some pos) (Some path) = false.
Proof.
  intros Hmove Hfloor Hown.
  destruct (isPositionNearPath pow (Some pos) (Some path)) eqn:E;
    [|reflexivity].
  unfold isPositionNearPath in E. apply nearLoop_true in E.
  destruct E as (Hhas & _).
  assert (Hin : In b (targets path)).
  { unfold targets. apply in_or_app.
    destruct Hown as [Hp|Hb]; [left|right]; apply in_flat_map;
      exists move; auto. }
  apply has_In in Hin. rewrite Hfloor in Hhas. congruence.
Qed.

(** The block the bridge places is not near the bridge. *)
Lemma isPositionNearPath_own_interaction_witness :
  In NearPathExamples.bridge [NearPathExamples.bridge]
  /\ floored NearPathExamples.inPlaced = Some (mkBlockPos 1 63 0)
  /\ In (mkBlockPos 1 63 0) (map placeVec (toPlace NearPathExamples.bridge))
  /\ isPositionNearPath NearPathExamples.squaring
       (Some NearPathExamples.inPlaced) (Some [NearPathExamples.bridge])
     = false.
Proof.
  assert (H1 : In NearPathExamples.bridge [NearPathExamples.bridge])
    by (left; reflexivity).
  assert (H2 : floored NearPathExamples.inPlaced = Some (mkBlockPos 1 63 0))
    by (vm_compute; reflexivity).
  assert (H3 : In (mkBlockPos 1 63 0)
                  (map placeVec (toPlace NearPathExamples.bridge)))
    by (left; reflexivity).
  split; [exact H1|]. split; [exact H2|]. split; [exact H3|].
  exact (isPositionNearPath_own_interaction NearPathExamples.squaring
           NearPathExamples.inPlaced (mkBlockPos 1 63 0)
           [NearPathExamples.bridge] NearPathExamples.bridge H1 H2
           (or_introl H3)).
Defined.

(** The block above the one the bridge places is near the bridge: the
    closest point of the segment is (1.25, 64, 0.5). *)
Example isPositionNearPath_above_the_bridge :
  closestPointOnLineSegment NearPathExamples.squaring NearPathExamples.above
    (entryPos NearPathExamples.bridge) (exitPos NearPathExamples.bridge)
  = mkVec3 1.25 64 0.5
  /\ floored NearPathExamples.above = Some (mkBlockPos 1 64 0)
  /\ isPositionNearPath NearPathExamples.squaring
       (Some NearPathExamples.above) (Some [NearPathExamples.bridge])
     = true.
Proof. vm_compute. repeat split; reflexivity. Qed.

(** Rounding decides on the edge of the box.  Beside the end of a diagonal
    move the length of the segment is the rounded root of 2, whose square
    rounds to the double after 2; the quotient is the double before 1, the
    closest point stops short of the end of the segment by one place, and
    the distance in x comes out as the double after 1: the position is not
    near the path, although it is exactly 1 off the end of the segment. *)
Example isPositionNearPath_beside_a_diagonal_move :
  norm (minus (exitPos NearPathExamples.diagonal)
              (entryPos NearPathExamples.diagonal))
  = sqrt 2
  /\ NearPathExamples.squaring (sqrt 2) 2 = 0x1.0000000000001p+1
  /\ closestPointOnLineSegment NearPathExamples.squaring
       NearPathExamples.beside (entryPos NearPathExamples.diagonal)
       (exitPos NearPathExamples.diagonal)
     = mkVec3 0x1.7ffffffffffffp+0 64 0x1.7ffffffffffffp+0
  /\ abs (0x1.7ffffffffffffp+0 - vx NearPathExamples.beside - 0.5)
     = 0x1.0000000000001p+0
  /\ isPositionNearPath NearPathExamples.squaring
       (Some NearPathExamples.beside) (Some [NearPathExamples.diagonal])
     = false.
Proof. vm_compute. repeat split; reflexivity. Qed.

(** The ends of the segment answer for the points before and past it, and
    a segment of length zero answers its start. *)
Example closestPointOnLineSegment_at_the_ends :
  closestPointOnLineSegment NearPathExamples.squaring (mkVec3 (-3) 64 0.5)
    (mkVec3 0.5 64 0.5) (mkVec3 1.5 64 0.5)
  = mkVec3 0.5 64 0.5
  /\ closestPointOnLineSegment NearPathExamples.squaring (mkVec3 7 64 0.5)
       (mkVec3 0.5 64 0.5) (mkVec3 1.5 64 0.5)
     = mkVec3 1.5 64 0.5
  /\ closestPointOnLineSegment NearPathExamples.squaring (mkVec3 7 64 0.5)
       (mkVec3 0.5 64 0.5) (mkVec3 0.5 64 0.5)
     = mkVec3 0.5 64 0.5.
Proof. vm_compute. repeat split; reflexivity. Qed.

(** A position that is not a number lies in no block and near no path. *)
Example isPositionNearPath_not_a_number :
  floored (mkVec3 nan 64 0.5) = None
  /\ isPositionNearPath NearPathExamples.squaring
       (Some (mkVec3 nan 64 0.5)) (Some [NearPathExamples.bridge])
     = false.
Proof. vm_compute. split; reflexivity. Qed.

End NearPathFacts.

(** ** The scaffolding blocks at hand *)

Module InventoryFacts.
Import Providers Inventory.

Lemma reduce_scaffoldTotal (scaffolding : nat -> bool) (items : list Item) :
  forall acc,
    fold_left (fun acc item =>
                 if scaffolding (type item)
                 then (count item + acc)%nat else acc)
              items acc
    = (acc + scaffoldTotal scaffolding items)%nat.
Proof.
  induction items as [|item rest IH]; intros acc; simpl; [lia|].
  rewrite IH. destruct (scaffolding (type item)); lia.
Qed.

Lemma getScaffoldCount_total (scaffolding : nat -> bool)
    (items : list Item) (gameMode : string) :
  getScaffoldCount scaffolding items gameMode
  = if bool_decide (gameMode = "creative")
    then (if (0 <? scaffoldTotal scaffolding items)%nat
          then Infinity else Finite 0)
    else Finite (scaffoldTotal scaffolding items).
Proof.
  unfold getScaffoldCount. rewrite reduce_scaffoldTotal. reflexivity.
Qed.

Lemma scaffoldTotal_Permutation (scaffolding : nat -> bool)
    (items items' : list Item) :
  Permutation items items' ->
  scaffoldTotal scaffolding items = scaffoldTotal scaffolding items'.
Proof.
  induction 1; simpl; lia.
Qed.

Lemma scaffoldTotal_zero (scaffolding : nat -> bool) (items : list Item) :
  scaffoldTotal scaffolding items = 0%nat
  <-> forall item, In item items -> scaffolding (type item) = true ->
                   count item = 0%nat.
Proof.
  induction items as [|item rest IH]; simpl.
  - split; [intros _ item []|reflexivity].
  - split.
    + intros H it [<-|Hin] Hs.
      * rewrite Hs in H. lia.
      * apply IH; [lia|exact Hin|exact Hs].
    + intros H.
      assert (Hrest : scaffoldTotal scaffolding rest = 0%nat).
      { apply IH. intros it Hin. apply H. right; exact Hin. }
      rewrite Hrest. destruct (scaffolding (type item)) eqn:Hs; [|reflexivity].
      rewrite (H item (or_introl eq_refl) Hs). reflexivity.
Qed.

(** X6.  The count of scaffolding blocks does not depend on the order of
    the stacks in the inventory. *)
Theorem getScaffoldCount_Permutation (scaffolding : nat -> bool)
    (items items' : list Item) (gameMode : string) :
  Permutation items items' ->
  getScaffoldCount scaffolding items gameMode
  = getScaffoldCount scaffolding items' gameMode.
Proof.
  intros Hperm. rewrite !getScaffoldCount_total.
  rewrite (scaffoldTotal_Permutation scaffolding items items' Hperm).
  reflexivity.
Qed.

(** X7.  In every game mode the count is zero exactly when no scaffolding
    stack of the inventory holds a block; outside creative mode it is the
    sum of the scaffolding stacks, and in creative mode it is either zero
    or unbounded. *)
Theorem getScaffoldCount_zero_iff (scaffolding : nat -> bool)
    (items : list Item) (gameMode : string) :
  (getScaffoldCount scaffolding items gameMode = Finite 0
   <-> forall item, In item items -> scaffolding (type item) = true ->
                    count item = 0%nat)
  /\ (gameMode <> "creative" ->
      getScaffoldCount scaffolding items gameMode
      = Finite (scaffoldTotal scaffolding items))
  /\ (gameMode = "creative" ->
      getScaffoldCount scaffolding items gameMode = Finite 0
      \/ getScaffoldCount scaffolding items gameMode = Infinity).
Proof.
  rewrite getScaffoldCount_total. rewrite <- scaffoldTotal_zero.
  destruct (bool_decide (gameMode = "creative")) eqn:Hmode.
  - apply bool_decide_eq_true in Hmode.
    destruct (Nat.ltb_spec 0 (scaffoldTotal scaffolding items)) as [Hpos|Hz].
    + split; [split; [discriminate|lia]|].
      split; [contradiction|]. intros _. right; reflexivity.
    + split; [split; [intros _; lia|reflexivity]|].
      split; [contradiction|]. intros _. left; reflexivity.
  - apply bool_decide_eq_false in Hmode.
    split; [split; [intros H; injection H; auto|intros ->; reflexivity]|].
    split; [reflexivity|contradiction].
Qed.

(** Two stacks of scaffolding and one of something else, in two orders. *)
Lemma getScaffoldCount_Permutation_witness :
  Permutation [mkItem 1 5; mkItem 7 64; mkItem 1 3]
              [mkItem 7 64; mkItem 1 3; mkItem 1 5]
  /\ getScaffoldCount (Nat.eqb 1) [mkItem 1 5; mkItem 7 64; mkItem 1 3]
       "survival"
     = getScaffoldCount (Nat.eqb 1) [mkItem 7 64; mkItem 1 3; mkItem 1 5]
         "survival".
Proof.
  assert (H : Permutation [mkItem 1 5; mkItem 7 64; mkItem 1 3]
                          [mkItem 7 64; mkItem 1 3; mkItem 1 5]).
  { apply (Permutation_cons_append [mkItem 7 64; mkItem 1 3] (mkItem 1 5)). }
  split; [exact H|].
  exact (getScaffoldCount_Permutation (Nat.eqb 1) _ _ "survival" H).
Defined.

End InventoryFacts.

(** ** Interrupting *)

Module InterruptsFacts.
Import Geometry Execution Interrupts.

Lemma executorOf_insert (provider : nat) (e : Executor.MovementExecutor)
    (m : gmap nat Executor.MovementExecutor) (s : Pathfinder) :
  executorOf provider (withExecutors (<[provider := e]> m) s) = e.
Proof.
  unfold executorOf, withExecutors. simpl.
  rewrite lookup_insert_eq. reflexivity.
Qed.

Lemma interrupt_executing (cancelCalculation : bool)
    (reasonStr : option ResetReason) (s : Pathfinder) (provider : nat)
    (move : Move) :
  currentExecutor s = Some provider ->
  currentMove s = Some move ->
  interrupt true cancelCalculation reasonStr s
  = (let s1 := withResetReason reasonStr
                 (withAbortCalculation cancelCalculation s) in
     withExecutors
       (<[provider := abort (option_map ResetError reasonStr)
                        (executorOf provider s1)]> (executors s1)) s1,
     None).
Proof.
  intros He Hm. unfold interrupt. simpl. rewrite He, Hm. reflexivity.
Qed.

Lemma holdUntilAborted_flagged (this : Executor.MovementExecutor)
    (move : Executor.Move) (ticks : list Executor.Entity) :
  Executor.aborted this = true \/ is_Some (Executor.resetReason this) ->
  exists f,
    snd (Executor.holdUntilAborted this move ticks) = Executor.Throws f.
Proof.
  intros H. unfold Executor.holdUntilAborted.
  destruct this as [a r]. simpl in *.
  destruct r as [reason|].
  - rewrite bool_decide_eq_true_2 by eauto. rewrite andb_false_r.
    destruct (Executor.awaitSafeToCancel ticks); simpl; eauto.
  - destruct H as [H|[x H]]; [|discriminate H]. subst a. simpl.
    destruct (Executor.awaitSafeToCancel ticks); simpl; eauto.
Qed.

(** X8.  After [cancel] while a move is being executed, [check] raises the
    user's abort, a reset reason that was pending is forgotten, the path
    search is told to stop, and the executor of the move is aborted without
    a reason unless it was aborted or resetting already.  The agent and the
    path being executed are not touched. *)
Theorem cancel_flags_user_abort (s : Pathfinder) (provider : nat)
    (move : Move) (l : list Event) :
  currentExecutor s = Some provider ->
  currentMove s = Some move ->
  let s' := fst (cancel true s) in
  snd (cancel true s) = None
  /\ check (mkConfig s' l)
     = (mkConfig s' l, Throw (AbortError "User cancelled."))
  /\ resetReason s' = None
  /\ abortCalculation s' = true
  /\ executorOf provider s' = abort None (executorOf provider s)
  /\ bot s' = bot s
  /\ currentExecutingPath s' = currentExecutingPath s
  /\ currentMove s' = currentMove s.
Proof.
  intros He Hm. unfold cancel.
  rewrite (interrupt_executing true None (withUserAborted true s) provider
             move) by assumption.
  simpl. rewrite executorOf_insert.
  repeat split; reflexivity.
Qed.

(** X9.  After [reset] with a reason while a move is being executed by an
    executor that is neither aborted nor resetting, and the user has not
    cancelled, [check] raises the reset with that reason, the path search is
    not told to stop, and the next wrapped phase of the executor raises the
    reset with that reason as soon as the agent is on the ground or in
    water. *)
Theorem resetPath_raises_reset (s : Pathfinder) (provider : nat)
    (move : Move) (reason : ResetReason) (l : list Event)
    (mv : Executor.Move) (ticks : list Executor.Entity) :
  currentExecutor s = Some provider ->
  currentMove s = Some move ->
  userAborted s = false ->
  executorOf provider s = Executor.mkExecutor false None ->
  (exists e, In e ticks /\ Executor.safeToCancel e = true) ->
  let s' := fst (resetPath true reason s) in
  snd (resetPath true reason s) = None
  /\ check (mkConfig s' l) = (mkConfig s' l, Throw (ResetError reason))
  /\ abortCalculation s' = false
  /\ snd (Executor.holdUntilAborted (executorOf provider s') mv ticks)
     = Executor.Throws (ResetError reason).
Proof.
  intros He Hm Hu Hidle Hsafe. unfold resetPath.
  rewrite (interrupt_executing false (Some reason) s provider move)
    by assumption.
  simpl. rewrite executorOf_insert.
  change (executorOf provider
            (withResetReason (Some reason) (withAbortCalculation false s)))
    with (executorOf provider s).
  rewrite Hidle.
  split; [reflexivity|]. split.
  { unfold check. simpl. rewrite Hu. reflexivity. }
  split; [reflexivity|].
  unfold Executor.holdUntilAborted, abort. simpl.
  rewrite (ExecutorFacts.awaitSafeToCancel_safe ticks Hsafe). reflexivity.
Qed.

(** X10.  The first interruption of a move decides what its executor
    raises: a [cancel] that comes after a [reset] leaves the executor with
    the reset's reason, although the pathfinder itself then only remembers
    the user's abort. *)
Theorem cancel_after_reset_keeps_reason (s : Pathfinder) (provider : nat)
    (move : Move) (reason : ResetReason) :
  currentExecutor s = Some provider ->
  currentMove s = Some move ->
  executorOf provider s = Executor.mkExecutor false None ->
  let s1 := fst (resetPath true reason s) in
  let s2 := fst (cancel true s1) in
  executorOf provider s2
  = Executor.mkExecutor true (Some (ResetError reason))
  /\ resetReason s2 = None
  /\ userAborted s2 = true
  /\ abortCalculation s2 = true.
Proof.
  intros He Hm Hidle. unfold resetPath.
  rewrite (interrupt_executing false (Some reason) s provider move)
    by assumption.
  simpl. unfold cancel.
  erewrite interrupt_executing; [|exact He|exact Hm].
  simpl. rewrite executorOf_insert.
  change (executorOf provider
            (withResetReason (Some reason) (withAbortCalculation false s)))
    with (executorOf provider s).
  rewrite Hidle.
  split; [|repeat split; reflexivity].
  unfold executorOf. simpl. rewrite lookup_insert_eq. reflexivity.
Qed.

(** X11.  A wrapped phase of an executor runs the phase exactly when the
    executor is neither aborted nor resetting; then nothing is cancelled and
    the phase's outcome is the wrapper's.  Otherwise the wrapper raises a
    failure whatever the phase would have done. *)
Theorem wrapped_runs_phase_iff_idle {A : Type}
    (this : Executor.MovementExecutor) (move : Executor.Move)
    (ticks : list Executor.Entity) (phase : Failure + A) :
  (In RunPhase (fst (wrapped this move ticks phase))
   <-> Executor.aborted this = false /\ Executor.resetReason this = None)
  /\ (Executor.aborted this = false /\ Executor.resetReason this = None ->
      wrapped this move ticks phase = ([RunPhase], phase))
  /\ (Executor.aborted this = true \/ is_Some (Executor.resetReason this) ->
      exists f, snd (wrapped this move ticks phase) = inl f).
Proof.
  assert (Hidle : Executor.aborted this = false
                  /\ Executor.resetReason this = None ->
                  wrapped this move ticks phase = ([RunPhase], phase)).
  { intros [Ha Hr]. destruct this as [a r]. simpl in *. subst.
    reflexivity. }
  assert (Hflag : Executor.aborted this = true
                  \/ is_Some (Executor.resetReason this) ->
                  ~ In RunPhase (fst (wrapped this move ticks phase))
                  /\ exists f, snd (wrapped this move ticks phase) = inl f).
  { intros H.
    destruct (holdUntilAborted_flagged this move ticks H) as [f Hf].
    unfold wrapped.
    destruct (Executor.holdUntilAborted this move ticks) as [actions out].
    simpl in Hf. subst out. simpl. split; [|eauto].
    intros Hin. apply in_map_iff in Hin as (a & Ha & _). discriminate Ha. }
  split; [|split].
  - split.
    + intros Hin. destruct this as [a r]. simpl.
      destruct a.
      * exfalso. apply (proj1 (Hflag (or_introl eq_refl))). exact Hin.
      * destruct r as [reason|]; [|split; reflexivity].
        exfalso. apply (proj1 (Hflag (or_intror (mk_is_Some _ _ eq_refl)))).
        exact Hin.
    + intros H. rewrite (Hidle H). left. reflexivity.
  - exact Hidle.
  - intros H. exact (proj2 (Hflag H)).
Qed.

Lemma cancel_flags_user_abort_witness :
  currentExecutor InterruptExamples.executing = Some 0%nat
  /\ currentMove InterruptExamples.executing
     = Some (ExecutionExamples.step 0)
  /\ resetReason InterruptExamples.executing = Some blockUpdate
  /\ resetReason (fst (cancel true InterruptExamples.executing)) = None
  /\ executorOf 0 (fst (cancel true InterruptExamples.executing))
     = Executor.mkExecutor true None.
Proof.
  pose proof (cancel_flags_user_abort InterruptExamples.executing 0%nat
                (ExecutionExamples.step 0) [] eq_refl eq_refl) as H.
  cbv zeta in H. destruct H as (_ & _ & Hr & _ & He & _).
  split; [reflexivity|]. split; [reflexivity|]. split; [reflexivity|].
  split; [exact Hr|]. rewrite He. reflexivity.
Defined.

Lemma resetPath_raises_reset_witness :
  currentExecutor InterruptExamples.executing = Some 0%nat
  /\ currentMove InterruptExamples.executing
     = Some (ExecutionExamples.step 0)
  /\ userAborted InterruptExamples.executing = false
  /\ executorOf 0 InterruptExamples.executing
     = Executor.mkExecutor false None
  /\ (exists e, In e [ExecutorExamples.airborne; ExecutorExamples.landed]
                /\ Executor.safeToCancel e = true)
  /\ snd (Executor.holdUntilAborted
            (executorOf 0
               (fst (resetPath true goalUpdated InterruptExamples.executing)))
            ExecutorExamples.bridging
            [ExecutorExamples.airborne; ExecutorExamples.landed])
     = Executor.Throws (ResetError goalUpdated).
Proof.
  assert (Hsafe : exists e,
             In e [ExecutorExamples.airborne; ExecutorExamples.landed]
             /\ Executor.safeToCancel e = true).
  { exists ExecutorExamples.landed. split; [right; left|]; reflexivity. }
  pose proof (resetPath_raises_reset InterruptExamples.executing 0%nat
                (ExecutionExamples.step 0) goalUpdated []
                ExecutorExamples.bridging
                [ExecutorExamples.airborne; ExecutorExamples.landed]
                eq_refl eq_refl eq_refl eq_refl Hsafe) as H.
  cbv zeta in H. destruct H as (_ & _ & _ & Hh).
  split; [reflexivity|]. split; [reflexivity|]. split; [reflexivity|].
  split; [reflexivity|]. split; [exact Hsafe|]. exact Hh.
Defined.

Lemma cancel_after_reset_keeps_reason_witness :
  currentExecutor InterruptExamples.executing = Some 0%nat
  /\ currentMove InterruptExamples.executing
     = Some (ExecutionExamples.step 0)
  /\ executorOf 0 InterruptExamples.executing
     = Executor.mkExecutor false None
  /\ executorOf 0
       (fst (cancel true
               (fst (resetPath true chunkLoad InterruptExamples.executing))))
     = Executor.mkExecutor true (Some (ResetError chunkLoad)).
Proof.
  pose proof (cancel_after_reset_keeps_reason InterruptExamples.executing
                0%nat (ExecutionExamples.step 0) chunkLoad
                eq_refl eq_refl eq_refl) as H.
  cbv zeta in H. destruct H as (He & _).
  split; [reflexivity|]. split; [reflexivity|]. split; [reflexivity|].
  exact He.
Defined.

End InterruptsFacts.

(** ** The forward and the jump executors, tick by tick *)

Module MoveExecutorsFacts.
Import Geometry Execution MoveExecutors.
Import ExecutionFacts.

Lemma Qlt_bool_true (a b : Q) : Qlt_bool a b = true -> a < b.
Proof.
  unfold Qlt_bool. intros H. apply negb_true_iff in H.
  apply Qnot_le_lt. intros Hle. apply Qle_bool_iff in Hle.
  rewrite Hle in H. discriminate H.
Qed.

Lemma Qlt_bool_false (a b : Q) : Qlt_bool a b = false -> b <= a.
Proof.
  unfold Qlt_bool. intros H. apply negb_false_iff in H.
  apply Qle_bool_iff. exact H.
Qed.

Lemma setControlState_position (control : string) (state : bool)
    (s : Pathfinder) :
  position (bot (setControlState control state s)) = position (bot s).
Proof. reflexivity. Qed.

Lemma setControlState_on (control : string) (s : Pathfinder) :
  In control (controlStates (bot (setControlState control true s))).
Proof.
  unfold setControlState. simpl.
  destruct (bool_decide (control ∈ controlStates (bot s))) eqn:E.
  - apply bool_decide_eq_true in E. apply list_elem_of_In. exact E.
  - apply in_or_app. right. left. reflexivity.
Qed.

Lemma setControlState_off (control : string) (s : Pathfinder) :
  ~ In control (controlStates (bot (setControlState control false s))).
Proof.
  unfold setControlState. simpl. intros H.
  apply filter_In in H as [_ H].
  rewrite bool_decide_eq_true_2 in H by reflexivity. discriminate H.
Qed.

Lemma setControlState_other (control other : string) (state : bool)
    (s : Pathfinder) :
  other <> control ->
  In other (controlStates (bot (setControlState control state s)))
  <-> In other (controlStates (bot s)).
Proof.
  intros Hne. unfold setControlState. simpl. destruct state.
  - destruct (bool_decide (control ∈ controlStates (bot s)));
      [reflexivity|].
    rewrite in_app_iff. simpl. split; [|tauto].
    intros [H|[H|[]]]; [exact H|]. congruence.
  - rewrite filter_In. split; [tauto|]. intros H. split; [exact H|].
    rewrite bool_decide_eq_false_2 by exact Hne. reflexivity.
Qed.

(** *** The phases *)

Lemma forward_cancels (w : Senses) (move : Move) (t : nat) (s : Pathfinder) :
  blocked w s = false -> (40 < t)%nat ->
  exists f, snd (ForwardMove.performPerTick w move t s) = inl f.
Proof.
  intros Hb Ht. unfold ForwardMove.performPerTick. rewrite Hb.
  apply Nat.ltb_lt in Ht. rewrite Ht. eauto.
Qed.

Lemma forward_answer (w : Senses) (move : Move) (t : nat) (s : Pathfinder)
    (a : Adding) :
  blocked w s = false ->
  snd (ForwardMove.performPerTick w move t s) = inr a ->
  a = AFalse
  \/ (a = ATrue
      /\ arrivedForward w move (fst (ForwardMove.performPerTick w move t s))).
Proof.
  intros Hb. unfold ForwardMove.performPerTick. rewrite Hb.
  destruct (40 <? t)%nat; [intros H; discriminate H|].
  destruct (onGround w s) eqn:Hg; [|intros H; discriminate H].
  cbn [negb].
  destruct (Qlt_bool _ _) eqn:Hd; cbn [fst snd]; intros H;
    injection H as <-; [right|left; reflexivity].
  split; [reflexivity|]. split; [exact Hg|].
  apply Qlt_bool_true. exact Hd.
Qed.

Lemma jump_cancels (w : Senses) (move : Move) (t : nat) (s : Pathfinder) :
  blocked w s = false -> (40 < t)%nat ->
  exists f, snd (ForwardJumpMove.performPerTick w move t s) = inl f.
Proof.
  intros Hb Ht. unfold ForwardJumpMove.performPerTick. rewrite Hb.
  apply Nat.ltb_lt in Ht. rewrite Ht. eauto.
Qed.

Lemma jump_answer (w : Senses) (move : Move) (t : nat) (s : Pathfinder)
    (a : Adding) :
  blocked w s = false ->
  snd (ForwardJumpMove.performPerTick w move t s) = inr a ->
  a = AFalse
  \/ (a = ATrue
      /\ arrivedJump move (fst (ForwardJumpMove.performPerTick w move t s))).
Proof.
  intros Hb. unfold ForwardJumpMove.performPerTick. rewrite Hb.
  destruct (40 <? t)%nat; [intros H; discriminate H|].
  destruct (Qlt_bool _ (- (1))); [intros H; discriminate H|].
  destruct ((0 <? t)%nat && onGround w s);
    [|intros H; injection H as <-; left; reflexivity].
  cbv zeta.
  destruct (Qlt_bool _ 0) eqn:Hy; [intros H; discriminate H|].
  destruct (Qlt_bool _ (9 # 100)) eqn:Hd; cbn [fst snd]; intros H;
    injection H as <-; [right|left; reflexivity].
  split; [reflexivity|].
  apply Qlt_bool_false in Hy. apply Qlt_bool_true in Hd.
  unfold arrivedJump. cbn [fst].
  rewrite !setControlState_position in *.
  split; [lra|]. split; [exact Hd|]. split.
  - intros Hin.
    apply (setControlState_off "jump" s).
    apply (setControlState_other "sprint" "jump" true); [discriminate|].
    exact Hin.
  - apply setControlState_on.
Qed.

(** *** What is logged *)

Lemma keeps_ret (P : Event -> Prop) {A : Type} (a : A) : keeps P (ret a).
Proof. intros c H. exact H. Qed.

Lemma keeps_emit (P : Event -> Prop) (e : Event) : P e -> keeps P (emit e).
Proof.
  intros He c H. simpl. apply Forall_app. split; [exact H|].
  constructor; [exact He|constructor].
Qed.

Lemma keeps_modify (P : Event -> Prop) (f : Pathfinder -> Pathfinder) :
  keeps P (modify f).
Proof. intros c H. exact H. Qed.

Lemma keeps_check (P : Event -> Prop) : keeps P check.
Proof.
  intros c H. unfold check.
  destruct (userAborted (this c)); [exact H|].
  destruct (resetReason (this c)); exact H.
Qed.

Lemma keeps_call (P : Event -> Prop) {A : Type}
    (f : Pathfinder -> Pathfinder * (Failure + A)) : keeps P (call f).
Proof.
  intros c H. unfold call. destruct (f (this c)) as [s [err|a]]; exact H.
Qed.

Lemma keeps_bind (P : Event -> Prop) {A B : Type} (m : M A)
    (k : A -> M B) :
  keeps P m -> (forall a, keeps P (k a)) -> keeps P (bind m k).
Proof.
  intros Hm Hk c H. unfold bind. specialize (Hm c H).
  destruct (m c) as [c1 [a|f|]]; simpl in *.
  - apply Hk. exact Hm.
  - exact Hm.
  - exact Hm.
Qed.

Lemma check_same (c : Config) : fst (check c) = c.
Proof.
  unfold check. destruct (userAborted (this c)); [reflexivity|].
  destruct (resetReason (this c)); reflexivity.
Qed.

Section Ticks.

Variable waitForTicks : nat -> Pathfinder -> Pathfinder.

Local Abbreviation executeMove := (executeMove waitForTicks).
Local Abbreviation alignLoop := (alignLoop waitForTicks).
Local Abbreviation tickLoop := (tickLoop waitForTicks).

Lemma keeps_alignLoop (P : Event -> Prop) (executor : ExecutorPhases)
    (move : Move) (goal : Goal) :
  (forall t, P (CallAlign move t)) ->
  forall k t, keeps P (alignLoop executor move goal k t).
Proof.
  intros HP. induction k as [|k IH]; intros t; simpl.
  - apply keeps_ret.
  - apply keeps_bind; [apply keeps_emit, HP|]. intros _.
    apply keeps_bind; [apply keeps_call|]. intros aligned.
    destruct (negb aligned && (S t <? 999)%nat); [|apply keeps_ret].
    apply keeps_bind; [apply keeps_check|]. intros _.
    apply keeps_bind; [apply keeps_modify|]. intros _. apply IH.
Qed.

Section Bounded.

(** An executor whose per-tick phase cancels after tick 40 and answers
    true only where the move has arrived. *)
Variable executor : ExecutorPhases.
Variable phase : Phase.
Variable arrived : Move -> Pathfinder -> Prop.

Hypothesis executor_runs_phase : runs executor phase.
Hypothesis phase_cancels :
  forall move t s, (40 < t)%nat -> exists f, snd (phase move t s) = inl f.
Hypothesis phase_answer :
  forall move t s a,
    snd (phase move t s) = inr a ->
    a = AFalse \/ (a = ATrue /\ arrived move (fst (phase move t s))).

Lemma perTick_answer (move : Move) (t i : nat) (moves : list Move)
    (c c1 : Config) (a : Adding) :
  call (_performPerTick executor move t i moves) c = (c1, Ok a) ->
  (t <= 40)%nat
  /\ log c1 = log c
  /\ (a = AFalse \/ (a = ATrue /\ arrived move (this c1))).
Proof.
  unfold call.
  destruct (executor_runs_phase move t i moves (this c)) as [[f Hf]|Hrun].
  - destruct (_performPerTick executor move t i moves (this c))
      as [s [err|a0]]; intros H; [discriminate H|].
    simpl in Hf. discriminate Hf.
  - rewrite Hrun.
    destruct (phase move t (this c)) as [s [err|a0]] eqn:Hp; intros H;
      [discriminate H|].
    injection H as <- <-.
    split.
    + destruct (Nat.le_gt_cases t 40) as [Hle|Hgt]; [exact Hle|].
      destruct (phase_cancels move t (this c) Hgt) as [f Hf].
      rewrite Hp in Hf. discriminate Hf.
    + split; [reflexivity|].
      pose proof (phase_answer move t (this c) a0) as Ha.
      rewrite Hp in Ha. apply Ha. reflexivity.
Qed.

Lemma tickLoop_bounded (move : Move) (i : nat) (moves : list Move) :
  forall (k t : nat) (adding : Adding) (c : Config),
    (t <= 41)%nat -> (41 < k + t)%nat ->
    adding = AFalse \/ (adding = ATrue /\ arrived move (this c)) ->
    Forall (tickAtMost 41) (log c) ->
    Forall (tickAtMost 41)
           (log (fst (tickLoop executor move i moves k t adding c)))
    /\ forall a,
         snd (tickLoop executor move i moves k t adding c) = Ok a ->
         a = ATrue
         /\ arrived move
              (this (fst (tickLoop executor move i moves k t adding c))).
Proof.
  induction k as [|k IH]; intros t adding c Ht Hk Hadd Hlog; [lia|].
  cbn [Execution.tickLoop].
  destruct Hadd as [->|[-> Harr]].
  2:{ cbn [falsy andb]. unfold ret. cbn [fst snd].
      split; [exact Hlog|].
      intros a H. injection H as <-. split; [reflexivity|exact Harr]. }
  cbn [falsy andb].
  replace (t <? 999)%nat with true by (symmetry; apply Nat.ltb_lt; lia).
  destruct (check c) as [c0 [[]|f|]] eqn:Hcheck.
  2:{ rewrite (bind_throw _ _ _ _ _ Hcheck).
      pose proof (check_same c) as Hs. rewrite Hcheck in Hs.
      cbn [fst snd] in *. subst c0.
      split; [exact Hlog|intros a H; discriminate H]. }
  2:{ rewrite (bind_outOfFuel _ _ _ _ Hcheck).
      pose proof (check_same c) as Hs. rewrite Hcheck in Hs.
      cbn [fst snd] in *. subst c0.
      split; [exact Hlog|intros a H; discriminate H]. }
  rewrite (bind_run _ _ _ _ _ Hcheck).
  pose proof (check_same c) as Hs. rewrite Hcheck in Hs.
  cbn [fst] in Hs. subst c0.
  rewrite bind_modify, bind_emit.
  set (c1 := mkConfig (waitForTicks 1 (this c))
                      (log c ++ [CallPerformPerTick move t i])).
  assert (Hlog1 : Forall (tickAtMost 41) (log c1)).
  { subst c1. cbn [log]. apply Forall_app. split; [exact Hlog|].
    constructor; [exact Ht|constructor]. }
  pose proof (keeps_call (tickAtMost 41)
                (_performPerTick executor move t i moves) c1 Hlog1)
    as Hkeeps.
  destruct (call (_performPerTick executor move t i moves) c1)
    as [c2 [a|f|]] eqn:Hcall; cbn [fst] in Hkeeps.
  - rewrite (bind_run _ _ _ _ _ Hcall).
    destruct (perTick_answer move t i moves c1 c2 a Hcall)
      as (Ht40 & Hlog2 & Ha).
    apply IH; [lia|lia|exact Ha|exact Hkeeps].
  - rewrite (bind_throw _ _ _ _ _ Hcall). cbn [fst snd].
    split; [exact Hkeeps|intros a Ha; discriminate Ha].
  - rewrite (bind_outOfFuel _ _ _ _ Hcall). cbn [fst snd].
    split; [exact Hkeeps|intros a Ha; discriminate Ha].
Qed.

Lemma executeMove_bounded (move : Move) (goal : Goal) (i : nat)
    (moves : list Move) (c : Config) :
  Forall (tickAtMost 41) (log c) ->
  Forall (tickAtMost 41)
         (log (fst (executeMove executor move goal i moves c)))
  /\ forall n,
       snd (executeMove executor move goal i moves c) = Ok n ->
       n = 1%nat
       /\ arrived move (this (fst (executeMove executor move goal i moves
                                     c))).
Proof.
  intros Hlog.
  set (before :=
         (alignLoop executor move goal 999 0 ;;
          emit (CallPerformInit move i) ;;
          call (_performInit executor move i moves) ;;
          check ;;
          emit (CallPerformPerTick move 0 i))).
  set (after :=
         (let* adding := call (_performPerTick executor move 0 i moves) in
          let* adding := tickLoop executor move i moves 999 1 adding in
          ret (asNumber adding))).
  assert (Hsplit : executeMove executor move goal i moves c
                   = (before ;; after) c).
  { unfold Execution.executeMove. subst before after. unfold bind.
    destruct (Execution.alignLoop waitForTicks executor move goal 999 0 c)
      as [c1 [[]|f|]]; [|reflexivity|reflexivity].
    destruct (emit (CallPerformInit move i) c1) as [c2 [[]|f|]];
      [|reflexivity|reflexivity].
    destruct (call (_performInit executor move i moves) c2)
      as [c3 [[]|f|]]; [|reflexivity|reflexivity].
    destruct (check c3) as [c4 [[]|f|]]; reflexivity. }
  rewrite Hsplit. clear Hsplit.
  assert (Hbefore : keeps (tickAtMost 41) before).
  { subst before.
    apply keeps_bind; [apply keeps_alignLoop; intros t; exact I|].
    intros _. apply keeps_bind; [apply keeps_emit; exact I|].
    intros _. apply keeps_bind; [apply keeps_call|].
    intros _. apply keeps_bind; [apply keeps_check|].
    intros _. apply keeps_emit. simpl. lia. }
  specialize (Hbefore c Hlog).
  destruct (before c) as [c1 [[]|f|]] eqn:Hb; cbn [fst] in Hbefore.
  2:{ rewrite (bind_throw _ _ _ _ _ Hb). cbn [fst snd].
      split; [exact Hbefore|intros n H; discriminate H]. }
  2:{ rewrite (bind_outOfFuel _ _ _ _ Hb). cbn [fst snd].
      split; [exact Hbefore|intros n H; discriminate H]. }
  rewrite (bind_run _ _ _ _ _ Hb). subst after.
  pose proof (keeps_call (tickAtMost 41)
                (_performPerTick executor move 0 i moves) c1 Hbefore)
    as Hkeeps.
  destruct (call (_performPerTick executor move 0 i moves) c1)
    as [c2 [a|f|]] eqn:Hcall; cbn [fst] in Hkeeps.
  2:{ rewrite (bind_throw _ _ _ _ _ Hcall). cbn [fst snd].
      split; [exact Hkeeps|intros n H; discriminate H]. }
  2:{ rewrite (bind_outOfFuel _ _ _ _ Hcall). cbn [fst snd].
      split; [exact Hkeeps|intros n H; discriminate H]. }
  rewrite (bind_run _ _ _ _ _ Hcall).
  destruct (perTick_answer move 0 i moves c1 c2 a Hcall)
    as (_ & _ & Ha).
  destruct (tickLoop_bounded move i moves 999 1 a c2 ltac:(lia)
              ltac:(lia) Ha Hkeeps) as [Hl Hok].
  destruct (tickLoop executor move i moves 999 1 a c2)
    as [c3 [b|f|]] eqn:Hloop; cbn [fst snd] in *.
  - rewrite (bind_run _ _ _ _ _ Hloop). unfold ret. cbn [fst snd].
    split; [exact Hl|]. intros n H. injection H as <-.
    destruct (Hok b eq_refl) as [-> Harr].
    split; [reflexivity|exact Harr].
  - rewrite (bind_throw _ _ _ _ _ Hloop). cbn [fst snd].
    split; [exact Hl|intros n H; discriminate H].
  - rewrite (bind_outOfFuel _ _ _ _ Hloop). cbn [fst snd].
    split; [exact Hl|intros n H; discriminate H].
Qed.

End Bounded.

(** X16.  A forward move with no interaction going on is never run for
    more than 42 ticks: its per-tick phase is called with tick counts up to
    41 at most, where it cancels.  When its execution ends normally, the
    path index advances by one and the agent is on the ground, less than
    0.2 from the exit position of the move. *)
Theorem forward_move_ends_within_41_ticks (w : Senses)
    (executor : ExecutorPhases) (move : Move) (goal : Goal) (i : nat)
    (moves : list Move) (c : Config) :
  runs executor (ForwardMove.performPerTick w) ->
  (forall s, blocked w s = false) ->
  Forall (tickAtMost 41) (log c) ->
  Forall (tickAtMost 41)
         (log (fst (executeMove executor move goal i moves c)))
  /\ forall n,
       snd (executeMove executor move goal i moves c) = Ok n ->
       n = 1%nat
       /\ arrivedForward w move
            (this (fst (executeMove executor move goal i moves c))).
Proof.
  intros Hruns Hfree Hlog.
  apply (executeMove_bounded executor (ForwardMove.performPerTick w)
           (arrivedForward w) Hruns).
  - intros mv t s. apply forward_cancels, Hfree.
  - intros mv t s a. apply forward_answer, Hfree.
  - exact Hlog.
Qed.

(** X17.  A jump with no interaction going on is never run for more than
    42 ticks either.  When its execution ends normally, the path index
    advances by one, the agent is not below the exit position of the move
    and horizontally less than 0.3 from it, the jump control is released
    and sprinting is on. *)
Theorem jump_move_ends_within_41_ticks (w : Senses)
    (executor : ExecutorPhases) (move : Move) (goal : Goal) (i : nat)
    (moves : list Move) (c : Config) :
  runs executor (ForwardJumpMove.performPerTick w) ->
  (forall s, blocked w s = false) ->
  Forall (tickAtMost 41) (log c) ->
  Forall (tickAtMost 41)
         (log (fst (executeMove executor move goal i moves c)))
  /\ forall n,
       snd (executeMove executor move goal i moves c) = Ok n ->
       n = 1%nat
       /\ arrivedJump move
            (this (fst (executeMove executor move goal i moves c))).
Proof.
  intros Hruns Hfree Hlog.
  apply (executeMove_bounded executor (ForwardJumpMove.performPerTick w)
           (arrivedJump) Hruns).
  - intros mv t s. apply jump_cancels, Hfree.
  - intros mv t s a. apply jump_answer, Hfree.
  - exact Hlog.
Qed.

End Ticks.

(** A bot that creeps a tenth of a block per tick arrives at the exit of
    the first move of a corridor. *)
Lemma forward_move_witness :
  runs MoveExecutorExamples.forward
       (ForwardMove.performPerTick MoveExecutorExamples.walking)
  /\ (forall s, blocked MoveExecutorExamples.walking s = false)
  /\ Forall (tickAtMost 41)
            (log (ExecutionExamples.startAt ExecutionExamples.origin))
  /\ snd (executeMove MoveExecutorExamples.creep
            MoveExecutorExamples.forward (ExecutionExamples.step 0)
            (GoalOf 0) 0 [ExecutionExamples.step 0]
            (ExecutionExamples.startAt ExecutionExamples.origin))
     = Ok 1%nat
  /\ arrivedForward MoveExecutorExamples.walking (ExecutionExamples.step 0)
       (this (fst (executeMove MoveExecutorExamples.creep
                     MoveExecutorExamples.forward (ExecutionExamples.step 0)
                     (GoalOf 0) 0 [ExecutionExamples.step 0]
                     (ExecutionExamples.startAt ExecutionExamples.origin)))).
Proof.
  assert (H1 : runs MoveExecutorExamples.forward
                    (ForwardMove.performPerTick
                       MoveExecutorExamples.walking))
    by (intros move t i moves s; right; reflexivity).
  assert (H2 : forall s, blocked MoveExecutorExamples.walking s = false)
    by reflexivity.
  assert (H3 : Forall (tickAtMost 41)
                      (log (ExecutionExamples.startAt
                              ExecutionExamples.origin)))
    by constructor.
  assert (H4 : snd (executeMove MoveExecutorExamples.creep
                      MoveExecutorExamples.forward
                      (ExecutionExamples.step 0) (GoalOf 0) 0
                      [ExecutionExamples.step 0]
                      (ExecutionExamples.startAt ExecutionExamples.origin))
               = Ok 1%nat) by (vm_compute; reflexivity).
  split; [exact H1|]. split; [exact H2|]. split; [exact H3|].
  split; [exact H4|].
  exact (proj2 (proj2 (forward_move_ends_within_41_ticks
                         MoveExecutorExamples.creep
                         MoveExecutorExamples.walking
                         MoveExecutorExamples.forward
                         (ExecutionExamples.step 0) (GoalOf 0) 0%nat
                         [ExecutionExamples.step 0]
                         (ExecutionExamples.startAt ExecutionExamples.origin)
                         H1 H2 H3) 1%nat H4)).
Defined.

(** A jump that never lands near the exit is given up at tick 41. *)
Lemma jump_move_witness :
  runs MoveExecutorExamples.jump
       (ForwardJumpMove.performPerTick MoveExecutorExamples.walking)
  /\ (forall s, blocked MoveExecutorExamples.walking s = false)
  /\ Forall (tickAtMost 41)
            (log (ExecutionExamples.startAt ExecutionExamples.origin))
  /\ snd (executeMove ExecutionExamples.noWait
            MoveExecutorExamples.jump (ExecutionExamples.step 0)
            (GoalOf 0) 0 [ExecutionExamples.step 0]
            (ExecutionExamples.startAt ExecutionExamples.origin))
     = Throw (CancelError "ForwardJumpMove: tickCount > 40")
  /\ Forall (tickAtMost 41)
       (log (fst (executeMove ExecutionExamples.noWait
                    MoveExecutorExamples.jump (ExecutionExamples.step 0)
                    (GoalOf 0) 0 [ExecutionExamples.step 0]
                    (ExecutionExamples.startAt ExecutionExamples.origin)))).
Proof.
  assert (H1 : runs MoveExecutorExamples.jump
                    (ForwardJumpMove.performPerTick
                       MoveExecutorExamples.walking))
    by (intros move t i moves s; right; reflexivity).
  assert (H2 : forall s, blocked MoveExecutorExamples.walking s = false)
    by reflexivity.
  assert (H3 : Forall (tickAtMost 41)
                      (log (ExecutionExamples.startAt
                              ExecutionExamples.origin)))
    by constructor.
  split; [exact H1|]. split; [exact H2|]. split; [exact H3|].
  split; [vm_compute; reflexivity|].
  exact (proj1 (jump_move_ends_within_41_ticks
                  ExecutionExamples.noWait MoveExecutorExamples.walking
                  MoveExecutorExamples.jump (ExecutionExamples.step 0)
                  (GoalOf 0) 0%nat [ExecutionExamples.step 0]
                  (ExecutionExamples.startAt ExecutionExamples.origin)
                  H1 H2 H3)).
Defined.

End MoveExecutorsFacts.

(** ** The next interaction of a move *)

Module InteractionsFacts.
Import Providers Interactions.

Section InteractPossible.

Variable done : Handler -> bool.
Variable performInfo : Handler -> nat -> Count.
Variable _cI : option Handler.

Local Abbreviation firstPossible := (firstPossible done performInfo _cI).
Local Abbreviation interactPossible :=
  (interactPossible done performInfo _cI).
Local Abbreviation possible := (possible done performInfo _cI).

(** The loop answers the first handler that is possible, if there is
    one. *)
Lemma firstPossible_spec (ticks : nat) (handlers : list Handler) :
  match firstPossible ticks handlers with
  | Some handler =>
      exists before after,
        handlers = before ++ handler :: after
        /\ possible ticks handler
        /\ Forall (fun h => ~ possible ticks h) before
  | None => Forall (fun h => ~ possible ticks h) handlers
  end.
Proof.
  induction handlers as [|h rest IH]; simpl; [constructor|].
  assert (Hskip : ~ possible ticks h ->
            match firstPossible ticks rest with
            | Some handler =>
                exists before after,
                  h :: rest = before ++ handler :: after
                  /\ possible ticks handler
                  /\ Forall (fun h => ~ possible ticks h) before
            | None => Forall (fun h => ~ possible ticks h) (h :: rest)
            end).
  { intros Hno. destruct (firstPossible ticks rest) as [found|].
    - destruct IH as (before & after & -> & Hp & Hb).
      exists (h :: before), after. split; [reflexivity|].
      split; [exact Hp|]. constructor; assumption.
    - constructor; assumption. }
  destruct (bool_decide (Some h = _cI)) eqn:Hc; cbn [negb andb].
  { apply Hskip. intros (Hne & _). apply bool_decide_eq_true in Hc.
    contradiction. }
  destruct (done h) eqn:Hd; cbn [negb].
  { apply Hskip. intros (_ & Hnd & _). congruence. }
  destruct (performInfo h ticks) as [n|] eqn:Hi.
  - exists [], rest. split; [reflexivity|]. split; [|constructor].
    apply bool_decide_eq_false in Hc.
    split; [exact Hc|]. split; [exact Hd|]. rewrite Hi. discriminate.
  - apply Hskip. intros (_ & _ & Hfin). contradiction.
Qed.

(** X20.  [interactPossible] answers a handler of the move that is not the
    current interaction, is not done and can be performed in finitely many
    ticks.  Blocks to break come first: a handler to place is answered only
    when no handler to break is possible, and nothing is answered exactly
    when no handler of the move is possible. *)
Theorem interactPossible_breaks_first (toBreak toPlace : list nat)
    (ticks : nat) :
  (forall handler,
     interactPossible toBreak toPlace ticks = Some handler ->
     possible ticks handler
     /\ (In handler (map BreakAt toBreak)
         \/ In handler (map PlaceAt toPlace)))
  /\ (forall address,
        interactPossible toBreak toPlace ticks = Some (PlaceAt address) ->
        forall b, In b toBreak -> ~ possible ticks (BreakAt b))
  /\ ((exists b, In b toBreak /\ possible ticks (BreakAt b)) ->
      exists b, In b toBreak
                /\ interactPossible toBreak toPlace ticks
                   = Some (BreakAt b))
  /\ (interactPossible toBreak toPlace ticks = None
      <-> forall handler,
            In handler (map BreakAt toBreak ++ map PlaceAt toPlace) ->
            ~ possible ticks handler).
Proof.
  unfold Interactions.interactPossible.
  pose proof (firstPossible_spec ticks (map BreakAt toBreak)) as Hb.
  pose proof (firstPossible_spec ticks (map PlaceAt toPlace)) as Hp.
  destruct (firstPossible ticks (map BreakAt toBreak)) as [hb|].
  - destruct Hb as (before & after & Heq & Hposs & _).
    assert (Hin : In hb (map BreakAt toBreak)).
    { rewrite Heq. apply in_or_app. right. left. reflexivity. }
    split; [|split; [|split]].
    + intros handler H. injection H as <-. split; [exact Hposs|].
      left; exact Hin.
    + intros address H. injection H as ->.
      apply in_map_iff in Hin as (b & Hb & _). discriminate Hb.
    + intros _. apply in_map_iff in Hin as (b & <- & Hb).
      exists b. split; [exact Hb|reflexivity].
    + split; [intros H; discriminate H|].
      intros Hnone. exfalso. apply (Hnone hb); [|exact Hposs].
      apply in_or_app. left; exact Hin.
  - assert (Hnob : forall b, In b toBreak -> ~ possible ticks (BreakAt b)).
    { intros b Hin. apply (proj1 (List.Forall_forall _ _) Hb).
      apply in_map. exact Hin. }
    split; [|split; [|split]].
    + intros handler H. rewrite H in Hp.
      destruct Hp as (before & after & Heq & Hposs & _).
      split; [exact Hposs|]. right. rewrite Heq.
      apply in_or_app. right. left. reflexivity.
    + intros address _. exact Hnob.
    + intros (b & Hin & Hposs). exfalso. exact (Hnob b Hin Hposs).
    + destruct (firstPossible ticks (map PlaceAt toPlace)) as [hp|].
      * destruct Hp as (before & after & Heq & Hposs & _).
        split; [intros H; discriminate H|].
        intros Hnone. exfalso. apply (Hnone hp); [|exact Hposs].
        apply in_or_app. right. rewrite Heq.
        apply in_or_app. right. left. reflexivity.
      * split; [|reflexivity]. intros _ handler Hin.
        apply in_app_or in Hin as [Hin|Hin].
        -- exact (proj1 (List.Forall_forall _ _) Hb handler Hin).
        -- exact (proj1 (List.Forall_forall _ _) Hp handler Hin).
Qed.

End InteractPossible.

End InteractionsFacts.

(** ** The listeners of a dynamic goal *)

Module ListenersFacts.
Import Listeners.

Lemma removeLast_last (x : Entry) (a b : list Entry) :
  ~ In x b -> removeLast x (a ++ x :: b) = a ++ b.
Proof.
  intros Hb. induction a as [|y a IH]; simpl.
  - rewrite bool_decide_eq_false_2
      by (intros H; apply list_elem_of_In in H; contradiction).
    rewrite bool_decide_eq_true_2 by reflexivity. reflexivity.
  - rewrite bool_decide_eq_true_2.
    + rewrite IH. reflexivity.
    + apply list_elem_of_In. apply in_or_app. right. left. reflexivity.
Qed.

Lemma offAll_listeners (entries : list Entry) :
  forall (table : list Entry) (n : nat),
    offAll entries (mkEmitter table n)
    = mkEmitter
        (fold_left (fun t x => removeLast x t) entries table) n.
Proof.
  induction entries as [|[key l] entries IH]; intros table n;
    [reflexivity|].
  simpl. unfold off at 1. simpl. apply IH.
Qed.

(** Listeners that stand next to one another in the table and occur nowhere
    after are all removed, and nothing else is. *)
Lemma removeAll_block (entries : list Entry) :
  forall (before after : list Entry),
    NoDup entries ->
    (forall x, In x entries -> ~ In x after) ->
    fold_left (fun t x => removeLast x t) entries
              (before ++ entries ++ after)
    = before ++ after.
Proof.
  induction entries as [|x entries IH]; intros before after Hnd Hafter;
    [reflexivity|].
  apply NoDup_cons in Hnd as [Hnotin Hnd].
  simpl. rewrite removeLast_last.
  - apply IH; [exact Hnd|].
    intros y Hy. apply Hafter. right. exact Hy.
  - intros Hin. apply in_app_or in Hin as [Hin|Hin].
    + apply Hnotin. apply list_elem_of_In. exact Hin.
    + apply (Hafter x); [left; reflexivity|exact Hin].
Qed.

Lemma offAll_block (entries : list Entry) (before after : list Entry)
    (n : nat) :
  NoDup entries ->
  (forall x, In x entries -> ~ In x after) ->
  offAll entries (mkEmitter (before ++ entries ++ after) n)
  = mkEmitter (before ++ after) n.
Proof.
  intros Hnd Hafter. rewrite offAll_listeners.
  rewrite removeAll_block by assumption. reflexivity.
Qed.

(** What one loop of [registerAll] registers. *)
Lemma register_spec (keys : list string) :
  forall (e : Emitter) (entries : list Entry) (e' : Emitter),
    register keys e = (entries, e') ->
    listeners e' = listeners e ++ entries
    /\ closures e' = (closures e + length keys)%nat
    /\ map fst entries = keys
    /\ map snd entries = seq (closures e) (length keys).
Proof.
  induction keys as [|key keys IH]; intros e entries e' Hrun; simpl in Hrun.
  - injection Hrun as <- <-. simpl. rewrite app_nil_r.
    repeat split; try reflexivity. lia.
  - destruct (register keys _) as [entries1 e2] eqn:Hrest.
    injection Hrun as <- <-.
    destruct (IH _ _ _ Hrest) as (Hl & Hc & Hk & Ha).
    unfold on in *. simpl in *.
    split; [rewrite Hl, <- app_assoc; reflexivity|].
    split; [lia|]. split; [f_equal; exact Hk|]. f_equal. exact Ha.
Qed.

Lemma seq_entries_NoDup (entries : list Entry) (start len : nat) :
  map snd entries = seq start len -> NoDup entries.
Proof.
  intros H. apply (NoDup_fmap_1 snd). 
  change (snd <$> entries) with (map snd entries). rewrite H.
  apply NoDup_ListNoDup, List.seq_NoDup.
Qed.

Lemma seq_entries_bounds (entries : list Entry) (start len : nat)
    (x : Entry) :
  map snd entries = seq start len -> In x entries ->
  (start <= snd x < start + len)%nat.
Proof.
  intros H Hin. apply (in_map snd) in Hin. rewrite H in Hin.
  apply in_seq in Hin. exact Hin.
Qed.

(** X21.  [registerAll] adds one new listener for each event key and each
    validity key of the goal, after the listeners that are there.  Each of
    the three ways out, which are the clean-up that is answered, a change
    of the goal and a goal that is no longer valid, takes all of them off
    again and leaves every other listener in place, also those registered
    since; it calls its own callback and then the one for all, as far as
    they are given.  A listener that runs after the user has cancelled
    cleans up whatever the goal says. *)
Theorem registerAll_round_trip (_eventKeys _validKeys : list string)
    (e : Emitter) (post : list Entry) (opts : Opts) (answer : bool) :
  let r := fst (registerAll _eventKeys _validKeys e) in
  let e1 := snd (registerAll _eventKeys _validKeys e) in
  (forall x, In x post -> ~ In x (fuckEvent r ++ fuckValid r)) ->
  listeners e1 = listeners e ++ fuckEvent r ++ fuckValid r
  /\ map fst (fuckEvent r) = _eventKeys
  /\ map fst (fuckValid r) = _validKeys
  /\ cleanup opts r (later post e1)
     = (called (hasOnCleanup opts) onCleanup
        ++ called (hasForAll opts) forAll,
        mkEmitter (listeners e ++ post) (closures e1))
  /\ newOnHasUpdate opts r (later post e1)
     = (called (hasOnHasUpdate opts) onHasUpdate
        ++ called (hasForAll opts) forAll,
        mkEmitter (listeners e ++ post) (closures e1))
  /\ newOnInvalid opts r (later post e1)
     = (called (hasOnInvalid opts) onInvalid
        ++ called (hasForAll opts) forAll,
        mkEmitter (listeners e ++ post) (closures e1))
  /\ listener opts r true answer (later post e1)
     = cleanup opts r (later post e1)
  /\ listener1 opts r true answer (later post e1)
     = cleanup opts r (later post e1).
Proof.
  unfold registerAll.
  destruct (register _eventKeys e) as [events e0] eqn:Hev.
  destruct (register _validKeys e0) as [valids e1] eqn:Hva.
  cbn [fst snd fuckEvent fuckValid]. intros Hpost.
  destruct (register_spec _ _ _ _ Hev) as (Hl0 & Hc0 & Hk0 & Ha0).
  destruct (register_spec _ _ _ _ Hva) as (Hl1 & Hc1 & Hk1 & Ha1).
  assert (Hnd0 : NoDup events) by (eapply seq_entries_NoDup; exact Ha0).
  assert (Hnd1 : NoDup valids) by (eapply seq_entries_NoDup; exact Ha1).
  assert (Hdisj : forall x, In x events -> ~ In x valids).
  { intros x H0 H1.
    pose proof (seq_entries_bounds _ _ _ x Ha0 H0).
    pose proof (seq_entries_bounds _ _ _ x Ha1 H1). lia. }
  assert (Htable : listeners e1 = listeners e ++ events ++ valids).
  { rewrite Hl1, Hl0, <- app_assoc. reflexivity. }
  assert (Hvalids_first :
            offAll events
              (offAll valids (later post e1))
            = mkEmitter (listeners e ++ post) (closures e1)).
  { unfold later. rewrite Htable.
    replace ((listeners e ++ events ++ valids) ++ post)
      with ((listeners e ++ events) ++ valids ++ post)
      by (rewrite <- !app_assoc; reflexivity).
    rewrite offAll_block.
    - rewrite <- app_assoc. apply offAll_block; [exact Hnd0|].
      intros x Hx Hin. apply (Hpost x Hin). apply in_or_app. left; exact Hx.
    - exact Hnd1.
    - intros x Hx Hin. apply (Hpost x Hin). apply in_or_app. right; exact Hx. }
  assert (Hevents_first :
            offAll valids
              (offAll events (later post e1))
            = mkEmitter (listeners e ++ post) (closures e1)).
  { unfold later. rewrite Htable.
    replace ((listeners e ++ events ++ valids) ++ post)
      with (listeners e ++ events ++ (valids ++ post))
      by (rewrite <- !app_assoc; reflexivity).
    rewrite offAll_block.
    - apply offAll_block; [exact Hnd1|].
      intros x Hx Hin. apply (Hpost x Hin). apply in_or_app. right; exact Hx.
    - exact Hnd0.
    - intros x Hx Hin. apply in_app_or in Hin as [Hin|Hin].
      + exact (Hdisj x Hx Hin).
      + apply (Hpost x Hin). apply in_or_app. left; exact Hx. }
  split; [exact Htable|]. split; [exact Hk0|]. split; [exact Hk1|].
  unfold listener, listener1.
  unfold cleanup, newOnHasUpdate, newOnInvalid.
  cbn [fuckEvent fuckValid].
  rewrite Hvalids_first, Hevents_first.
  repeat split; reflexivity.
Qed.

(** A goal with two event keys and one validity key, on an emitter that
    has a listener of its own and gets another one afterwards. *)
Lemma registerAll_round_trip_witness :
  (forall x,
     In x [("entityGone", 7%nat)] ->
     ~ In x (fuckEvent
               (fst (registerAll ["entityMoved"; "entityUpdate"]
                       ["entityGone"] ListenerExamples.busy))
             ++ fuckValid
                  (fst (registerAll ["entityMoved"; "entityUpdate"]
                          ["entityGone"] ListenerExamples.busy))))
  /\ listeners (snd (registerAll ["entityMoved"; "entityUpdate"]
                       ["entityGone"] ListenerExamples.busy))
     = [("physicsTick", 0%nat); ("entityMoved", 1%nat);
        ("entityUpdate", 2%nat); ("entityGone", 3%nat)]
  /\ cleanup ListenerExamples.allGiven
       (fst (registerAll ["entityMoved"; "entityUpdate"] ["entityGone"]
               ListenerExamples.busy))
       (later [("entityGone", 7%nat)]
          (snd (registerAll ["entityMoved"; "entityUpdate"] ["entityGone"]
                  ListenerExamples.busy)))
     = ([onCleanup; forAll],
        mkEmitter [("physicsTick", 0%nat); ("entityGone", 7%nat)] 4).
Proof.
  assert (Hpost :
            forall x,
              In x [("entityGone", 7%nat)] ->
              ~ In x (fuckEvent
                        (fst (registerAll ["entityMoved"; "entityUpdate"]
                                ["entityGone"] ListenerExamples.busy))
                      ++ fuckValid
                           (fst (registerAll
                                   ["entityMoved"; "entityUpdate"]
                                   ["entityGone"] ListenerExamples.busy)))).
  { intros x [<-|[]]. simpl. intros [H|[H|[H|[]]]]; discriminate H. }
  split; [exact Hpost|].
  destruct (registerAll_round_trip ["entityMoved"; "entityUpdate"]
              ["entityGone"] ListenerExamples.busy [("entityGone", 7%nat)]
              ListenerExamples.allGiven true Hpost)
    as (Htable & _ & _ & Hclean & _).
  split; [exact Htable|exact Hclean].
Defined.

End ListenersFacts.

(** ** Cleaning up after a goal *)

Module CleanupFacts.
Import Geometry Execution Cleanup.

Section CleanupAll.

Variable movements : list (nat * ExecutorPhases).
Variable onFinish : nat -> Pathfinder -> Pathfinder.

Local Abbreviation cleanupAll := (cleanupAll movements onFinish).
Local Abbreviation cleanedBot := (cleanedBot movements).

Lemma inserts_keep (l : list (nat * ExecutorPhases)) (provider : nat)
    (v : Executor.MovementExecutor) :
  forall m : gmap nat Executor.MovementExecutor,
    m !! provider = Some v ->
    fold_left (fun m entry => <[fst entry := v]> m) l m !! provider = Some v.
Proof.
  induction l as [|[k e] l IH]; intros m Hm; simpl; [exact Hm|].
  apply IH. destruct (Nat.eq_dec k provider) as [->|Hne].
  - apply lookup_insert_eq.
  - rewrite lookup_insert_ne by exact Hne. exact Hm.
Qed.

Lemma inserts_reset (l : list (nat * ExecutorPhases)) (provider : nat)
    (executor : ExecutorPhases) (v : Executor.MovementExecutor) :
  forall m : gmap nat Executor.MovementExecutor,
    In (provider, executor) l ->
    fold_left (fun m entry => <[fst entry := v]> m) l m !! provider = Some v.
Proof.
  induction l as [|[k e] l IH]; intros m Hin; simpl; [destruct Hin|].
  destruct Hin as [Heq|Hin].
  - injection Heq as -> ->. apply inserts_keep. apply lookup_insert_eq.
  - apply IH. exact Hin.
Qed.

(** After [cleanupBot] no control is engaged and the executor of every
    provider is neither aborted nor resetting. *)
Lemma cleanedBot_resets (s : Pathfinder) (provider : nat)
    (executor : ExecutorPhases) :
  In (provider, executor) movements ->
  executors (cleanedBot s) !! provider
  = Some (Executor.mkExecutor false None).
Proof.
  intros Hin. unfold Execution.cleanedBot.
  rewrite ExecutionFacts.resets_executors. simpl.
  apply (inserts_reset movements provider executor). exact Hin.
Qed.

Lemma cleanedBot_flags (s : Pathfinder) :
  abortCalculation (cleanedBot s) = abortCalculation s
  /\ userAborted (cleanedBot s) = userAborted s.
Proof.
  unfold Execution.cleanedBot. rewrite ExecutionFacts.resets_executors.
  split; reflexivity.
Qed.

(** X22.  [cleanupAll] always leaves the client clean: nothing is flagged,
    no control is engaged, no move, path or executor is current, and the
    executor of every provider is neither aborted nor resetting.  When it
    follows a [cancel] made while a producer exists, the goal's [onFinish]
    is not called and the goal is announced as aborted, never as
    finished. *)
Theorem cleanupAll_after_cancel (dynamic hasCleanup : bool)
    (lastMove : option nat) (s : Pathfinder) :
  (quiet (snd (cleanupAll dynamic hasCleanup lastMove s))
   /\ abortCalculation (snd (cleanupAll dynamic hasCleanup lastMove s))
      = false
   /\ controlStates (bot (snd (cleanupAll dynamic hasCleanup lastMove s)))
      = []
   /\ currentMove (snd (cleanupAll dynamic hasCleanup lastMove s)) = None
   /\ currentExecutor (snd (cleanupAll dynamic hasCleanup lastMove s))
      = None
   /\ currentExecutingPath (snd (cleanupAll dynamic hasCleanup lastMove s))
      = None
   /\ forall provider executor,
        In (provider, executor) movements ->
        executors (snd (cleanupAll dynamic hasCleanup lastMove s))
        !! provider
        = Some (Executor.mkExecutor false None))
  /\ fst (cleanupAll dynamic hasCleanup lastMove
            (fst (Interrupts.cancel true s)))
     = (if dynamic && hasCleanup then [CallGoalCleanup] else [])
       ++ [Chat; ClearCache; goalAborted; FinishExecuteTask].
Proof.
  split.
  - unfold Cleanup.cleanupAll.
    destruct (match lastMove with
              | Some executor =>
                  if negb (abortCalculation (cleanedBot s))
                  then ([CallOnFinish executor],
                        onFinish executor (cleanedBot s))
                  else ([], cleanedBot s)
              | None => ([], cleanedBot s)
              end) as [log1 s2].
    cbn [snd].
    split; [split; reflexivity|]. split; [reflexivity|].
    split.
    { unfold cleanupClient. simpl.
      apply (ExecutionFacts.cleanedBot_controls movements). }
    split; [reflexivity|]. split; [reflexivity|]. split; [reflexivity|].
    intros provider executor Hin. unfold cleanupClient. simpl.
    apply (cleanedBot_resets s2 provider executor Hin).
  - set (s0 := fst (Interrupts.cancel true s)).
    assert (Hflags : abortCalculation s0 = true /\ userAborted s0 = true).
    { subst s0. unfold Interrupts.cancel, Interrupts.interrupt. simpl.
      destruct (currentExecutor s); [|split; reflexivity].
      destruct (currentMove s); split; reflexivity. }
    destruct Hflags as [Ha Hu].
    unfold Cleanup.cleanupAll.
    destruct (cleanedBot_flags s0) as [Ha1 Hu1].
    rewrite Ha1, Ha. cbn [negb].
    replace (match lastMove with
             | Some _ => ([], cleanedBot s0)
             | None => ([], cleanedBot s0)
             end) with (@nil Event, cleanedBot s0)
      by (destruct lastMove; reflexivity).
    cbn [fst].
    destruct (cleanedBot_flags (cleanedBot s0)) as [_ Hu2].
    rewrite Hu2, Hu1, Hu. reflexivity.
Qed.

End CleanupAll.

End CleanupFacts.

(** ** Performing the interactions of a move *)

Module PerformInteractionsFacts.
Import Executor Interactions PerformInteractions.

Section PerformInit.

Variable hasItem : nat -> bool.
Variable hasBlock : nat -> bool.

Local Abbreviation performInteraction :=
  (performInteraction hasItem hasBlock).
Local Abbreviation performEach := (performEach hasItem hasBlock).
Local Abbreviation performInit := (performInit hasItem hasBlock).
Local Abbreviation able := (able hasItem hasBlock).

Lemma performInteraction_able (handler : Handler) (st : Hands) :
  able handler = true ->
  performInteraction handler st
  = (mkHands None (performed st ++ [handler]), None).
Proof.
  intros H. destruct handler as [b|p]; simpl in *; rewrite H; reflexivity.
Qed.

Lemma performInteraction_unable (handler : Handler) (st : Hands) :
  able handler = false ->
  exists message,
    performInteraction handler st
    = (mkHands (Some handler) (performed st), Some (CancelError message)).
Proof.
  intros H. destruct handler as [b|p]; simpl in *; rewrite H; eauto.
Qed.

Lemma performEach_able (handlers : list Handler) :
  forall st,
    Forall (fun h => able h = true) handlers ->
    performEach handlers st
    = (mkHands (match handlers with [] => _cI st | _ => None end)
               (performed st ++ handlers),
       None).
Proof.
  induction handlers as [|h rest IH]; intros st Hall.
  - simpl. rewrite app_nil_r. destruct st; reflexivity.
  - apply Forall_cons in Hall as [Hh Hrest].
    cbn [PerformInteractions.performEach].
    rewrite (performInteraction_able h st Hh).
    rewrite (IH _ Hrest). cbn [_cI performed].
    rewrite <- app_assoc. destruct rest; reflexivity.
Qed.

Lemma performEach_unable (before after : list Handler) (h : Handler) :
  forall st,
    Forall (fun h => able h = true) before ->
    able h = false ->
    exists message,
      performEach (before ++ h :: after) st
      = (mkHands (Some h) (performed st ++ before),
         Some (CancelError message)).
Proof.
  induction before as [|b before IH]; intros st Hall Hh.
  - destruct (performInteraction_unable h st Hh) as [message Hrun].
    exists message. simpl. cbn [PerformInteractions.performEach].
    rewrite Hrun. rewrite app_nil_r. reflexivity.
  - apply Forall_cons in Hall as [Hb Hall].
    cbn [app PerformInteractions.performEach].
    rewrite (performInteraction_able b st Hb).
    destruct (IH (mkHands None (performed st ++ [b])) Hall Hh)
      as [message Hrun].
    exists message. rewrite Hrun. cbn [performed].
    rewrite <- app_assoc. reflexivity.
Qed.


End PerformInit.

End PerformInteractionsFacts.
